(** * TravelBot: expiring store, deduplicator, cooldown, per-user chain, work queue

    A shallow embedding of [src/util/ttlMap.js], [src/util/dedupe.js] and the
    message pipeline of [src/index.js] ([handleMessage], [processMessage]),
    followed by the properties the specification states of them.

    Conventions of the embedding.
    - A JavaScript [Map] is an association list in insertion order without
      repeated keys ([JsMap]); [Map.prototype.set] on a present key replaces
      the value in place, on an absent key appends.
    - [Date.now()] is the argument [now : Z] (milliseconds) of every operation
      that reads the clock; one synchronous call reads one instant.
    - [setTimeout] handles are natural numbers; the platform's table of armed
      timers is the field [pending] of the store, so that [clearTimeout] and
      the firing of a callback are explicit steps. A timer is armed for the
      delay the platform really uses ([Timers.delay]).
    - Stored values range over a type of defined values; [undefined] as a
      result is [None].
    - Promises live in a heap indexed by allocation order; [then] and [await]
      register reactions, settling a promise queues them as microtasks, and
      the queue is run to its end after every task of the event loop.
    - Logging has no effect on the state and is left out. *)

From Stdlib Require Import ZArith Lia DecimalString.
From stdpp Require Import base option list strings.

Local Open Scope Z_scope.

(** ** JavaScript [Map] with string keys *)

Module JsMap.
Section Defs.
Context {V : Type}.

Definition t := list (string * V).

Definition empty : t := [].

Fixpoint get (key : string) (m : t) : option V :=
  match m with
  | [] => None
  | (k, v) :: m' => if decide (k = key) then Some v else get key m'
  end.

Definition has (key : string) (m : t) : bool :=
  match get key m with Some _ => true | None => false end.

Fixpoint set (key : string) (v : V) (m : t) : t :=
  match m with
  | [] => [(key, v)]
  | (k, v') :: m' =>
      if decide (k = key) then (k, v) :: m' else (k, v') :: set key v m'
  end.

Fixpoint delete (key : string) (m : t) : t :=
  match m with
  | [] => []
  | (k, v) :: m' =>
      if decide (k = key) then delete key m' else (k, v) :: delete key m'
  end.

Definition size (m : t) : nat := length m.

(** Iteration order of [for (const [key] of m)]. *)
Definition keys (m : t) : list string := m.*1.

(** Keys are unique in a [Map]. *)
Definition wf (m : t) : Prop := NoDup (keys m).
End Defs.
Arguments t : clear implicits.
End JsMap.

(** ** Timers of the platform *)

Module Timers.

(** The longest delay of a timer, 2^31 - 1 ms. *)
Definition TIMEOUT_MAX : Z := 2147483647.

(** The delay [setTimeout(callback, delay)] arms the timer for, on an integer
    [delay]: Node sets a delay above [TIMEOUT_MAX] or below 1 to 1. *)
Definition delay (ms : Z) : Z :=
  if (1 <=? ms) && (ms <=? TIMEOUT_MAX) then ms else 1.

(** A delay that the platform takes as it is. *)
Definition inRange (ms : Z) : Prop := 1 ≤ ms ≤ TIMEOUT_MAX.

End Timers.

(** ** [TTLMap] ([src/util/ttlMap.js]) *)

Module TTLMap.

Record entry (V : Type) := Entry { value : V; expiresAt : Z }.
Arguments Entry {V}.
Arguments value {V}.
Arguments expiresAt {V}.

(** An armed [setTimeout(() => this.delete(key), ttl)]: the instant from which
  the platform may run the callback, and the key the callback deletes. *)
Record timeout := Timeout { due : Z; target : string }.

Record t (V : Type) := Store {
  map : JsMap.t (entry V);
  timers : JsMap.t nat;
  defaultTTL : Z;
  pending : list (nat * timeout);
  nextHandle : nat
}.
Arguments Store {V}.
Arguments map {V}.
Arguments timers {V}.
Arguments defaultTTL {V}.
Arguments pending {V}.
Arguments nextHandle {V}.

Section Ops.
Context {V : Type}.

(** [new TTLMap(defaultTTL)]. *)
Definition new (ttl : Z) : t V :=
  {| map := JsMap.empty; timers := JsMap.empty; defaultTTL := ttl;
     pending := []; nextHandle := O |}.

Definition clearTimeout (h : nat) (p : list (nat * timeout)) : list (nat * timeout) :=
  filter (λ ht, ht.1 ≠ h) p.

Definition clearTimer (key : string) (s : t V) : list (nat * timeout) :=
  match JsMap.get key (timers s) with
  | Some h => clearTimeout h (pending s)
  | None => pending s
  end.

(** [set(key, value, ttl)]. *)
Definition set (now : Z) (key : string) (v : V) (ttl : Z) (s : t V) : t V :=
  let h := nextHandle s in
  {| map := JsMap.set key (Entry v (now + ttl)) (map s);
     timers := JsMap.set key h (timers s);
     defaultTTL := defaultTTL s;
     pending := clearTimer key s ++ [(h, Timeout (now + Timers.delay ttl) key)];
     nextHandle := S h |}.

(** [delete(key)]. *)
Definition delete (key : string) (s : t V) : t V :=
  {| map := JsMap.delete key (map s);
     timers := JsMap.delete key (timers s);
     defaultTTL := defaultTTL s;
     pending := clearTimer key s;
     nextHandle := nextHandle s |}.

(** [get(key)]: the value, or [None] for [undefined]. *)
Definition get (now : Z) (key : string) (s : t V) : option V * t V :=
  match JsMap.get key (map s) with
  | None => (None, s)
  | Some e =>
      if now >? expiresAt e then (None, delete key s) else (Some (value e), s)
  end.

(** [has(key)]. *)
Definition has (now : Z) (key : string) (s : t V) : bool * t V :=
  match JsMap.get key (map s) with
  | None => (false, s)
  | Some e =>
      if now >? expiresAt e then (false, delete key s) else (true, s)
  end.

(** [update(key, updater, ttl)]. *)
Definition update (now : Z) (key : string) (updater : option V → V) (ttl : Z)
    (s : t V) : t V :=
  let '(current, s1) := get now key s in
  set now key (updater current) ttl s1.

(** [get size()]. *)
Definition size (s : t V) : nat := JsMap.size (map s).

(** [cleanup()]: the loop visits the entries present when it starts; deleting
    the visited entry does not disturb the iteration of a [Map]. *)
Definition cleanup (now : Z) (s : t V) : t V :=
  fold_left
    (λ acc ke, if now >? expiresAt ke.2 then delete ke.1 acc else acc)
    (map s) s.

(** [clear()]. *)
Definition clear (s : t V) : t V :=
  {| map := JsMap.empty; timers := JsMap.empty; defaultTTL := defaultTTL s;
     pending := fold_left (λ p kh, clearTimeout kh.2 p) (timers s) (pending s);
     nextHandle := nextHandle s |}.

(** [destroy()]: [clearInterval] stops the periodic [cleanup]; then [clear]. *)
Definition destroy (s : t V) : t V := clear s.

(** The platform runs the callback of the armed timer [h] at instant [now];
    [None] when [h] is not armed or not yet due. *)
Definition fire (now : Z) (h : nat) (s : t V) : option (t V) :=
  match list_find (λ ht, ht.1 = h) (pending s) with
  | Some (_, (_, tm)) =>
      if due tm <=? now then
        Some (delete (target tm)
                {| map := map s; timers := timers s; defaultTTL := defaultTTL s;
                   pending := clearTimeout h (pending s);
                   nextHandle := nextHandle s |})
      else None
  | None => None
  end.

(** What happens to a store between two calls of its owner: armed timers
    fire and the periodic cleanup runs. *)
Inductive background := Fire (now : Z) (h : nat) | Cleanup (now : Z).

Definition instant (b : background) : Z :=
  match b with Fire now _ => now | Cleanup now => now end.

Definition step (b : background) (s : t V) : t V :=
  match b with
  | Fire now h => default s (fire now h s)
  | Cleanup now => cleanup now s
  end.

Definition steps (bs : list background) (s : t V) : t V :=
  fold_left (λ acc b, step b acc) bs s.

(** Every armed timer is the one the store holds for its key. *)
Definition tidy (s : t V) : Prop :=
  ∀ h tm, (h, tm) ∈ pending s → JsMap.get (target tm) (timers s) = Some h.

Definition consistent (s : t V) : Prop := JsMap.wf (map s) ∧ tidy s.

End Ops.
End TTLMap.

(** ** [MessageDeduplicator] ([src/util/dedupe.js]) *)

Module MessageDeduplicator.

Definition DEDUPE_TTL : Z := 10 * 60 * 1000.

Definition MAX_ENTRIES : Z := 10000.

Record t := Dedup {
  seen : TTLMap.t bool;
  maxEntries : Z;
  ttl : Z
}.

(** [new MessageDeduplicator(ttl, maxEntries)]. *)
Definition new (ttl maxEntries : Z) : t :=
  {| seen := TTLMap.new ttl; maxEntries := maxEntries; ttl := ttl |}.

Definition with_seen (d : t) (s : TTLMap.t bool) : t :=
  {| seen := s; maxEntries := maxEntries d; ttl := ttl d |}.

(** [isDuplicate(messageId)]; [!messageId] holds of the empty string. *)
Definition isDuplicate (now : Z) (messageId : string) (d : t) : bool * t :=
  if decide (messageId = "") then (false, d)
  else
    let '(found, s) := TTLMap.has now messageId (seen d) in
    (found, with_seen d s).

(** The loop of [evictOldest] over the keys in iteration order, [deleted]
    counting the deletions made so far. *)
Fixpoint evictLoop (ks : list string) (toDelete deleted : Z) (s : TTLMap.t bool)
    : TTLMap.t bool :=
  match ks with
  | [] => s
  | key :: ks' =>
      if deleted >=? toDelete then s
      else evictLoop ks' toDelete (deleted + 1) (TTLMap.delete key s)
  end.

(** [evictOldest()]. [Math.floor(maxEntries * 0.1)] is [maxEntries / 10]: on an
    integer below 2^53 the rounded product is the exact quotient when
    [maxEntries] is a multiple of ten, and never reaches the next integer
    otherwise. *)
Definition evictOldest (d : t) : t :=
  let toDelete := maxEntries d / 10 in
  with_seen d (evictLoop (JsMap.keys (TTLMap.map (seen d))) toDelete 0 (seen d)).

(** [get size()]. *)
Definition size (d : t) : nat := TTLMap.size (seen d).

(** [markSeen(messageId)]. *)
Definition markSeen (now : Z) (messageId : string) (d : t) : t :=
  if decide (messageId = "") then d
  else
    let d1 := if Z.of_nat (size d) >=? maxEntries d then evictOldest d else d in
    with_seen d1 (TTLMap.set now messageId true (ttl d1) (seen d1)).

(** [checkAndMark(messageId)]. *)
Definition checkAndMark (now : Z) (messageId : string) (d : t) : bool * t :=
  let '(dup, d1) := isDuplicate now messageId d in
  if dup then (true, d1) else (false, markSeen now messageId d1).

(** [destroy()]. *)
Definition destroy (d : t) : t := with_seen d (TTLMap.destroy (seen d)).

(** The exported singleton [deduplicator]. *)
Definition deduplicator : t := new DEDUPE_TTL MAX_ENTRIES.

(** The calls a client makes, and what the store does between them. *)
Inductive call :=
| MarkSeen (now : Z) (messageId : string)
| IsDuplicate (now : Z) (messageId : string)
| CheckAndMark (now : Z) (messageId : string)
| Background (b : TTLMap.background).

Definition perform (c : call) (d : t) : t :=
  match c with
  | MarkSeen now messageId => markSeen now messageId d
  | IsDuplicate now messageId => (isDuplicate now messageId d).2
  | CheckAndMark now messageId => (checkAndMark now messageId d).2
  | Background b => with_seen d (TTLMap.step b (seen d))
  end.

Definition performAll (cs : list call) (d : t) : t :=
  fold_left (λ acc c, perform c acc) cs d.

(** The decimal numeral of [n], used as a message id. *)
Definition idOf (n : nat) : string := NilEmpty.string_of_uint (Nat.to_uint n).

(** [markSeen] of the ids numbered [ns], in this order, the call for [n]
    reading the clock at [clock n]. *)
Definition markInOrder (clock : nat → Z) (ns : list nat) (d : t) : t :=
  fold_left (λ acc n, markSeen (clock n) (idOf n) acc) ns d.

(** The keys of the store in iteration order, oldest insertion first. *)
Definition order (d : t) : list string := JsMap.keys (TTLMap.map (seen d)).

End MessageDeduplicator.

(** ** Message pipeline ([src/index.js]) *)

Module Index.

(** The fields of a WhatsApp message the pipeline reads; [id_serialized] is
    [msg.id?._serialized], [None] when undefined. *)
Record message := Message {
  id_serialized : option string;
  from : string;
  fromMe : bool
}.

#[global] Instance message_eq_dec : EqDecision message.
Proof. solve_decision. Defined.

(** [String.prototype.includes]. *)
Fixpoint includes (needle s : string) : bool :=
  if String.prefix needle s then true
  else match s with
       | EmptyString => false
       | String _ s' => includes needle s'
       end.

(** *** Promises and the microtask queue *)

Inductive settlement := Fulfilled | Rejected.

(** A callback registered on a promise.
    - [AwaitFinally userId]: the rest of [handleMessage] after [await promise],
      that is the [finally] block (and the [catch] that logs on rejection).
    - [ThenProcess msg derived]: the handler of
      [currentPromise.then(() => processMessage(msg))]; [derived] is the promise
      that [then] returned. No rejection handler is passed.
    - [Adopt derived]: [derived] was resolved with the promise of a
      [processMessage] call and follows it. *)
Inductive reaction :=
| AwaitFinally (userId : string)
| ThenProcess (msg : message) (derived : nat)
| Adopt (derived : nat).

Record promise := Promise {
  state : option settlement;
  reactions : list reaction
}.

(** How a call of [processMessage] ends: after sending the reply, with no
    reply to send, or by an exception (thrown by a handler or by [msg.reply]). *)
Inductive outcome := Replied | Silent | Threw.

Inductive observation :=
| Started (msg : message) (wait : option Z)
| Returned (msg : message) (o : outcome).

Record world := World {
  deduplicator : MessageDeduplicator.t;
  userCooldowns : TTLMap.t Z;
  inflightRequests : JsMap.t nat;
  promises : list promise;
  jobs : list (reaction * settlement);
  running : list (nat * message);
  log : list observation;
  sleeping : list (nat * Z)
}.

Definition with_deduplicator (w : world) (d : MessageDeduplicator.t) : world :=
  World d (userCooldowns w) (inflightRequests w) (promises w) (jobs w)
    (running w) (log w) (sleeping w).

Definition with_userCooldowns (w : world) (c : TTLMap.t Z) : world :=
  World (deduplicator w) c (inflightRequests w) (promises w) (jobs w)
    (running w) (log w) (sleeping w).

Definition with_inflightRequests (w : world) (m : JsMap.t nat) : world :=
  World (deduplicator w) (userCooldowns w) m (promises w) (jobs w)
    (running w) (log w) (sleeping w).

Definition with_promises (w : world) (ps : list promise) : world :=
  World (deduplicator w) (userCooldowns w) (inflightRequests w) ps (jobs w)
    (running w) (log w) (sleeping w).

Definition with_jobs (w : world) (js : list (reaction * settlement)) : world :=
  World (deduplicator w) (userCooldowns w) (inflightRequests w) (promises w) js
    (running w) (log w) (sleeping w).

(** A fresh pending promise. *)
Definition newPromise (w : world) : nat * world :=
  (length (promises w), with_promises w (promises w ++ [Promise None []])).

(** [then]/[await] on promise [p]: the reaction waits while [p] is pending and
    is queued as a microtask at once when [p] is already settled. *)
Definition subscribe (p : nat) (r : reaction) (w : world) : world :=
  match promises w !! p with
  | Some (Promise None rs) =>
      with_promises w (<[p := Promise None (rs ++ [r])]> (promises w))
  | Some (Promise (Some o) _) => with_jobs w (jobs w ++ [(r, o)])
  | None => w
  end.

(** Settling a pending promise queues its reactions; a settled promise stays
    as it is. *)
Definition settle (p : nat) (o : settlement) (w : world) : world :=
  match promises w !! p with
  | Some (Promise None rs) =>
      with_jobs
        (with_promises w (<[p := Promise (Some o) []]> (promises w)))
        (jobs w ++ ((λ r, (r, o)) <$> rs))
  | _ => w
  end.

Section Pipeline.
Variable USER_COOLDOWN_MS : Z.

(** The cooldown test that opens [processMessage]: the time to sleep, if any.
    [if (lastReplyAt)] fails on [undefined] and on the number 0. *)
Definition applyCooldown (now : Z) (userId : string) (c : TTLMap.t Z)
    : option Z * TTLMap.t Z :=
  let '(lastReplyAt, c1) := TTLMap.get now userId c in
  match lastReplyAt with
  | Some t =>
      if decide (t = 0) then (None, c1)
      else
        let elapsed := now - t in
        if elapsed <? USER_COOLDOWN_MS
        then (Some (USER_COOLDOWN_MS - elapsed), c1)
        else (None, c1)
  | None => (None, c1)
  end.

(** [userCooldowns.set(userId, Date.now())], with the store's default TTL. *)
Definition recordReply (now : Z) (userId : string) (c : TTLMap.t Z) : TTLMap.t Z :=
  TTLMap.set now userId now (TTLMap.defaultTTL c) c.

(** The call [processMessage(msg)] up to its first suspension: it returns the
    promise of the async function, now running. When the cooldown applies the
    call awaits [sleep(waitTime)], that is [setTimeout(resolve, waitTime)]:
    [sleeping] records the instant from which that timer may fire. *)
Definition processMessage (now : Z) (msg : message) (w : world) : nat * world :=
  let '(wait, c) := applyCooldown now (from msg) (userCooldowns w) in
  let p := length (promises w) in
  (p, World (deduplicator w) c (inflightRequests w)
        (promises w ++ [Promise None []]) (jobs w)
        (running w ++ [(p, msg)]) (log w ++ [Started msg wait])
        (match wait with
         | Some waitTime => sleeping w ++ [(p, now + Timers.delay waitTime)]
         | None => sleeping w
         end)).

(** [handleMessage(msg)] up to the point where it returns or suspends. *)
Definition handleMessage (now : Z) (msg : message) (w : world) : world :=
  if includes "@g.us" (from msg) then w
  else if decide (from msg = "status@broadcast") then w
  else if fromMe msg then w
  else
    let messageId := default "" (id_serialized msg) in
    let userId := from msg in
    let '(dup, d) := MessageDeduplicator.checkAndMark now messageId (deduplicator w) in
    let w1 := with_deduplicator w d in
    if dup then w1
    else
      match JsMap.get userId (inflightRequests w1) with
      | Some currentPromise =>
          let '(derived, w2) := newPromise w1 in
          let w3 := subscribe currentPromise (ThenProcess msg derived) w2 in
          with_inflightRequests w3 (JsMap.set userId derived (inflightRequests w3))
      | None =>
          let '(p, w2) := processMessage now msg w1 in
          let w3 := with_inflightRequests w2 (JsMap.set userId p (inflightRequests w2)) in
          subscribe p (AwaitFinally userId) w3
      end.

(** One microtask. *)
Definition runJob (now : Z) (j : reaction * settlement) (w : world) : world :=
  match j with
  | (AwaitFinally userId, _) =>
      with_inflightRequests w (JsMap.delete userId (inflightRequests w))
  | (ThenProcess msg derived, Fulfilled) =>
      let '(p, w1) := processMessage now msg w in
      subscribe p (Adopt derived) w1
  | (ThenProcess msg derived, Rejected) => settle derived Rejected w
  | (Adopt derived, o) => settle derived o w
  end.

Fixpoint drain (fuel : nat) (now : Z) (w : world) : world :=
  match fuel with
  | O => w
  | S fuel' =>
      match jobs w with
      | [] => w
      | j :: js => drain fuel' now (runJob now j (with_jobs w js))
      end
  end.

Definition weight (r : reaction) : nat :=
  match r with ThenProcess _ _ => 2%nat | _ => 1%nat end.

(** Bound on the microtasks still to run: queued jobs and registered
    reactions, a [then] handler counting twice since it may register one. *)
Definition pendingWeight (p : promise) : nat := sum_list_with weight (reactions p).

Definition backlog (w : world) : nat :=
  (sum_list_with (weight ∘ fst) (jobs w)
   + sum_list_with pendingWeight (promises w))%nat.

(** The microtask checkpoint that follows every task of the event loop. *)
Definition checkpoint (now : Z) (w : world) : world := drain (backlog w) now w.

(** The call with promise [p] still sleeps at instant [now]: the timer of its
    [sleep] is not due yet. *)
Definition asleep (now : Z) (p : nat) (w : world) : bool :=
  match list_find (λ pd, pd.1 = p) (sleeping w) with
  | Some (_, (_, due)) => now <? due
  | None => false
  end.

(** The running call of [processMessage] with promise [p] reaches its end at
    instant [now]: its sleep, if it had one, is over (a timer fires at its due
    instant or later, never before), the handlers have run, and the reply, if
    any, is sent. A call that still sleeps cannot have come that far. *)
Definition processMessage_return (now : Z) (p : nat) (o : outcome) (w : world)
    : world :=
  if asleep now p w then w
  else
    match list_find (λ pm, pm.1 = p) (running w) with
    | Some (_, (_, msg)) =>
        let c := match o with
                 | Replied => recordReply now (from msg) (userCooldowns w)
                 | _ => userCooldowns w
                 end in
        let w1 := World (deduplicator w) c (inflightRequests w) (promises w)
                    (jobs w) (filter (λ pm, pm.1 ≠ p) (running w))
                    (log w ++ [Returned msg o])
                    (filter (λ pd, pd.1 ≠ p) (sleeping w)) in
        settle p (match o with Threw => Rejected | _ => Fulfilled end) w1
    | None => w
    end.

(** What the event loop delivers. *)
Inductive event :=
| Incoming (now : Z) (msg : message)
| Return (now : Z) (p : nat) (o : outcome)
| DedupeBackground (b : TTLMap.background)
| CooldownBackground (b : TTLMap.background).

Definition exec (e : event) (w : world) : world :=
  match e with
  | Incoming now msg => checkpoint now (handleMessage now msg w)
  | Return now p o => checkpoint now (processMessage_return now p o w)
  | DedupeBackground b =>
      with_deduplicator w
        (MessageDeduplicator.with_seen (deduplicator w)
           (TTLMap.step b (MessageDeduplicator.seen (deduplicator w))))
  | CooldownBackground b => with_userCooldowns w (TTLMap.step b (userCooldowns w))
  end.

Definition run (es : list event) (w : world) : world :=
  fold_left (λ acc e, exec e acc) es w.

(** The state of the module once loaded. *)
Definition init : world :=
  {| deduplicator := MessageDeduplicator.deduplicator;
     userCooldowns := TTLMap.new (USER_COOLDOWN_MS * 2);
     inflightRequests := JsMap.empty;
     promises := [];
     jobs := [];
     running := [];
     log := [];
     sleeping := [] |}.

End Pipeline.

(** No two running calls of [processMessage] belong to one user. *)
Definition serialized (w : world) : Prop := NoDup ((from ∘ snd) <$> running w).

(** The same read off the log: scanning it, no [Started] finds its user
    already active. *)
Fixpoint exclusive (active : list string) (l : list observation) : bool :=
  match l with
  | [] => true
  | Started msg _ :: l' =>
      if decide (from msg ∈ active) then false
      else exclusive (from msg :: active) l'
  | Returned msg _ :: l' =>
      exclusive (filter (λ u, u ≠ from msg) active) l'
  end.

Definition started (msg : message) (w : world) : Prop :=
  ∃ wait, Started msg wait ∈ log w.

(** [msg] sits in a [then] handler that is registered on a promise or queued
    as a microtask: the only places from which a message that was chained
    can still reach [processMessage]. *)
Definition queued (msg : message) (w : world) : Prop :=
  (∃ derived o, (ThenProcess msg derived, o) ∈ jobs w)
  ∨ (∃ p derived, p ∈ promises w ∧ ThenProcess msg derived ∈ reactions p).

(** [msg] has not run and nothing is left that would run it. *)
Definition dropped (msg : message) (w : world) : Prop :=
  ¬ started msg w ∧ ¬ queued msg w.

Definition delivers (msg : message) (e : event) : Prop :=
  ∃ now, e = Incoming now msg.

(** Three messages of one user, as WhatsApp delivers them. *)
Definition alice : string := "919812345678@c.us".

Definition msgA : message :=
  {| id_serialized := Some "false_919812345678@c.us_3EB0A1"; from := alice;
     fromMe := false |}.

Definition msgB : message :=
  {| id_serialized := Some "false_919812345678@c.us_3EB0B2"; from := alice;
     fromMe := false |}.

Definition msgC : message :=
  {| id_serialized := Some "false_919812345678@c.us_3EB0C3"; from := alice;
     fromMe := false |}.

End Index.

(** ** Bounded work queue ([queue.add] in the reply generator) *)

Module WorkQueue.

(** Modelled from the spec: the queue is [new PQueue({ concurrency })] from the
    package p-queue, whose source is not in the repository. The state is the
    FIFO of waiting tasks and the tasks now running, with the limit; the three
    logs record the order of submissions, starts and settlements. A task is
    named by its rank of submission. *)
Record t := Queue {
  concurrencyLimit : nat;
  fifo : list nat;
  running : list nat;
  submitted : list nat;
  startLog : list nat;
  settled : list nat
}.

(** Modelled from the spec: [WorkQueue(concurrencyLimit)], empty. *)
Definition new (limit : nat) : t :=
  {| concurrencyLimit := limit; fifo := []; running := []; submitted := [];
     startLog := []; settled := [] |}.

(** Modelled from the spec: [submit(task)] appends the task to the FIFO; if
    [running < concurrencyLimit] the task starts at once, otherwise it waits
    for a slot. *)
Definition submit (q : t) : t :=
  let task := length (submitted q) in
  if (length (running q) <? concurrencyLimit q)%nat
  then {| concurrencyLimit := concurrencyLimit q; fifo := fifo q;
          running := running q ++ [task]; submitted := submitted q ++ [task];
          startLog := startLog q ++ [task]; settled := settled q |}
  else {| concurrencyLimit := concurrencyLimit q; fifo := fifo q ++ [task];
          running := running q; submitted := submitted q ++ [task];
          startLog := startLog q; settled := settled q |}.

(** Modelled from the spec: on settlement of a running task (success or
    failure) [running] decrements and, if the FIFO is non-empty, the next task
    is started. Settling a task that is not running is no event. *)
Definition settle (task : nat) (q : t) : t :=
  if decide (task ∈ running q) then
    let rest := filter (λ r, r ≠ task) (running q) in
    match fifo q with
    | [] =>
        {| concurrencyLimit := concurrencyLimit q; fifo := [];
           running := rest; submitted := submitted q;
           startLog := startLog q; settled := settled q ++ [task] |}
    | next :: waiting =>
        {| concurrencyLimit := concurrencyLimit q; fifo := waiting;
           running := rest ++ [next]; submitted := submitted q;
           startLog := startLog q ++ [next]; settled := settled q ++ [task] |}
    end
  else q.

(** Modelled from the spec: [stats()], that is pending, running and the limit. *)
Definition stats (q : t) : nat * nat * nat :=
  (length (fifo q), length (running q), concurrencyLimit q).

Inductive event := Submit | Settle (task : nat).

Definition exec (e : event) (q : t) : t :=
  match e with
  | Submit => submit q
  | Settle task => settle task q
  end.

Definition run (es : list event) (q : t) : t := fold_left (λ acc e, exec e acc) es q.

(** A schedule of settlements each of which finds its task running. *)
Fixpoint feasible (sched : list nat) (q : t) : Prop :=
  match sched with
  | [] => True
  | task :: sched' => task ∈ running q ∧ feasible sched' (settle task q)
  end.

(** What holds of every state of the queue: tasks are named in order of
    submission; those started are the oldest submitted, in that order, the
    others wait; a started task is running or settled; the limit is respected,
    and a task waits only when every slot is taken. *)
Record invariant (q : t) : Prop := Invariant {
  inv_submitted : submitted q = seq 0 (length (submitted q));
  inv_fifo : startLog q ++ fifo q = submitted q;
  inv_started : startLog q ≡ₚ settled q ++ running q;
  inv_bound : (length (running q) ≤ concurrencyLimit q)%nat;
  inv_full : fifo q ≠ [] → (concurrencyLimit q ≤ length (running q))%nat
}.

End WorkQueue.

(** ** Sequences of calls on a [TTLMap] *)

Module TTLMapCalls.
Section Calls.
Context {V : Type}.

(** The methods of the class as calls; the optional [ttl] of [set] and
    [update] is [None] when the argument is left out and the default of the
    store applies. *)
Inductive call :=
| DoSet (now : Z) (key : string) (v : V) (ttl : option Z)
| DoGet (now : Z) (key : string)
| DoHas (now : Z) (key : string)
| DoDelete (key : string)
| DoUpdate (now : Z) (key : string) (updater : option V → V) (ttl : option Z)
| DoClear
| DoBackground (b : TTLMap.background).

Definition perform (c : call) (s : TTLMap.t V) : TTLMap.t V :=
  match c with
  | DoSet now key v ttl =>
      TTLMap.set now key v (default (TTLMap.defaultTTL s) ttl) s
  | DoGet now key => (TTLMap.get now key s).2
  | DoHas now key => (TTLMap.has now key s).2
  | DoDelete key => TTLMap.delete key s
  | DoUpdate now key updater ttl =>
      TTLMap.update now key updater (default (TTLMap.defaultTTL s) ttl) s
  | DoClear => TTLMap.clear s
  | DoBackground b => TTLMap.step b s
  end.

Definition performAll (cs : list call) (s : TTLMap.t V) : TTLMap.t V :=
  fold_left (λ acc c, perform c acc) cs s.

(** The TTL of the call, its own or the default of the store, is a delay
    that the platform's timer takes as it is. *)
Definition timed (defaultTTL : Z) (c : call) : Prop :=
  match c with
  | DoSet _ _ _ ttl | DoUpdate _ _ _ ttl => Timers.inRange (default defaultTTL ttl)
  | _ => True
  end.

(** The store and the platform's timers agree: keys are unique, handles are
    unique and older than the next one, every entry has its timer armed for
    the entry's deadline, and every armed or registered timer belongs to an
    entry. *)
Record synced (s : TTLMap.t V) : Prop := Synced {
  synced_map : JsMap.wf (TTLMap.map s);
  synced_handles : NoDup (TTLMap.pending s).*1;
  synced_fresh : ∀ h tm, (h, tm) ∈ TTLMap.pending s → (h < TTLMap.nextHandle s)%nat;
  synced_entry : ∀ key e,
    JsMap.get key (TTLMap.map s) = Some e →
    ∃ h, JsMap.get key (TTLMap.timers s) = Some h
         ∧ (h, TTLMap.Timeout (TTLMap.expiresAt e) key) ∈ TTLMap.pending s;
  synced_timer : ∀ h tm,
    (h, tm) ∈ TTLMap.pending s →
    JsMap.get (TTLMap.target tm) (TTLMap.timers s) = Some h
    ∧ ∃ e, JsMap.get (TTLMap.target tm) (TTLMap.map s) = Some e
           ∧ TTLMap.due tm = TTLMap.expiresAt e;
  synced_registry : ∀ key h,
    JsMap.get key (TTLMap.timers s) = Some h →
    is_Some (JsMap.get key (TTLMap.map s))
}.

(** What a read at instant [t] returns, leaving aside its effect. *)
Definition read (t : Z) (key : string) (s : TTLMap.t V) : option V :=
  (TTLMap.get t key s).1.

End Calls.
End TTLMapCalls.

(** ** Further notions on the deduplicator and the pipeline *)

Module DedupeCalls.

(** The call [c] marks [messageId] as seen, or may do so. *)
Definition marks (messageId : string) (c : MessageDeduplicator.call) : Prop :=
  ∃ now, c = MessageDeduplicator.MarkSeen now messageId
         ∨ c = MessageDeduplicator.CheckAndMark now messageId.

(** An event of the pipeline that does not involve the deduplicator: the end
    of a [processMessage] call, or background work of the cooldown store. *)
Definition quiet (e : Index.event) : Prop :=
  match e with
  | Index.Return _ _ _ | Index.CooldownBackground _ => True
  | _ => False
  end.

End DedupeCalls.

(** ** JavaScript strings as UTF-16 code units *)

Module JsString.

(** A string value is its sequence of code units; [length] counts them. *)
Definition t := list N.

(** An ASCII literal of the source. *)
Definition lit (s : string) : t := Ascii.N_of_ascii <$> String.list_ascii_of_string s.

(** [s.length], as an integer. *)
Definition len (s : t) : Z := Z.of_nat (length s).

(** [s.substring(a, b)]: both indices are clamped to [0, length] and swapped
    when out of order. *)
Definition substring (a b : Z) (s : t) : t :=
  let a' := Z.max 0 (Z.min a (len s)) in
  let b' := Z.max 0 (Z.min b (len s)) in
  let lo := Z.min a' b' in
  let hi := Z.max a' b' in
  take (Z.to_nat (hi - lo)) (drop (Z.to_nat lo) s).

(** The code units matched by [\s]: white space and line terminators. *)
Definition isSpace (c : N) : bool :=
  ((9 <=? c) && (c <=? 13) || (c =? 32) || (c =? 160) || (c =? 5760)
   || (8192 <=? c) && (c <=? 8202) || (c =? 8232) || (c =? 8233) || (c =? 8239)
   || (c =? 8287) || (c =? 12288) || (c =? 65279))%N.

(** Does [s] start with [p]? *)
Fixpoint startsWith (p s : t) : bool :=
  match p, s with
  | [], _ => true
  | c :: p', d :: s' => (c =? d)%N && startsWith p' s'
  | _ :: _, [] => false
  end.

(** [s.lastIndexOf(p)] for a non-empty [p]: the greatest index at which [p]
    occurs in [s], or [-1]; [i] is the index of the head of [s]. *)
Fixpoint lastIndexFrom (p s : t) (i : Z) : Z :=
  match s with
  | [] => -1
  | _ :: s' =>
      let later := lastIndexFrom p s' (i + 1) in
      if later >=? 0 then later else if startsWith p s then i else -1
  end.

Definition lastIndexOf (p s : t) : Z := lastIndexFrom p s 0.

(** [s.search(/[.!?]\s/)]: the least index of a full stop, exclamation mark or
    question mark that is followed by white space, or [-1]. *)
Fixpoint searchSentenceEndFrom (s : t) (i : Z) : Z :=
  match s with
  | c :: ((d :: _) as s') =>
      if ((c =? 46) || (c =? 33) || (c =? 63))%N && isSpace d then i
      else searchSentenceEndFrom s' (i + 1)
  | _ => -1
  end.

Definition searchSentenceEnd (s : t) : Z := searchSentenceEndFrom s 0.

End JsString.

(** ** Conversation history and bookmarks ([src/index.js]) *)

Module Conversation.

Definition MAX_CONVERSATION_HISTORY : Z := 10.

Record historyEntry := HistoryEntry {
  role : string;
  text : JsString.t;
  timestamp : Z
}.

(** The fields of the per-user context that the history and bookmark
    functions read or write; [None] is a property that is not set. *)
Record userContext := UserContext {
  conversationHistory : option (list historyEntry);
  savedPlaces : option (list JsString.t)
}.

(** [array.slice(-n)] for [n > 0]: the last [n] elements, all of them when
    there are fewer. *)
Definition sliceLast {A} (n : Z) (l : list A) : list A :=
  drop (Z.to_nat (Z.max (Z.of_nat (length l) - n) 0)) l.

(** [addToHistory(userContext, role, text)]. *)
Definition addToHistory (now : Z) (role : string) (text : JsString.t)
    (ctx : userContext) : userContext :=
  let history := default [] (conversationHistory ctx) in
  let pushed := history ++ [HistoryEntry role text now] in
  let kept :=
    if Z.of_nat (length pushed) >? MAX_CONVERSATION_HISTORY
    then sliceLast MAX_CONVERSATION_HISTORY pushed
    else pushed in
  {| conversationHistory := Some kept; savedPlaces := savedPlaces ctx |}.

(** The loop of [getLastBotResponse], from the last entry backwards; the
    argument is the history reversed. *)
Fixpoint lastAssistant (reversed : list historyEntry) : option JsString.t :=
  match reversed with
  | [] => None
  | e :: older =>
      if decide (role e = "assistant") then Some (text e) else lastAssistant older
  end.

(** [getLastBotResponse(userContext)]; [None] is [null]. *)
Definition getLastBotResponse (ctx : userContext) : option JsString.t :=
  match conversationHistory ctx with
  | None => None
  | Some history => lastAssistant (reverse history)
  end.

(** [saveLastSuggestion(userContext)]: the summary saved, if any, and the
    context as the call leaves it. *)
Definition saveLastSuggestion (ctx : userContext) : option JsString.t * userContext :=
  match conversationHistory ctx with
  | None | Some [] => (None, ctx)
  | Some _ =>
      match getLastBotResponse ctx with
      | None | Some [] => (None, ctx)
      | Some lastBot =>
          let firstSentenceEnd := JsString.searchSentenceEnd lastBot in
          let summary :=
            if (firstSentenceEnd >? 20) && (firstSentenceEnd <? 150)
            then JsString.substring 0 (firstSentenceEnd + 1) lastBot
            else if JsString.len lastBot >? 100
                 then JsString.substring 0 100 lastBot ++ JsString.lit "..."
                 else lastBot in
          let places := default [] (savedPlaces ctx) in
          if decide (summary ∈ places)
          then (None, {| conversationHistory := conversationHistory ctx;
                         savedPlaces := Some places |})
          else (Some summary,
                {| conversationHistory := conversationHistory ctx;
                   savedPlaces := Some (places ++ [summary]) |})
      end
  end.

(** A message to add: role, text and the instant of the call. *)
Definition addition : Type := string * JsString.t * Z.

Definition entryOf (a : addition) : historyEntry :=
  HistoryEntry a.1.1 a.1.2 a.2.

Definition addAll (adds : list addition) (ctx : userContext) : userContext :=
  fold_left (λ acc a, addToHistory a.2 a.1.1 a.1.2 acc) adds ctx.

End Conversation.

(** ** Reconnection with backoff ([src/index.js]) *)

Module Reconnect.

(** [reconnectAttempts], the delay of the armed [reconnectTimeout] if there
    is one, and the calls of [client.initialize()] made by fired timers that
    have not settled yet. *)
Record state := State {
  reconnectAttempts : Z;
  reconnectTimeout : option Z;
  initializing : nat
}.

Definition init : state :=
  {| reconnectAttempts := 0; reconnectTimeout := None; initializing := 0 |}.

(** [scheduleReconnect()]. [Math.pow(2, n)] is exact on the attempts a process
    can count, and infinite beyond, where the minimum is 30000 all the same. *)
Definition scheduleReconnect (st : state) : state :=
  match reconnectTimeout st with
  | Some _ => st
  | None =>
      let attempts := reconnectAttempts st + 1 in
      let delay := Z.min 30000 (1000 * 2 ^ attempts) in
      {| reconnectAttempts := attempts; reconnectTimeout := Some delay;
         initializing := initializing st |}
  end.

Inductive event :=
| Disconnected
| TimerFired
| InitializeResolved
| InitializeRejected.

(** The handlers: the [disconnected] listener (the failure of the first
    [client.initialize()] in [main] makes the same call); the timer callback
    up to its [await]; and its continuation after [client.initialize()]
    settles. *)
Definition exec (e : event) (st : state) : state :=
  match e with
  | Disconnected => scheduleReconnect st
  | TimerFired =>
      match reconnectTimeout st with
      | Some _ =>
          {| reconnectAttempts := reconnectAttempts st; reconnectTimeout := None;
             initializing := S (initializing st) |}
      | None => st
      end
  | InitializeResolved =>
      match initializing st with
      | S n =>
          {| reconnectAttempts := 0; reconnectTimeout := reconnectTimeout st;
             initializing := n |}
      | O => st
      end
  | InitializeRejected =>
      match initializing st with
      | S n =>
          scheduleReconnect
            {| reconnectAttempts := reconnectAttempts st;
               reconnectTimeout := reconnectTimeout st; initializing := n |}
      | O => st
      end
  end.

Definition run (es : list event) (st : state) : state :=
  fold_left (λ acc e, exec e acc) es st.

(** [k] reconnection attempts in a row that fail. *)
Fixpoint failures (k : nat) : list event :=
  match k with
  | O => []
  | S k' => failures k' ++ [TimerFired; InitializeRejected]
  end.

End Reconnect.

(** ** Reply length ([getTravelReply] of the reply generator) *)

Module Reply.

Definition MAX_RESPONSE_LENGTH : Z := 1200.

(** The block "Truncate if too long" of [getTravelReply], applied to the
    trimmed text of the model's answer. [MAX_RESPONSE_LENGTH * 0.7] is the
    double 840. *)
Definition truncateReply (reply : JsString.t) : JsString.t :=
  if JsString.len reply >? MAX_RESPONSE_LENGTH then
    let truncated := JsString.substring 0 MAX_RESPONSE_LENGTH reply in
    let lastSentence := JsString.lastIndexOf (JsString.lit ". ") truncated in
    if lastSentence >? 840
    then JsString.substring 0 (lastSentence + 1) truncated
    else truncated ++ JsString.lit "..."
  else reply.

End Reply.

(** ** Weather ([src/util/weather.js])

    A number of the API's answer is a rational (every finite double is one);
    a weather code is an integer. Answers with missing or non-numeric fields
    are outside the model. *)

From Stdlib Require Import QArith Qround Qabs Lqa.

Close Scope Q_scope.
Local Open Scope Z_scope.

Module Weather.

(** The object [data.current] of an Open-Meteo answer. *)
Record current := Current {
  temperature_2m : Q;
  relative_humidity_2m : Q;
  weather_code : Z;
  wind_speed_10m : Q
}.

(** [Math.round]: the nearest integer, a tie going upwards. *)
Definition Math_round (x : Q) : Z := Qfloor (x + (1 # 2))%Q.

(** [a > b] on numbers. *)
Definition gt (a b : Q) : bool := negb (Qle_bool a b).

(** [a < b] on numbers. *)
Definition lt (a b : Q) : bool := negb (Qle_bool b a).

(** The table [conditions] of [getWeatherCondition]. *)
Definition conditions : list (Z * string) :=
  [ (0, "Clear sky"); (1, "Mainly clear"); (2, "Partly cloudy"); (3, "Overcast");
    (45, "Foggy"); (48, "Foggy");
    (51, "Light drizzle"); (53, "Drizzle"); (55, "Heavy drizzle");
    (61, "Light rain"); (63, "Rain"); (65, "Heavy rain");
    (71, "Light snow"); (73, "Snow"); (75, "Heavy snow"); (77, "Snow grains");
    (80, "Light showers"); (81, "Showers"); (82, "Heavy showers");
    (85, "Snow showers"); (86, "Heavy snow showers");
    (95, "Thunderstorm"); (96, "Thunderstorm with hail");
    (99, "Thunderstorm with heavy hail") ].

(** [table[code]] on an object literal with integer keys. *)
Fixpoint property (code : Z) (table : list (Z * string)) : option string :=
  match table with
  | [] => None
  | (k, v) :: table' => if code =? k then Some v else property code table'
  end.

(** [getWeatherCondition(code)]; no text of the table is empty, so [||] falls
    back exactly on the codes the table lacks. *)
Definition getWeatherCondition (code : Z) : string :=
  default "Unknown" (property code conditions).

(** The strings [getWeatherIcon] returns, each named by the glyph it stands
    for. *)
Inductive icon :=
| Sun | SunBehindCloud | Cloud | Fog | RainCloud | Snowflake
| SunBehindRainCloud | SnowCloud | ThunderCloud | Thermometer.

(** [getWeatherIcon(code)]. *)
Definition getWeatherIcon (code : Z) : icon :=
  if (code =? 0) || (code =? 1) then Sun
  else if code =? 2 then SunBehindCloud
  else if code =? 3 then Cloud
  else if (code =? 45) || (code =? 48) then Fog
  else if (code >=? 51) && (code <=? 55) then RainCloud
  else if (code >=? 61) && (code <=? 65) then RainCloud
  else if (code >=? 71) && (code <=? 77) then Snowflake
  else if (code >=? 80) && (code <=? 82) then SunBehindRainCloud
  else if (code >=? 85) && (code <=? 86) then SnowCloud
  else if code >=? 95 then ThunderCloud
  else Thermometer.

Definition badCodes : list Z :=
  [51; 53; 55; 61; 63; 65; 71; 73; 75; 77; 80; 81; 82; 85; 86; 95; 96; 99].

(** [Array.prototype.includes] on integers. *)
Definition includes (code : Z) (l : list Z) : bool := existsb (Z.eqb code) l.

(** [isGoodOutdoorWeather(current)]. *)
Definition isGoodOutdoorWeather (c : current) : bool :=
  let temp := temperature_2m c in
  let code := weather_code c in
  if includes code badCodes then false
  else if gt temp 40 || lt temp 5 then false
  else true.

(** The object [parseWeatherResponse] returns. *)
Record weather := WeatherData {
  temperature : Z;
  humidity : Q;
  windSpeed : Z;
  condition : string;
  weatherIcon : icon;
  isGoodForOutdoor : bool
}.

(** [parseWeatherResponse(data)], on [data.current]. *)
Definition parseWeatherResponse (c : current) : weather :=
  {| temperature := Math_round (temperature_2m c);
     humidity := relative_humidity_2m c;
     windSpeed := Math_round (wind_speed_10m c);
     condition := getWeatherCondition (weather_code c);
     weatherIcon := getWeatherIcon (weather_code c);
     isGoodForOutdoor := isGoodOutdoorWeather c |}.

(** The text of a suggestion: the heading built from icon, temperature and
    condition, and the sentence appended to it. *)
Record suggestion := Suggestion {
  headingIcon : icon;
  headingTemperature : Z;
  headingCondition : string;
  advice : string
}.

Definition VERY_HOT : string :=
  "It's very hot! Stick to AC places, stay hydrated. Outdoor sightseeing best before 10 AM or after 5 PM.".

Definition WARM : string :=
  "Warm day. Carry water, prefer shaded areas. Indoor attractions good for afternoon.".

Definition COLD : string := "It's cold! Layer up. Hot chai and warm food weather.".

Definition NOT_IDEAL : string :=
  "Not ideal for outdoor activities. Good day for museums, malls, cafes.".

Definition NICE : string := "Nice weather for exploring outside!".

(** [getWeatherSuggestion(weather)]; [None] is [null]. *)
Definition getWeatherSuggestion (w : option weather) : option suggestion :=
  match w with
  | None => None
  | Some w =>
      let t := temperature w in
      Some (Suggestion (weatherIcon w) t (condition w)
              (if t >? 38 then VERY_HOT
               else if t >? 32 then WARM
               else if t <? 10 then COLD
               else if negb (isGoodForOutdoor w) then NOT_IDEAL
               else NICE))
  end.

(** The conditions that name no rain, snow or storm. *)
Definition dryConditions : list string :=
  ["Clear sky"; "Mainly clear"; "Partly cloudy"; "Overcast"; "Foggy"; "Unknown"].

End Weather.

(** ** Reverse geocoding ([src/util/geocoding.js])

    A text field of the answer is [Some] string or [None] when the field is
    absent or [null]. *)

Module Geocoding.

(** [a || b] on such fields: [a] when it is truthy, a non-empty string. *)
Definition or (a b : option string) : option string :=
  match a with
  | Some s => if decide (s = "") then b else a
  | None => b
  end.

(** Truthiness of a field. *)
Definition truthy (a : option string) : bool :=
  match a with
  | Some s => if decide (s = "") then false else true
  | None => false
  end.

Module Address.
Record t := Make {
  neighbourhood : option string;
  suburb : option string;
  quarter : option string;
  village : option string;
  town : option string;
  city_district : option string;
  district : option string;
  city : option string;
  municipality : option string;
  county : option string;
  state : option string;
  country : option string
}.

(** The object [{}]. *)
Definition none : t :=
  Make None None None None None None None None None None None None.
End Address.

(** The answer of Nominatim, as far as it is read. *)
Record response := Response {
  address : option Address.t;
  display_name : option string
}.

Record coordinates := Coordinates { lat : Q; lng : Q }.

(** The object [parseNominatimResponse] returns. *)
Record location := Location {
  areaName : option string;
  city : option string;
  state : option string;
  country : option string;
  fullAddress : option string;
  coords : option coordinates;
  raw : option Address.t
}.

(** The text of a truthy field. *)
Definition text (a : option string) : string := default "" a.

(** [parseNominatimResponse(data, lat, lng)]. *)
Definition parseNominatimResponse (data : response) (lat lng : Q) : location :=
  let address := default Address.none (address data) in
  let areaName :=
    or (Address.neighbourhood address)
      (or (Address.suburb address)
         (or (Address.quarter address)
            (or (Address.village address)
               (or (Address.town address)
                  (or (Address.city_district address)
                     (or (Address.district address) None)))))) in
  let city :=
    or (Address.city address)
      (or (Address.town address)
         (or (Address.municipality address)
            (or (Address.county address) None))) in
  let state := or (Address.state address) None in
  let country := or (Address.country address) None in
  let fullAddress :=
    if truthy areaName && truthy city then text areaName +:+ ", " +:+ text city
    else if truthy city then text city
    else if truthy areaName then text areaName
    else "" in
  let fullAddress :=
    if truthy country && truthy (Some fullAddress)
    then fullAddress +:+ ", " +:+ text country
    else fullAddress in
  {| areaName := areaName;
     city := city;
     state := state;
     country := country;
     fullAddress := or (Some fullAddress) (or (display_name data) None);
     coords := Some (Coordinates lat lng);
     raw := Some address |}.

(** The object [reverseGeocode] returns when the request fails. *)
Definition fallback (lat lng : Q) : location :=
  {| areaName := None; city := None; state := None; country := None;
     fullAddress := None; coords := Some (Coordinates lat lng); raw := None |}.

(** Decimal digits of a natural number, at least [width] of them. *)
Definition digits (width : nat) (n : Z) : string :=
  let s := NilZero.string_of_uint (N.to_uint (Z.to_N n)) in
  String.concat "" (replicate (width - String.length s) "0") +:+ s.

(** [x.toFixed(4)] for a number below 10^21: the nearest multiple of 10^-4,
    a tie going away from zero, with four decimals. *)
Definition toFixed4 (x : Q) : string :=
  let n := Qfloor (Qabs x * 10000 + (1 # 2))%Q in
  (if Weather.lt x 0 then "-" else "")
  +:+ digits 1 (n / 10000) +:+ "." +:+ digits 4 (n mod 10000).

(** [getLocationDisplay(locationData)]; [None] is [null]. *)
Definition getLocationDisplay (locationData : option location) : option string :=
  match locationData with
  | None => None
  | Some l =>
      if truthy (areaName l) && truthy (city l)
      then Some (text (areaName l) +:+ ", " +:+ text (city l))
      else if truthy (city l) then Some (text (city l))
      else if truthy (fullAddress l) then Some (text (fullAddress l))
      else match coords l with
           | Some c => Some (toFixed4 (lat c) +:+ ", " +:+ toFixed4 (lng c))
           | None => None
           end
  end.

End Geocoding.

(** ** The tests that open [handleMessage] *)

Module Intake.
Import Index.

(** A message passes when it comes from no group, is no status update and
    was not sent by the bot itself. *)
Definition accepted (msg : message) : bool :=
  negb (includes "@g.us" (from msg))
  && negb (bool_decide (from msg = "status@broadcast"))
  && negb (fromMe msg).

End Intake.

(** ** Calls of [processMessage] that sleep *)

Module Cooldown.
Import Index.



End Cooldown.

(** ** Intent and pattern detection ([src/index.js])

    The patterns of the source are all of two shapes, [/^(a|b|...)$/i] and
    [/\b(a|b|...)\b/i], whose alternatives are sequences of characters, some
    followed by [+] or [?]. A text is its sequence of code units. *)

Module Patterns.

(** The characters [\w] matches, which decide where [\b] holds. *)
Definition isWord (c : N) : bool :=
  ((48 <=? c) && (c <=? 57) || (65 <=? c) && (c <=? 90) || (c =? 95)
   || (97 <=? c) && (c <=? 122))%N.

(** Case folding of the flag [i]: a lower-case ASCII letter goes to its
    capital. The flag [u] is not set, so no code unit from 128 on folds to an
    ASCII one, and on the ASCII patterns below the other foldings of
    [toUpperCase] make no difference; they are left out. *)
Definition canonicalize (c : N) : N :=
  if ((97 <=? c) && (c <=? 122))%N then (c - 32)%N else c.

(** A pattern character matches a code unit of the text. *)
Definition same (p c : N) : bool := (canonicalize p =? canonicalize c)%N.

(** Two code units, and two texts, that differ at most in the case of ASCII
    letters. *)
Definition sameLetter (a b : N) : Prop := canonicalize a = canonicalize b.

Definition sameLetters (s t : JsString.t) : Prop := Forall2 sameLetter s t.

Inductive atom :=
| Lit (c : N)
| Opt (c : N)
| Plus (c : N).

(** The atoms of one alternative: [c+], [c?], an escaped character, or a
    character. *)
Fixpoint atoms (s : list N) : list atom :=
  match s with
  | [] => []
  | c :: s' =>
      match s' with
      | d :: s'' =>
          if (c =? 92)%N then Lit d :: atoms s''
          else if (d =? 43)%N then Plus c :: atoms s''
          else if (d =? 63)%N then Opt c :: atoms s''
          else Lit c :: atoms s'
      | [] => [Lit c]
      end
  end.

(** The texts between the bars of [a|b|...]. *)
Fixpoint split (s : list N) (current : list N) : list (list N) :=
  match s with
  | [] => [current]
  | c :: s' =>
      if (c =? 124)%N then current :: split s' []
      else split s' (current ++ [c])
  end.

Definition alternatives (source : string) : list (list atom) :=
  atoms <$> split (JsString.lit source) [].

(** A position of the text: the code unit before it, if any, and the rest. *)
Definition position : Type := option N * JsString.t.

(** [\b] at a position. *)
Definition boundary (st : position) : bool :=
  xorb (from_option isWord false st.1) (from_option isWord false (head st.2)).

(** Positions that differ at most in the case of ASCII letters. *)
Definition alike (a b : position) : Prop :=
  option_Forall2 sameLetter a.1 b.1 ∧ sameLetters a.2 b.2.

(** The code unit before the position reached by reading [pre] from a
    position that has [prev] before it. *)
Definition before (prev : option N) (pre : JsString.t) : option N :=
  match last pre with
  | Some c => Some c
  | None => prev
  end.

(** One code unit matching [c]. *)
Definition one (c : N) (st : position) : list position :=
  match st.2 with
  | d :: s' => if same c d then [(Some d, s')] else []
  | [] => []
  end.

(** [c+]: the positions after one or more code units matching [c], the
    farthest first. *)
Fixpoint many (c : N) (s : JsString.t) : list position :=
  match s with
  | d :: s' => if same c d then many c s' ++ [(Some d, s')] else []
  | [] => []
  end.

(** The positions at which a match of the atoms that starts at [st] can end,
    in the order in which backtracking tries them. *)
Fixpoint matchAtoms (a : list atom) (st : position) : list position :=
  match a with
  | [] => [st]
  | Lit c :: a' => one c st ≫= matchAtoms a'
  | Opt c :: a' => (one c st ≫= matchAtoms a') ++ matchAtoms a' st
  | Plus c :: a' => many c st.2 ≫= matchAtoms a'
  end.

Inductive pattern :=
| Anchored (source : string)
| Word (source : string).

(** Is the predicate true at some position from [prev, s] on? *)
Fixpoint anywhere (f : position → bool) (prev : option N) (s : JsString.t) : bool :=
  f (prev, s) || match s with
                 | [] => false
                 | c :: s' => anywhere f (Some c) s'
                 end.

(** A match of [\b(a|b|...)\b] that starts at [st]: where it ends. *)
Definition wordAt (alts : list (list atom)) (st : position) : option position :=
  if boundary st
  then (alts ≫= λ a, filter (λ e, boundary e = true) (matchAtoms a st)) !! 0%nat
  else None.

(** [pattern.test(text)]. *)
Definition test (p : pattern) (text : JsString.t) : bool :=
  match p with
  | Anchored source =>
      existsb (λ a, existsb (λ e, bool_decide (e.2 = [])) (matchAtoms a (None, text)))
        (alternatives source)
  | Word source =>
      anywhere (λ st, bool_decide (is_Some (wordAt (alternatives source) st)))
        None text
  end.

(** [text.match(pattern)[1]] for a pattern [/\b(a|b|...)\b/i]: the text of
    the leftmost match, [None] when there is none. *)
Fixpoint group (alts : list (list atom)) (prev : option N) (s : JsString.t)
    : option JsString.t :=
  match wordAt alts (prev, s) with
  | Some e => Some (take (length s - length e.2) s)
  | None =>
      match s with
      | [] => None
      | c :: s' => group alts (Some c) s'
      end
  end.

Definition INTENTS : list (string * pattern) :=
  [ ("greeting", Anchored "hi|hello|hey|hola|start|begin|namaste|hii+|yo|sup");
    ("help", Anchored "help|menu|options|commands|\?|what can you do");
    ("food", Word "food|eat|restaurant|dining|cuisine|hungry|breakfast|lunch|dinner|cafe|coffee|snack|dessert|drink|bar|pub");
    ("attractions", Word "visit|see|attraction|sightseeing|temple|museum|park|monument|landmark|tourist|explore|things to do|places");
    ("transport", Word "transport|taxi|uber|ola|metro|bus|train|airport|auto|rickshaw|how to get|getting around|directions|reach");
    ("shopping", Word "shop|shopping|mall|market|buy|souvenir|store");
    ("safety", Word "safe|safety|dangerous|scam|avoid|warning|crime|precaution");
    ("budget", Word "cheap|budget|free|affordable|expensive|cost|price");
    ("thanks", Anchored "thanks|thank you|thx|ty|appreciated|cool|nice|awesome|great");
    ("emergency", Word "emergency|help me|police|ambulance|hospital|stolen|lost passport|robbery|attack|accident|fire|danger");
    ("save", Anchored "save|save this|bookmark|remember this|note this");
    ("mySaves", Anchored "my saves|saved|bookmarks|my bookmarks|my places|saved places") ].

Definition QUICK_ACTIONS : list (string * pattern) :=
  [ ("more", Anchored "more|show more|any more|another|else|other|other options|and|what else");
    ("cheaper", Anchored "cheaper|budget|less expensive|affordable|low cost|inexpensive");
    ("closer", Anchored "closer|nearer|nearby|near me|walking distance");
    ("different", Anchored "different|something else|change|other type|try something else");
    ("again", Anchored "again|repeat|say again|what|huh|sorry|pardon|\?");
    ("yes", Anchored "yes|yeah|yep|sure|ok|okay|go ahead|do it|yup");
    ("no", Anchored "no|nope|nah|not now|later|cancel|stop") ].

Module PREFERENCES.
Definition vegetarian := Word "veg|vegetarian|veggie|no meat|plant based".
Definition vegan := Word "vegan".
Definition nonVeg := Word "non-?veg|meat|chicken|fish|seafood|mutton|lamb".
Definition budgetFriendly := Word "cheap|budget|affordable|low cost|backpacker".
Definition premium := Word "premium|luxury|expensive|high end|fine dining|upscale".
Definition family := Word "family|kids|children|child friendly".
Definition solo := Word "solo|alone|by myself|single".
Definition couple := Word "couple|romantic|date|anniversary|honeymoon".
Definition group := Word "friends|group|gang|party|bunch".
End PREFERENCES.

(** The loop of [detectIntent] and [detectQuickAction] over the entries of a
    table, in the order in which they are written. *)
Fixpoint firstMatch (table : list (string * pattern)) (text : JsString.t)
    : option string :=
  match table with
  | [] => None
  | (name, p) :: table' => if test p text then Some name else firstMatch table' text
  end.

(** [detectIntent(text)]; [None] is [null]. *)
Definition detectIntent (text : JsString.t) : option string := firstMatch INTENTS text.

(** [detectQuickAction(text)]. *)
Definition detectQuickAction (text : JsString.t) : option string :=
  firstMatch QUICK_ACTIONS text.

(** The object [prefs]; a property that is not set is [None]. *)
Record prefs := Prefs {
  dietaryRestriction : option string;
  budget : option string
}.

(** [detectPreferences(text)]. *)
Definition detectPreferences (text : JsString.t) : option prefs :=
  let diet :=
    if test PREFERENCES.vegetarian text then Some "vegetarian"
    else if test PREFERENCES.vegan text then Some "vegan"
    else if test PREFERENCES.nonVeg text then Some "non-vegetarian"
    else None in
  let budget :=
    if test PREFERENCES.budgetFriendly text then Some "budget-friendly"
    else if test PREFERENCES.premium text then Some "premium"
    else None in
  match diet, budget with
  | None, None => None
  | _, _ => Some (Prefs diet budget)
  end.

(** [detectTravelStyle(text)]. *)
Definition detectTravelStyle (text : JsString.t) : option string :=
  if test PREFERENCES.family text then Some "family"
  else if test PREFERENCES.solo text then Some "solo"
  else if test PREFERENCES.couple text then Some "couple"
  else if test PREFERENCES.group text then Some "group"
  else None.

Definition CITY_PATTERNS : list string :=
  [ "paris|london|tokyo|new york|rome|barcelona|amsterdam|berlin|dubai|singapore";
    "bangkok|bali|sydney|melbourne|toronto|vancouver|los angeles|san francisco";
    "istanbul|cairo|mumbai|delhi|hong kong|seoul|taipei|kuala lumpur";
    "lisbon|prague|vienna|budapest|athens|stockholm|oslo|copenhagen";
    "miami|chicago|boston|seattle|denver|austin|nashville|new orleans";
    "rio|buenos aires|lima|bogota|mexico city|havana|cartagena";
    "marrakech|cape town|johannesburg|nairobi|zanzibar|mauritius";
    "goa|jaipur|agra|varanasi|kolkata|chennai|bangalore|hyderabad|pune|ahmedabad|lucknow|chandigarh|shimla|manali|rishikesh|udaipur|jodhpur" ].

(** [detectCity(text)]: the city as the text writes it. A match is never
    empty, so [if (match)] holds on every match. *)
Fixpoint firstGroup (patterns : list string) (text : JsString.t) : option JsString.t :=
  match patterns with
  | [] => None
  | source :: patterns' =>
      match group (alternatives source) None text with
      | Some m => Some m
      | None => firstGroup patterns' text
      end
  end.

Definition detectCity (text : JsString.t) : option JsString.t :=
  firstGroup CITY_PATTERNS text.

End Patterns.

(** * Properties *)

(** ** Facts on [JsMap] *)

Lemma filter_all {A} (P : A → Prop) `{∀ x, Decision (P x)} (l : list A) :
  Forall P l → filter P l = l.
Proof.
  induction 1 as [|x l Hx _ IH]; [done|].
  rewrite filter_cons_True by done. by rewrite IH.
Qed.

Section JsMapFacts.
Context {V : Type}.
Implicit Types (m : JsMap.t V) (k key : string) (v : V).

Lemma jsmap_get_set_eq key v m : JsMap.get key (JsMap.set key v m) = Some v.
Proof.
  induction m as [|[k v'] m IH]; simpl.
  - by rewrite decide_True.
  - destruct (decide (k = key)) as [->|Hne]; simpl.
    + by rewrite decide_True.
    + by rewrite decide_False.
Qed.

Lemma jsmap_get_set_ne key k v m :
  key ≠ k → JsMap.get k (JsMap.set key v m) = JsMap.get k m.
Proof.
  intros Hne. induction m as [|[k' v'] m IH]; simpl.
  - by rewrite decide_False.
  - destruct (decide (k' = key)) as [->|Hne']; simpl.
    + by rewrite !decide_False.
    + by rewrite IH.
Qed.

Lemma jsmap_get_delete_eq key m : JsMap.get key (JsMap.delete key m) = None.
Proof.
  induction m as [|[k v] m IH]; simpl; [done|].
  destruct (decide (k = key)) as [->|Hne]; simpl; [done|].
  by rewrite decide_False.
Qed.

Lemma jsmap_get_delete_ne key k m :
  key ≠ k → JsMap.get k (JsMap.delete key m) = JsMap.get k m.
Proof.
  intros Hne. induction m as [|[k' v] m IH]; simpl; [done|].
  destruct (decide (k' = key)) as [->|Hne']; simpl.
  - by rewrite decide_False.
  - by rewrite IH.
Qed.

Lemma jsmap_get_None key m : JsMap.get key m = None ↔ key ∉ JsMap.keys m.
Proof.
  unfold JsMap.keys. induction m as [|[k v] m IH]; simpl.
  - split; [intros _; apply not_elem_of_nil|done].
  - rewrite not_elem_of_cons. destruct (decide (k = key)) as [->|Hne].
    + split; [done|intros [? _]; done].
    + rewrite IH. split; [intros ?; split; [congruence|done]|intros [_ ?]; done].
Qed.

Lemma jsmap_get_Some_elem key m e :
  JsMap.get key m = Some e → (key, e) ∈ m.
Proof.
  induction m as [|[k v] m IH]; simpl; [done|].
  destruct (decide (k = key)) as [->|Hne].
  - intros [= ->]. apply elem_of_cons; by left.
  - intros H. apply elem_of_cons; right; auto.
Qed.

Lemma jsmap_elem_get key m e :
  JsMap.wf m → (key, e) ∈ m → JsMap.get key m = Some e.
Proof.
  unfold JsMap.wf, JsMap.keys. induction m as [|[k v] m IH]; simpl.
  - intros _ H. by apply elem_of_nil in H.
  - rewrite NoDup_cons. intros [Hk Hnd] [H|H]%elem_of_cons.
    + injection H as -> ->. by rewrite decide_True.
    + destruct (decide (k = key)) as [->|Hne]; [|auto].
      exfalso. apply Hk. apply list_elem_of_fmap. by exists (key, e).
Qed.

Lemma jsmap_keys_set_present key v m :
  is_Some (JsMap.get key m) → JsMap.keys (JsMap.set key v m) = JsMap.keys m.
Proof.
  unfold JsMap.keys. induction m as [|[k v'] m IH]; simpl.
  - intros [? ?]; done.
  - destruct (decide (k = key)) as [->|Hne]; simpl; [done|].
    intros H. f_equal. by apply IH.
Qed.

Lemma jsmap_set_absent key v m :
  JsMap.get key m = None → JsMap.set key v m = m ++ [(key, v)].
Proof.
  induction m as [|[k v'] m IH]; simpl; [done|].
  destruct (decide (k = key)) as [->|Hne]; [done|].
  intros H. by rewrite IH.
Qed.

Lemma jsmap_keys_delete key m :
  JsMap.keys (JsMap.delete key m) = filter (λ k, k ≠ key) (JsMap.keys m).
Proof.
  unfold JsMap.keys. induction m as [|[k v] m IH]; simpl; [done|].
  destruct (decide (k = key)) as [->|Hne].
  - rewrite filter_cons_False; [done|]. simpl. by intros ?.
  - rewrite filter_cons_True; [|done]. simpl. f_equal. apply IH.
Qed.

Lemma jsmap_size_set key v m :
  (JsMap.size (JsMap.set key v m) ≤ S (JsMap.size m))%nat.
Proof.
  unfold JsMap.size. induction m as [|[k v'] m IH]; simpl; [lia|].
  destruct (decide (k = key)); simpl; lia.
Qed.

Lemma jsmap_size_delete key m :
  (JsMap.size (JsMap.delete key m) ≤ JsMap.size m)%nat.
Proof.
  unfold JsMap.size. induction m as [|[k v] m IH]; simpl; [lia|].
  destruct (decide (k = key)); simpl; lia.
Qed.

Lemma jsmap_wf_set key v m : JsMap.wf m → JsMap.wf (JsMap.set key v m).
Proof.
  intros Hwf. destruct (JsMap.get key m) as [e|] eqn:Hget.
  - unfold JsMap.wf. by rewrite jsmap_keys_set_present.
  - rewrite jsmap_set_absent by done. unfold JsMap.wf, JsMap.keys in *.
    rewrite fmap_app. simpl. apply NoDup_app. split_and!; [done| |apply NoDup_singleton].
    intros k Hk ->%list_elem_of_singleton. by apply jsmap_get_None in Hget.
Qed.

Lemma jsmap_wf_delete key m : JsMap.wf m → JsMap.wf (JsMap.delete key m).
Proof.
  unfold JsMap.wf. rewrite jsmap_keys_delete. apply NoDup_filter.
Qed.

Lemma jsmap_delete_absent key m :
  JsMap.get key m = None → JsMap.delete key m = m.
Proof.
  induction m as [|[k v] m IH]; simpl; [done|].
  destruct (decide (k = key)) as [->|Hne]; [done|].
  intros H. by rewrite IH.
Qed.

End JsMapFacts.

(** ** Facts on [TTLMap] *)

Section TTLMapFacts.
Context {V : Type}.
Implicit Types (s : TTLMap.t V) (key k : string) (e : TTLMap.entry V).

Lemma ttl_clearTimer_incl key s x :
  x ∈ TTLMap.clearTimer key s → x ∈ TTLMap.pending s.
Proof.
  unfold TTLMap.clearTimer, TTLMap.clearTimeout.
  destruct (JsMap.get key (TTLMap.timers s)); [|done].
  by intros [_ ?]%list_elem_of_filter.
Qed.

Lemma ttl_clearTimer_other key s h tm :
  TTLMap.tidy s → (h, tm) ∈ TTLMap.clearTimer key s → TTLMap.target tm ≠ key.
Proof.
  intros Htidy Hin Heq. pose proof (ttl_clearTimer_incl _ _ _ Hin) as Hp.
  apply Htidy in Hp. rewrite Heq in Hp.
  unfold TTLMap.clearTimer, TTLMap.clearTimeout in Hin. rewrite Hp in Hin.
  apply list_elem_of_filter in Hin as [Hne _]. by apply Hne.
Qed.

Lemma ttl_tidy_delete key s : TTLMap.tidy s → TTLMap.tidy (TTLMap.delete key s).
Proof.
  intros Htidy h tm Hin. simpl in *.
  rewrite jsmap_get_delete_ne.
  - apply Htidy. by eapply ttl_clearTimer_incl.
  - intros Heq. by eapply (ttl_clearTimer_other key s h tm).
Qed.

Lemma ttl_tidy_set now key v ttl s :
  TTLMap.tidy s → TTLMap.tidy (TTLMap.set now key v ttl s).
Proof.
  intros Htidy h tm [Hin|Hin]%elem_of_app; simpl.
  - rewrite jsmap_get_set_ne.
    + apply Htidy. by eapply ttl_clearTimer_incl.
    + intros Heq. by eapply (ttl_clearTimer_other key s h tm).
  - apply list_elem_of_singleton in Hin as [= -> ->]. simpl.
    apply jsmap_get_set_eq.
Qed.

Lemma ttl_consistent_new ttl : TTLMap.consistent (TTLMap.new ttl : TTLMap.t V).
Proof.
  split.
  - apply NoDup_nil_2.
  - intros h tm Hin. by apply elem_of_nil in Hin.
Qed.

Lemma ttl_consistent_delete key s :
  TTLMap.consistent s → TTLMap.consistent (TTLMap.delete key s).
Proof.
  intros [Hwf Htidy]. split; [by apply jsmap_wf_delete|by apply ttl_tidy_delete].
Qed.

Lemma ttl_consistent_set now key v ttl s :
  TTLMap.consistent s → TTLMap.consistent (TTLMap.set now key v ttl s).
Proof.
  intros [Hwf Htidy]. split; [by apply jsmap_wf_set|by apply ttl_tidy_set].
Qed.

Lemma ttl_consistent_get now key s :
  TTLMap.consistent s → TTLMap.consistent (TTLMap.get now key s).2.
Proof.
  intros H. unfold TTLMap.get. destruct (JsMap.get key (TTLMap.map s)); [|done].
  destruct (now >? _); [by apply ttl_consistent_delete|done].
Qed.

Lemma ttl_consistent_has now key s :
  TTLMap.consistent s → TTLMap.consistent (TTLMap.has now key s).2.
Proof.
  intros H. unfold TTLMap.has. destruct (JsMap.get key (TTLMap.map s)); [|done].
  destruct (now >? _); [by apply ttl_consistent_delete|done].
Qed.

(** A property kept by [delete] is kept by the sweep. *)
Lemma ttl_cleanup_ind (P : TTLMap.t V → Prop) now s :
  (∀ k s', P s' → P (TTLMap.delete k s')) → P s → P (TTLMap.cleanup now s).
Proof.
  intros Hdel. unfold TTLMap.cleanup. generalize (TTLMap.map s) as l.
  intros l. revert s. induction l as [|[k e] l IH]; intros s Hs; simpl; [done|].
  apply IH. destruct (now >? _); auto.
Qed.

Lemma ttl_consistent_cleanup now s :
  TTLMap.consistent s → TTLMap.consistent (TTLMap.cleanup now s).
Proof. apply ttl_cleanup_ind. intros k s'. apply ttl_consistent_delete. Qed.

Lemma ttl_fire_inv now h s s' :
  TTLMap.fire now h s = Some s' →
  ∃ tm, (h, tm) ∈ TTLMap.pending s ∧ TTLMap.due tm ≤ now
    ∧ s' = TTLMap.delete (TTLMap.target tm)
             (TTLMap.Store (TTLMap.map s) (TTLMap.timers s) (TTLMap.defaultTTL s)
                (TTLMap.clearTimeout h (TTLMap.pending s)) (TTLMap.nextHandle s)).
Proof.
  unfold TTLMap.fire.
  destruct (list_find _ _) as [[i [h' tm]]|] eqn:Hfind; [|done].
  apply list_find_Some in Hfind as (Hi & Hh & _). simpl in Hh. subst h'.
  destruct (Z.leb_spec (TTLMap.due tm) now); [|done].
  intros [= <-]. exists tm. split_and!; [|done|done].
  by eapply list_elem_of_lookup_2.
Qed.

Lemma ttl_consistent_disarm h s :
  TTLMap.consistent s →
  TTLMap.consistent
    (TTLMap.Store (TTLMap.map s) (TTLMap.timers s) (TTLMap.defaultTTL s)
       (TTLMap.clearTimeout h (TTLMap.pending s)) (TTLMap.nextHandle s)).
Proof.
  intros [Hwf Htidy]. split; [done|].
  intros h' tm [_ Hin]%list_elem_of_filter. by apply Htidy.
Qed.

Lemma ttl_consistent_step b s :
  TTLMap.consistent s → TTLMap.consistent (TTLMap.step b s).
Proof.
  intros H. destruct b as [now h|now]; simpl.
  - destruct (TTLMap.fire now h s) as [s'|] eqn:Hf; [|done]. simpl.
    apply ttl_fire_inv in Hf as (tm & _ & _ & ->).
    by apply ttl_consistent_delete, ttl_consistent_disarm.
  - by apply ttl_consistent_cleanup.
Qed.


(** Background activity removes entries and never rewrites one. *)
Lemma ttl_get_delete key k s :
  JsMap.get key (TTLMap.map (TTLMap.delete k s)) = None
  ∨ JsMap.get key (TTLMap.map (TTLMap.delete k s)) = JsMap.get key (TTLMap.map s).
Proof.
  simpl. destruct (decide (k = key)) as [->|Hne].
  - left. apply jsmap_get_delete_eq.
  - right. by apply jsmap_get_delete_ne.
Qed.



(** [has] answers [true] exactly on an entry whose deadline has not passed,
    and then changes nothing. *)
Lemma ttl_has_true now key s :
  (TTLMap.has now key s).1 = true ↔
  ∃ e, JsMap.get key (TTLMap.map s) = Some e ∧ now ≤ TTLMap.expiresAt e.
Proof.
  unfold TTLMap.has. destruct (JsMap.get key (TTLMap.map s)) as [e|].
  - destruct (Z.gtb_spec now (TTLMap.expiresAt e)); simpl.
    + split; [done|]. intros (e' & [= <-] & ?). lia.
    + split; [|done]. intros _. by exists e.
  - simpl. split; [done|]. by intros (e & ? & _).
Qed.

Lemma ttl_has_true_unchanged now key s :
  (TTLMap.has now key s).1 = true → (TTLMap.has now key s).2 = s.
Proof.
  unfold TTLMap.has. destruct (JsMap.get key (TTLMap.map s)) as [e|]; [|done].
  by destruct (now >? TTLMap.expiresAt e).
Qed.

(** *** Entries stay until their deadline *)

Lemma timers_delay_inRange (ms : Z) : Timers.inRange ms → Timers.delay ms = ms.
Proof.
  unfold Timers.inRange, Timers.delay. intros [Hlo Hhi].
  destruct (Z.leb_spec 1 ms); [|lia]. by destruct (Z.leb_spec ms Timers.TIMEOUT_MAX); [|lia].
Qed.


Lemma timers_delay_positive (ms : Z) : 1 ≤ Timers.delay ms ≤ Timers.TIMEOUT_MAX.
Proof.
  unfold Timers.delay, Timers.TIMEOUT_MAX.
  destruct (Z.leb_spec 1 ms); simpl; [|lia].
  destruct (Z.leb_spec ms 2147483647); lia.
Qed.






End TTLMapFacts.

(** ** The expiring store: reads and overwrites *)

Section TTLMapClaims.
Context {V : Type}.
Implicit Types (s : TTLMap.t V) (key : string).

(** C6 — Lazy expiry on every read. [get(key)] returns not-found exactly when
    the key is absent or the clock has passed the entry's [expiresAt], and
    [has(key)] answers [false] in exactly the same cases; in the stale case
    both reads evict the entry, and otherwise they leave the store as it was.
    A value that [get] returns, or a [true] from [has], always comes from an
    entry whose deadline has not passed. *)
Theorem ttlmap_lazy_expiry_on_read (now : Z) key s :
  let absent := JsMap.get key (TTLMap.map s) = None in
  let stale := ∃ e, JsMap.get key (TTLMap.map s) = Some e ∧ now > TTLMap.expiresAt e in
  ((TTLMap.get now key s).1 = None ↔ absent ∨ stale)
  ∧ ((TTLMap.has now key s).1 = false ↔ absent ∨ stale)
  ∧ (stale →
       (TTLMap.get now key s).2 = TTLMap.delete key s
       ∧ (TTLMap.has now key s).2 = TTLMap.delete key s
       ∧ JsMap.get key (TTLMap.map (TTLMap.delete key s)) = None)
  ∧ (¬ stale → (TTLMap.get now key s).2 = s ∧ (TTLMap.has now key s).2 = s)
  ∧ (∀ v, (TTLMap.get now key s).1 = Some v →
       ∃ e, JsMap.get key (TTLMap.map s) = Some e ∧ TTLMap.value e = v
            ∧ now ≤ TTLMap.expiresAt e)
  ∧ ((TTLMap.has now key s).1 = true →
       ∃ e, JsMap.get key (TTLMap.map s) = Some e ∧ now ≤ TTLMap.expiresAt e).
Proof.
  intros absent stale. subst absent stale. unfold TTLMap.get, TTLMap.has.
  destruct (JsMap.get key (TTLMap.map s)) as [e|] eqn:Hget.
  - destruct (Z.gtb_spec now (TTLMap.expiresAt e)) as [Hst|Hok]; simpl.
    + assert (∃ e', Some e = Some e' ∧ now > TTLMap.expiresAt e') as Hstale.
      { exists e. split; [done|lia]. }
      split_and!.
      * split; [by right|done].
      * split; [by right|done].
      * intros _. split_and!; [done|done|apply jsmap_get_delete_eq].
      * intros Hn. by destruct Hn.
      * intros v Hv. discriminate Hv.
      * intros Hv. discriminate Hv.
    + assert (¬ ∃ e', Some e = Some e' ∧ now > TTLMap.expiresAt e') as Hfresh.
      { intros (e' & [= <-] & ?). lia. }
      split_and!.
      * split; [done|]. intros [?|?]; [done|by destruct Hfresh].
      * split; [done|]. intros [?|?]; [done|by destruct Hfresh].
      * intros ?. by destruct Hfresh.
      * done.
      * intros v [= <-]. by exists e.
      * intros _. by exists e.
  - simpl. split_and!.
    + split; [by left|done].
    + split; [by left|done].
    + by intros (e & ? & _).
    + done.
    + intros v Hv. discriminate Hv.
    + intros Hv. discriminate Hv.
Qed.


End TTLMapClaims.



(** ** Facts on [MessageDeduplicator] *)

Section DedupeFacts.
Import MessageDeduplicator.
Implicit Types (d : MessageDeduplicator.t) (s : TTLMap.t bool).

Lemma ttl_size_delete {V} key (s : TTLMap.t V) :
  (TTLMap.size (TTLMap.delete key s) ≤ TTLMap.size s)%nat.
Proof. apply jsmap_size_delete. Qed.

Lemma ttl_size_has {V} now key (s : TTLMap.t V) :
  (TTLMap.size (TTLMap.has now key s).2 ≤ TTLMap.size s)%nat.
Proof.
  unfold TTLMap.has. destruct (JsMap.get _ _); [|done].
  destruct (now >? _); [apply ttl_size_delete|done].
Qed.

Lemma ttl_size_step {V} b (s : TTLMap.t V) :
  (TTLMap.size (TTLMap.step b s) ≤ TTLMap.size s)%nat.
Proof.
  destruct b as [now h|now]; simpl.
  - destruct (TTLMap.fire now h s) as [s'|] eqn:Hf; [|done]. simpl.
    apply ttl_fire_inv in Hf as (tm & _ & _ & ->). apply jsmap_size_delete.
  - apply (ttl_cleanup_ind (λ s' : TTLMap.t V, (TTLMap.size s' ≤ TTLMap.size s)%nat));
      [|done].
    intros k s' H. etrans; [apply ttl_size_delete|done].
Qed.

Lemma ttl_size_set {V} now key (v : V) ttl (s : TTLMap.t V) :
  (TTLMap.size (TTLMap.set now key v ttl s) ≤ S (TTLMap.size s))%nat.
Proof. apply jsmap_size_set. Qed.

Lemma dedupe_evictLoop_size ks toDelete deleted s :
  (TTLMap.size (evictLoop ks toDelete deleted s) ≤ TTLMap.size s)%nat.
Proof.
  revert deleted s. induction ks as [|k ks IH]; intros deleted s; simpl; [done|].
  destruct (deleted >=? toDelete); [done|].
  etrans; [apply IH|apply ttl_size_delete].
Qed.

(** With a batch of at least one, an eviction on a non-empty store frees a slot. *)
Lemma dedupe_evictOldest_frees d :
  10 ≤ maxEntries d → (0 < size d)%nat → (size (evictOldest d) < size d)%nat.
Proof.
  intros Hmax Hsize. unfold evictOldest, size, TTLMap.size, JsMap.size, JsMap.keys in *.
  simpl. destruct (TTLMap.map (seen d)) as [|[k e] m] eqn:Hmap; simpl in *; [lia|].
  assert (1 ≤ maxEntries d / 10) by (apply Z.div_le_lower_bound; lia).
  destruct (Z.geb_spec 0 (maxEntries d / 10)); [lia|].
  eapply Nat.le_lt_trans; [apply dedupe_evictLoop_size|].
  unfold TTLMap.size, JsMap.size. simpl. rewrite Hmap. simpl.
  rewrite decide_True by done.
  pose proof (jsmap_size_delete k m). unfold JsMap.size in *. lia.
Qed.

Lemma dedupe_evictLoop_order ks toDelete deleted s :
  JsMap.keys (TTLMap.map s) = ks → NoDup ks →
  JsMap.keys (TTLMap.map (evictLoop ks toDelete deleted s))
  = drop (Z.to_nat (toDelete - deleted)) ks.
Proof.
  revert deleted s. induction ks as [|k ks IH]; intros deleted s Hks Hnd; simpl.
  - by rewrite drop_nil.
  - destruct (Z.geb_spec deleted toDelete) as [Hge|Hlt].
    + replace (Z.to_nat (toDelete - deleted)) with O by lia. done.
    + replace (Z.to_nat (toDelete - deleted))
        with (S (Z.to_nat (toDelete - (deleted + 1)))) by lia.
      simpl. apply IH; [|by apply NoDup_cons in Hnd as [_ ?]].
      simpl. rewrite jsmap_keys_delete, Hks.
      apply NoDup_cons in Hnd as [Hk _].
      rewrite filter_cons_False by (simpl; by intros ?).
      apply filter_all. apply Forall_forall. intros x Hx ->. done.
Qed.

(** [evictOldest] deletes the first [floor(maxEntries / 10)] keys of the
    iteration order and nothing else. *)
Lemma dedupe_evictOldest_order d :
  JsMap.wf (TTLMap.map (seen d)) →
  order (evictOldest d) = drop (Z.to_nat (maxEntries d / 10)) (order d).
Proof.
  intros Hwf. unfold order, evictOldest. simpl.
  rewrite dedupe_evictLoop_order; [|done|done]. by rewrite Z.sub_0_r.
Qed.

Lemma dedupe_set_order now key ttl s :
  JsMap.keys (TTLMap.map (TTLMap.set now key true ttl s))
  = if decide (key ∈ JsMap.keys (TTLMap.map s))
    then JsMap.keys (TTLMap.map s)
    else JsMap.keys (TTLMap.map s) ++ [key].
Proof.
  simpl. destruct (decide (key ∈ _)) as [Hin|Hnin].
  - apply jsmap_keys_set_present.
    destruct (JsMap.get key (TTLMap.map s)) eqn:Hget; [done|].
    by apply jsmap_get_None in Hget.
  - apply jsmap_get_None in Hnin. rewrite jsmap_set_absent by done.
    unfold JsMap.keys. by rewrite fmap_app.
Qed.

(** The iteration order after [markSeen]. *)
Lemma dedupe_markSeen_order now messageId d :
  messageId ≠ "" → JsMap.wf (TTLMap.map (seen d)) →
  order (markSeen now messageId d)
  = let kept := if Z.of_nat (size d) >=? maxEntries d
                then drop (Z.to_nat (maxEntries d / 10)) (order d)
                else order d in
    if decide (messageId ∈ kept) then kept else kept ++ [messageId].
Proof.
  intros Hid Hwf. unfold markSeen. rewrite decide_False by done. cbv zeta.
  destruct (Z.of_nat (size d) >=? maxEntries d).
  - rewrite <- dedupe_evictOldest_order by done.
    unfold order at 1. apply dedupe_set_order.
  - unfold order at 1. apply dedupe_set_order.
Qed.

Lemma dedupe_consistent_evictLoop ks toDelete deleted s :
  TTLMap.consistent s → TTLMap.consistent (evictLoop ks toDelete deleted s).
Proof.
  revert deleted s. induction ks as [|k ks IH]; intros deleted s H; simpl; [done|].
  destruct (deleted >=? toDelete); [done|]. by apply IH, ttl_consistent_delete.
Qed.

Lemma dedupe_consistent_markSeen now messageId d :
  TTLMap.consistent (seen d) → TTLMap.consistent (seen (markSeen now messageId d)).
Proof.
  intros H. unfold markSeen. destruct (decide (messageId = "")); [done|]. simpl.
  apply ttl_consistent_set. destruct (_ >=? _); [|done].
  by apply dedupe_consistent_evictLoop.
Qed.

Lemma dedupe_consistent_perform c d :
  TTLMap.consistent (seen d) → TTLMap.consistent (seen (perform c d)).
Proof.
  intros H. destruct c as [now id|now id|now id|b]; simpl.
  - by apply dedupe_consistent_markSeen.
  - unfold isDuplicate. destruct (decide (id = "")); [done|].
    pose proof (ttl_consistent_has now id _ H).
    by destruct (TTLMap.has now id (seen d)).
  - unfold checkAndMark, isDuplicate. destruct (decide (id = "")); simpl.
    + by apply dedupe_consistent_markSeen.
    + pose proof (ttl_consistent_has now id _ H).
      destruct (TTLMap.has now id (seen d)) as [[] s]; simpl in *; [done|].
      by apply dedupe_consistent_markSeen.
  - by apply ttl_consistent_step.
Qed.

Lemma dedupe_maxEntries_perform c d : maxEntries (perform c d) = maxEntries d.
Proof.
  assert (∀ now id d', maxEntries (markSeen now id d') = maxEntries d') as Hmark.
  { intros now id d'. unfold markSeen. destruct (decide (id = "")); [done|].
    simpl. by destruct (_ >=? _). }
  assert (∀ now id d', maxEntries (isDuplicate now id d').2 = maxEntries d') as Hdup.
  { intros now id d'. unfold isDuplicate. destruct (decide (id = "")); [done|].
    by destruct (TTLMap.has now id (seen d')). }
  destruct c as [now id|now id|now id|b]; simpl; [done|done| |done].
  unfold checkAndMark. specialize (Hdup now id d).
  destruct (isDuplicate now id d) as [[] d1]; simpl in *; [done|].
  by rewrite Hmark.
Qed.

(** [markSeen] keeps a store within its capacity when a batch is non-empty. *)
Lemma dedupe_markSeen_bounded now messageId d :
  10 ≤ maxEntries d →
  Z.of_nat (size d) ≤ maxEntries d →
  Z.of_nat (size (markSeen now messageId d)) ≤ maxEntries d.
Proof.
  intros Hmax Hsize. unfold markSeen. destruct (decide (messageId = "")); [done|].
  destruct (Z.geb_spec (Z.of_nat (size d)) (maxEntries d)) as [Hfull|Hroom].
  - pose proof (dedupe_evictOldest_frees d Hmax ltac:(lia)) as Hfree.
    pose proof (ttl_size_set now messageId true (ttl (evictOldest d))
                  (seen (evictOldest d))) as Hset.
    change (size (with_seen _ ?s)) with (TTLMap.size s).
    change (size (evictOldest d)) with (TTLMap.size (seen (evictOldest d))) in Hfree.
    revert Hset Hfree. generalize (TTLMap.size (seen (evictOldest d))) as b.
    generalize (TTLMap.size (TTLMap.set now messageId true (ttl (evictOldest d))
                               (seen (evictOldest d)))) as a.
    intros a b Hset Hfree. lia.
  - pose proof (ttl_size_set now messageId true (ttl d) (seen d)) as Hset.
    change (size (with_seen _ ?s)) with (TTLMap.size s).
    change (size d) with (TTLMap.size (seen d)) in Hsize, Hroom.
    revert Hset. generalize (TTLMap.size (TTLMap.set now messageId true (ttl d) (seen d))) as a.
    intros a Hset. lia.
Qed.

Lemma dedupe_isDuplicate_size now messageId d :
  (size (isDuplicate now messageId d).2 ≤ size d)%nat.
Proof.
  unfold isDuplicate. destruct (decide (messageId = "")); [done|].
  pose proof (ttl_size_has now messageId (seen d)).
  by destruct (TTLMap.has now messageId (seen d)).
Qed.

Lemma dedupe_perform_bounded c d :
  10 ≤ maxEntries d →
  Z.of_nat (size d) ≤ maxEntries d →
  Z.of_nat (size (perform c d)) ≤ maxEntries d.
Proof.
  intros Hmax Hsize. destruct c as [now id|now id|now id|b]; simpl.
  - by apply dedupe_markSeen_bounded.
  - pose proof (dedupe_isDuplicate_size now id d). lia.
  - unfold checkAndMark. pose proof (dedupe_isDuplicate_size now id d) as Hle.
    pose proof (dedupe_maxEntries_perform (IsDuplicate now id) d) as Hm. simpl in Hm.
    destruct (isDuplicate now id d) as [[] d1]; simpl in *; [lia|].
    rewrite <- Hm. apply dedupe_markSeen_bounded; lia.
  - pose proof (ttl_size_step b (seen d)). unfold size in *. simpl. lia.
Qed.

End DedupeFacts.

(** ** The deduplicator: results, capacity and eviction order *)

Section DedupeClaims.
Import MessageDeduplicator.
Implicit Types (d : MessageDeduplicator.t).

(** C3 — [checkAndMark] ties its result to the state. For a non-empty id it
    returns [true] exactly when an unexpired marker of the id is present, and
    then the deduplicator is left as it was; it returns [false] only with the
    id inserted, its marker expiring at [now + ttl], so that (the TTL not being
    negative) a second call at the same instant answers [true]. *)
Theorem dedupe_checkAndMark_result_and_state (now : Z) (messageId : string) d :
  messageId ≠ "" →
  let fresh := ∃ e, JsMap.get messageId (TTLMap.map (seen d)) = Some e
                    ∧ now ≤ TTLMap.expiresAt e in
  let r := checkAndMark now messageId d in
  (r.1 = true ↔ fresh)
  ∧ (r.1 = true → r.2 = d)
  ∧ (r.1 = false →
       JsMap.get messageId (TTLMap.map (seen r.2))
       = Some (TTLMap.Entry true (now + ttl d))
       ∧ (0 ≤ ttl d → (checkAndMark now messageId r.2).1 = true)).
Proof.
  intros Hid fresh r. subst fresh r.
  pose proof (ttl_has_true now messageId (seen d)) as Htrue.
  pose proof (ttl_has_true_unchanged now messageId (seen d)) as Hsame.
  unfold checkAndMark, isDuplicate. rewrite decide_False by done.
  destruct (TTLMap.has now messageId (seen d)) as [[] s] eqn:Hh; simpl in *.
  - split_and!; [done| |done].
    intros _. rewrite Hsame by done. by destruct d.
  - split_and!.
    + by rewrite <- Htrue.
    + done.
    + intros _.
      assert (ttl (if Z.of_nat (size (with_seen d s)) >=? maxEntries (with_seen d s)
                   then evictOldest (with_seen d s) else with_seen d s) = ttl d) as Httl.
      { by destruct (_ >=? _). }
      unfold markSeen. rewrite decide_False by done. cbv zeta. rewrite Httl. simpl.
      split; [apply jsmap_get_set_eq|].
      intros Hpos. unfold TTLMap.has. simpl. rewrite jsmap_get_set_eq. simpl.
      rewrite decide_False by done.
      by destruct (Z.gtb_spec now (now + ttl d)); [lia|].
Qed.

(** C4 — Capacity 100, ids 1 to 101 marked in order, whatever the instants of
    the calls and the TTL: the store holds ids 1..100 after 100 calls; the
    101st call finds it full, evicts the ten oldest (ids 1..10, leaving 90
    entries) and inserts 101, so that exactly ids 11..101 remain, in that
    order. *)
Theorem dedupe_capacity_101 (clock : nat → Z) (ttl : Z) :
  let d100 := markInOrder clock (seq 1 100) (new ttl 100) in
  let d101 := markSeen (clock 101%nat) (idOf 101) d100 in
  order d100 = idOf <$> seq 1 100
  ∧ order (evictOldest d100) = idOf <$> seq 11 90
  ∧ order d101 = idOf <$> seq 11 91
  ∧ size d100 = 100%nat
  ∧ size d101 = 91%nat
  ∧ forallb (λ n, negb (JsMap.has (idOf n) (TTLMap.map (seen d101)))) (seq 1 10) = true
  ∧ forallb (λ n, JsMap.has (idOf n) (TTLMap.map (seen d101))) (seq 11 91) = true.
Proof. intros d100 d101. split_and!; vm_compute; reflexivity. Qed.

(** C5, as stated, fails: with [maxEntries = 1] the batch
    [floor(maxEntries * 0.1)] is empty, nothing is evicted, and two calls of
    [markSeen] leave two entries. *)
Lemma dedupe_capacity_counterexample :
  ¬ ∀ (maxEntries ttl : Z) (marks : list (Z * string)),
      1 ≤ maxEntries →
      Forall (λ c, c.2 ≠ "") marks →
      Z.of_nat (size (performAll ((λ c, MarkSeen c.1 c.2) <$> marks)
                        (new ttl maxEntries))) ≤ maxEntries.
Proof.
  intros H. specialize (H 1 1000 [(0, "a"); (1, "b")]).
  assert (Forall (λ c : Z * string, c.2 ≠ "") [(0, "a"); (1, "b")]) as Hne.
  { repeat constructor; simpl; discriminate. }
  specialize (H ltac:(lia) Hne). vm_compute in H. by apply H.
Qed.

(** C5, amended — For every [maxEntries ≥ 10], after any sequence of calls
    ([markSeen], and also [isDuplicate], [checkAndMark], timers and sweeps) on
    a new deduplicator, [size ≤ maxEntries]; a [markSeen] of a non-empty id
    that finds the store full first deletes the oldest [floor(maxEntries/10)]
    keys of the insertion order, then inserts the id. *)
Theorem dedupe_capacity_invariant (maxEntries ttl : Z) (calls : list call) :
  10 ≤ maxEntries →
  let d := performAll calls (new ttl maxEntries) in
  Z.of_nat (size d) ≤ maxEntries
  ∧ ∀ now messageId,
      messageId ≠ "" → maxEntries ≤ Z.of_nat (size d) →
      let kept := drop (Z.to_nat (maxEntries / 10)) (order d) in
      order (markSeen now messageId d)
      = if decide (messageId ∈ kept) then kept else kept ++ [messageId].
Proof.
  intros Hmax d.
  assert (MessageDeduplicator.maxEntries d = maxEntries
          ∧ Z.of_nat (size d) ≤ maxEntries
          ∧ TTLMap.consistent (seen d)) as (Hm & Hsize & Hc).
  { subst d. unfold performAll.
    assert (MessageDeduplicator.maxEntries (new ttl maxEntries) = maxEntries
            ∧ Z.of_nat (size (new ttl maxEntries)) ≤ maxEntries
            ∧ TTLMap.consistent (seen (new ttl maxEntries))) as Hinit.
    { split_and!; [done| |apply ttl_consistent_new].
      change (Z.of_nat (size (new ttl maxEntries))) with 0. lia. }
    revert Hinit. generalize (new ttl maxEntries) as d0.
    induction calls as [|c cs IH]; intros d0 (Hm0 & Hs0 & Hc0); simpl; [done|].
    apply IH. split_and!.
    - by rewrite dedupe_maxEntries_perform.
    - rewrite <- Hm0. apply dedupe_perform_bounded; lia.
    - by apply dedupe_consistent_perform. }
  split; [done|]. intros now messageId Hid Hfull kept.
  rewrite dedupe_markSeen_order by (done || apply Hc). cbv zeta.
  by destruct (Z.geb_spec (Z.of_nat (size d)) (MessageDeduplicator.maxEntries d));
    [rewrite Hm|lia].
Qed.

Lemma dedupe_capacity_invariant_witness :
  10 ≤ 10
  ∧ let d := performAll (MarkSeen 0 ∘ idOf <$> seq 1 10) (new 1000 10) in
    Z.of_nat (size d) ≤ 10
    ∧ order (markSeen 1 "11" d) = idOf <$> seq 2 10.
Proof.
  split; [lia|]. intros d.
  destruct (dedupe_capacity_invariant 10 1000 (MarkSeen 0 ∘ idOf <$> seq 1 10)
              ltac:(lia)) as [Hsize Hfull].
  split; [exact Hsize|].
  etrans; [apply (Hfull 1 "11"); [discriminate|vm_compute; discriminate]|].
  vm_compute. reflexivity.
Defined.

End DedupeClaims.

Lemma dedupe_checkAndMark_result_and_state_witness :
  "a" ≠ ""
  ∧ let d := MessageDeduplicator.new 1000 100 in
    let r := MessageDeduplicator.checkAndMark 0 "a" d in
    r.1 = false
    ∧ JsMap.get "a" (TTLMap.map (MessageDeduplicator.seen r.2))
      = Some (TTLMap.Entry true 1000)
    ∧ (MessageDeduplicator.checkAndMark 0 "a" r.2).1 = true.
Proof.
  split; [discriminate|]. intros d r.
  destruct (dedupe_checkAndMark_result_and_state 0 "a" d ltac:(discriminate))
    as (_ & _ & Hfalse).
  split; [reflexivity|].
  destruct (Hfalse eq_refl) as [Hget Hdup].
  split; [exact Hget|]. apply Hdup. simpl. lia.
Defined.

(** ** Re-insertion and eviction position *)

Section Reinsertion.
Import MessageDeduplicator.
Implicit Types (d : MessageDeduplicator.t).

(** C10, as stated, fails: capacity 10, ids 1 to 10 seen; marking id 1 again
    finds the store full, so the batch of one evicts id 1 itself and the [set]
    that follows inserts it as the newest entry. Id 1 has moved from the first
    to the last position, and the next eviction deletes id 2 although id 1 was
    inserted before it. *)
Lemma dedupe_remark_counterexample :
  let d := markInOrder (λ _, 0) (seq 1 10) (new 1000 10) in
  let d' := markSeen 5 "1" d in
  order d = ["1"; "2"; "3"; "4"; "5"; "6"; "7"; "8"; "9"; "10"]
  ∧ order d' = ["2"; "3"; "4"; "5"; "6"; "7"; "8"; "9"; "10"; "1"]
  ∧ order d' ≠ order d
  ∧ order (evictOldest d') = ["3"; "4"; "5"; "6"; "7"; "8"; "9"; "10"; "1"].
Proof. intros d d'. split_and!; vm_compute; (reflexivity || discriminate). Qed.

(** C10, amended — [set] on a key that is present keeps the iteration order
    of the store, in any [TTLMap]; so does [markSeen] of an id already seen
    while the deduplicator is below capacity. [evictOldest] deletes exactly the
    first [floor(maxEntries / 10)] keys of that order. At capacity, [markSeen]
    of an id already seen evicts first: the surviving keys keep their order,
    and the id stays in place if it survives the eviction, otherwise it is
    inserted again as the newest key. *)
Theorem reinsertion_keeps_eviction_position (now : Z) (messageId : string) d :
  TTLMap.consistent (seen d) →
  messageId ≠ "" →
  messageId ∈ order d →
  let kept := drop (Z.to_nat (maxEntries d / 10)) (order d) in
  (∀ V (s : TTLMap.t V) key (v : V) ttl,
     is_Some (JsMap.get key (TTLMap.map s)) →
     JsMap.keys (TTLMap.map (TTLMap.set now key v ttl s)) = JsMap.keys (TTLMap.map s))
  ∧ (Z.of_nat (size d) < maxEntries d → order (markSeen now messageId d) = order d)
  ∧ order (evictOldest d) = kept
  ∧ (maxEntries d ≤ Z.of_nat (size d) →
     order (markSeen now messageId d)
     = if decide (messageId ∈ kept) then kept else kept ++ [messageId]).
Proof.
  intros [Hwf _] Hid Hin kept. split_and!.
  - intros V s key v ttl' Hsome. by apply jsmap_keys_set_present.
  - intros Hroom. rewrite dedupe_markSeen_order by done. cbv zeta.
    destruct (Z.geb_spec (Z.of_nat (size d)) (maxEntries d)); [lia|].
    by rewrite decide_True.
  - by apply dedupe_evictOldest_order.
  - intros Hfull. rewrite dedupe_markSeen_order by done. cbv zeta.
    by destruct (Z.geb_spec (Z.of_nat (size d)) (maxEntries d)); [|lia].
Qed.

End Reinsertion.

Lemma reinsertion_keeps_eviction_position_witness :
  let d := MessageDeduplicator.markInOrder (λ _, 0) (seq 1 10)
             (MessageDeduplicator.new 1000 20) in
  "3" ≠ "" ∧ "3" ∈ MessageDeduplicator.order d
  ∧ MessageDeduplicator.order (MessageDeduplicator.markSeen 5 "3" d)
    = MessageDeduplicator.order d
  ∧ MessageDeduplicator.order (MessageDeduplicator.evictOldest d)
    = MessageDeduplicator.idOf <$> seq 3 8.
Proof.
  intros d.
  assert (TTLMap.consistent (MessageDeduplicator.seen d)) as Hc.
  { apply (dedupe_consistent_perform
             (MessageDeduplicator.MarkSeen 0 "10")), (dedupe_consistent_perform
             (MessageDeduplicator.MarkSeen 0 "9")), (dedupe_consistent_perform
             (MessageDeduplicator.MarkSeen 0 "8")), (dedupe_consistent_perform
             (MessageDeduplicator.MarkSeen 0 "7")), (dedupe_consistent_perform
             (MessageDeduplicator.MarkSeen 0 "6")), (dedupe_consistent_perform
             (MessageDeduplicator.MarkSeen 0 "5")), (dedupe_consistent_perform
             (MessageDeduplicator.MarkSeen 0 "4")), (dedupe_consistent_perform
             (MessageDeduplicator.MarkSeen 0 "3")), (dedupe_consistent_perform
             (MessageDeduplicator.MarkSeen 0 "2")), (dedupe_consistent_perform
             (MessageDeduplicator.MarkSeen 0 "1")), ttl_consistent_new. }
  assert ("3" ≠ "") as Hid by discriminate.
  assert ("3" ∈ MessageDeduplicator.order d) as Hin.
  { apply list_elem_of_In. vm_compute. right; right; left; reflexivity. }
  destruct (reinsertion_keeps_eviction_position 5 "3" d Hc Hid Hin)
    as (_ & Hroom & Hevict & _).
  split_and!; [done|done| |].
  - apply Hroom. vm_compute. reflexivity.
  - rewrite Hevict. vm_compute. reflexivity.
Defined.

(** ** Facts on the message pipeline *)

Section PipelineFacts.
Import Index Cooldown.
Variable USER_COOLDOWN_MS : Z.
Implicit Types (w : Index.world) (c : TTLMap.t Z).

Lemma ttl_defaultTTL_get {V} now key (s : TTLMap.t V) :
  TTLMap.defaultTTL (TTLMap.get now key s).2 = TTLMap.defaultTTL s.
Proof.
  unfold TTLMap.get. destruct (JsMap.get _ _); [|done]. by destruct (now >? _).
Qed.

Lemma ttl_defaultTTL_step {V} b (s : TTLMap.t V) :
  TTLMap.defaultTTL (TTLMap.step b s) = TTLMap.defaultTTL s.
Proof.
  destruct b as [now h|now]; simpl.
  - destruct (TTLMap.fire now h s) as [s'|] eqn:Hf; [|done]. simpl.
    by apply ttl_fire_inv in Hf as (tm & _ & _ & ->).
  - apply (ttl_cleanup_ind
             (λ s' : TTLMap.t V, TTLMap.defaultTTL s' = TTLMap.defaultTTL s));
      [|done].
    by intros k s' <-.
Qed.











(** *** Calls and their promises *)














(** *** A sleeping call stays as it is until its timer is due *)









(** *** A sleeping call stays as it is until its timer is due *)











End PipelineFacts.



(** ** The per-user chain of promises *)

Section SerializerFacts.
Import Index.
Variable USER_COOLDOWN_MS : Z.
Implicit Types (w : Index.world) (msg m : Index.message) (r : Index.reaction).

(** *** The checkpoint runs the microtask queue to its end *)

Lemma sum_list_with_insert {A} (f : A → nat) (l : list A) i x y :
  l !! i = Some y →
  (sum_list_with f (<[i:=x]> l) + f y = sum_list_with f l + f x)%nat.
Proof.
  revert i. induction l as [|a l IH]; intros [|i] Hi; simpl in *; try done.
  - injection Hi as ->. lia.
  - specialize (IH i Hi). lia.
Qed.

Lemma serializer_subscribe_backlog p r w :
  (backlog (subscribe p r w) ≤ backlog w + weight r)%nat.
Proof.
  unfold subscribe, backlog.
  destruct (promises w !! p) as [[[o|] rs]|] eqn:Hp; simpl; [| |lia].
  - rewrite sum_list_with_app. simpl. lia.
  - pose proof (sum_list_with_insert pendingWeight _ _
                  (Promise None (rs ++ [r])) _ Hp) as H.
    assert (pendingWeight (Promise None (rs ++ [r]))
            = pendingWeight (Promise None rs) + weight r)%nat as Hw.
    { unfold pendingWeight. cbn [reactions]. rewrite sum_list_with_app. simpl. lia. }
    lia.
Qed.

Lemma serializer_settle_backlog p o w : backlog (settle p o w) = backlog w.
Proof.
  unfold settle, backlog.
  destruct (promises w !! p) as [[[o'|] rs]|] eqn:Hp; simpl; [done| |done].
  pose proof (sum_list_with_insert pendingWeight _ _ (Promise (Some o) []) _ Hp) as H.
  assert (pendingWeight (Promise (Some o) []) = 0%nat) as Hw0 by done.
  assert (pendingWeight (Promise None rs) = sum_list_with weight rs) as Hw by done.
  rewrite sum_list_with_app.
  match goal with
  | |- context [sum_list_with ?f (?g <$> rs)] =>
      assert (sum_list_with f (g <$> rs) = sum_list_with weight rs) as ->
  end.
  { clear. induction rs as [|r rs IH]; simpl; [done|]. f_equal. apply IH. }
  lia.
Qed.

Lemma serializer_processMessage_backlog now msg w :
  backlog (processMessage USER_COOLDOWN_MS now msg w).2 = backlog w.
Proof.
  unfold processMessage. destruct (applyCooldown _ _ _ _) as [wait c].
  unfold backlog. simpl. rewrite sum_list_with_app. simpl.
  change (pendingWeight _) with 0%nat. lia.
Qed.

Lemma serializer_runJob_backlog now j js w :
  jobs w = j :: js →
  (backlog (runJob USER_COOLDOWN_MS now j (with_jobs w js)) < backlog w)%nat.
Proof.
  intros Hj.
  assert (backlog w = backlog (with_jobs w js) + weight j.1)%nat as ->.
  { unfold backlog. rewrite Hj. simpl. lia. }
  destruct j as [[userId|msg derived|derived] o]; simpl.
  - unfold backlog. simpl. lia.
  - destruct o.
    + pose proof (serializer_processMessage_backlog now msg (with_jobs w js)) as H.
      destruct (processMessage _ _ _ _) as [p w1]. simpl in H.
      pose proof (serializer_subscribe_backlog p (Adopt derived) w1). simpl in *. lia.
    + rewrite serializer_settle_backlog. lia.
  - rewrite serializer_settle_backlog. lia.
Qed.

Lemma serializer_drain_complete fuel now w :
  (backlog w ≤ fuel)%nat → jobs (drain USER_COOLDOWN_MS fuel now w) = [].
Proof.
  revert w. induction fuel as [|fuel IH]; intros w Hfuel; simpl.
  - destruct (jobs w) as [|j js] eqn:Hj; [done|].
    unfold backlog in Hfuel. rewrite Hj in Hfuel. simpl in Hfuel.
    destruct j as [[] ?]; simpl in Hfuel; lia.
  - destruct (jobs w) as [|j js] eqn:Hj; [done|].
    apply IH. pose proof (serializer_runJob_backlog now j js w Hj). lia.
Qed.

(** No microtask is left behind by a checkpoint. *)
Lemma serializer_checkpoint_complete now w :
  jobs (checkpoint USER_COOLDOWN_MS now w) = [].
Proof. by apply serializer_drain_complete. Qed.

End SerializerFacts.

(** *** A message that is neither running nor chained is never processed *)

Section Dropped.
Import Index.
Variable USER_COOLDOWN_MS : Z.
Variable m0 : Index.message.
Implicit Types (w : Index.world) (msg : Index.message) (r : Index.reaction).

Lemma elem_of_list_insert_inv {A} (l : list A) i x y :
  y ∈ <[i:=x]> l → y = x ∨ y ∈ l.
Proof.
  intros [j Hj]%list_elem_of_lookup.
  apply list_lookup_insert_Some in Hj as [(_ & -> & _)|[_ Hj]]; [by left|].
  right. by eapply list_elem_of_lookup_2.
Qed.

Lemma dropped_subscribe p r w :
  (∀ derived, r ≠ ThenProcess m0 derived) →
  dropped m0 w → dropped m0 (subscribe p r w).
Proof.
  intros Hr [Hs Hq]. unfold subscribe.
  destruct (promises w !! p) as [[[o|] rs]|] eqn:Hp; [| |done].
  - split; [done|]. intros [(d & o' & Hin)|(q & d & Hin & Hd)]; simpl in *.
    + apply elem_of_app in Hin as [Hin|Hin]; [apply Hq; left; eauto|].
      apply list_elem_of_singleton in Hin as [= <- _]. by eapply Hr.
    + apply Hq. right. eauto.
  - split; [done|]. intros [(d & o' & Hin)|(q & d & Hin & Hd)]; simpl in *.
    + apply Hq. left. eauto.
    + apply elem_of_list_insert_inv in Hin as [->|Hin]; [|apply Hq; right; eauto].
      simpl in Hd. apply elem_of_app in Hd as [Hd|Hd].
      * apply Hq. right. exists (Promise None rs), d. split; [|done].
        by eapply list_elem_of_lookup_2.
      * apply list_elem_of_singleton in Hd. by eapply Hr.
Qed.

Lemma dropped_settle p o w : dropped m0 w → dropped m0 (settle p o w).
Proof.
  intros [Hs Hq]. unfold settle.
  destruct (promises w !! p) as [[[o'|] rs]|] eqn:Hp; [done| |done].
  split; [done|]. intros [(d & o' & Hin)|(q & d & Hin & Hd)]; simpl in *.
  - apply elem_of_app in Hin as [Hin|Hin]; [apply Hq; left; eauto|].
    apply list_elem_of_fmap in Hin as (r & [= <- _] & Hr).
    apply Hq. right. exists (Promise None rs), d. split; [|done].
    by eapply list_elem_of_lookup_2.
  - apply elem_of_list_insert_inv in Hin as [->|Hin]; [|apply Hq; right; eauto].
    simpl in Hd. by apply elem_of_nil in Hd.
Qed.

Lemma dropped_processMessage now msg w :
  msg ≠ m0 → dropped m0 w →
  dropped m0 (processMessage USER_COOLDOWN_MS now msg w).2.
Proof.
  intros Hne [Hs Hq]. unfold processMessage.
  destruct (applyCooldown _ _ _ _) as [wait c]. split.
  - intros [wt Hin]. simpl in Hin. apply elem_of_app in Hin as [Hin|Hin].
    + apply Hs. by exists wt.
    + apply list_elem_of_singleton in Hin as [= -> _]. done.
  - intros [(d & o' & Hin)|(q & d & Hin & Hd)]; simpl in *.
    + apply Hq. left. eauto.
    + apply elem_of_app in Hin as [Hin|Hin]; [apply Hq; right; eauto|].
      apply list_elem_of_singleton in Hin as ->. simpl in Hd.
      by apply elem_of_nil in Hd.
Qed.

Lemma dropped_handleMessage now msg w :
  msg ≠ m0 → dropped m0 w →
  dropped m0 (handleMessage USER_COOLDOWN_MS now msg w).
Proof.
  intros Hne Hd. unfold handleMessage.
  destruct (includes _ _); [done|]. destruct (decide _); [done|].
  destruct (fromMe msg); [done|].
  destruct (MessageDeduplicator.checkAndMark _ _ _) as [[] d]; [done|].
  assert (dropped m0 (with_deduplicator w d)) as Hd1 by done.
  destruct (JsMap.get _ _) as [cur|].
  - unfold newPromise.
    match goal with |- dropped _ (with_inflightRequests ?w3 _) =>
      assert (dropped m0 w3) as Hd3; [|done] end.
    apply dropped_subscribe; [intros d' [= ?]; done|].
    destruct Hd1 as [Hs Hq]. split; [done|].
    intros [(d' & o' & Hin)|(q & d' & Hin & Hr)]; simpl in *.
    + apply Hq. left. eauto.
    + apply elem_of_app in Hin as [Hin|Hin]; [apply Hq; right; eauto|].
      apply list_elem_of_singleton in Hin as ->. by apply elem_of_nil in Hr.
  - pose proof (dropped_processMessage now msg _ Hne Hd1) as Hd2.
    destruct (processMessage _ _ _ _) as [p w2]. simpl in Hd2.
    by apply dropped_subscribe.
Qed.

Lemma dropped_runJob now j js w :
  jobs w = j :: js → dropped m0 w →
  dropped m0 (runJob USER_COOLDOWN_MS now j (with_jobs w js)).
Proof.
  intros Hj [Hs Hq].
  assert (dropped m0 (with_jobs w js)) as Hd.
  { split; [done|]. intros [(d & o & Hin)|Hp]; simpl in *.
    - apply Hq. left. exists d, o. rewrite Hj. apply elem_of_cons. by right.
    - apply Hq. by right. }
  destruct j as [[userId|msg derived|derived] o]; simpl.
  - done.
  - destruct o; [|by apply dropped_settle].
    assert (msg ≠ m0) as Hne.
    { intros ->. apply Hq. left. exists derived, Fulfilled. rewrite Hj.
      apply elem_of_cons. by left. }
    pose proof (dropped_processMessage now msg _ Hne Hd) as Hd2.
    destruct (processMessage _ _ _ _) as [p w1]. simpl in Hd2.
    by apply dropped_subscribe.
  - by apply dropped_settle.
Qed.

Lemma dropped_drain fuel now w :
  dropped m0 w → dropped m0 (drain USER_COOLDOWN_MS fuel now w).
Proof.
  revert w. induction fuel as [|fuel IH]; intros w Hd; simpl; [done|].
  destruct (jobs w) as [|j js] eqn:Hj; [done|].
  by apply IH, dropped_runJob.
Qed.

Lemma dropped_return now p o w :
  dropped m0 w → dropped m0 (processMessage_return now p o w).
Proof.
  intros [Hs Hq]. unfold processMessage_return.
  destruct (asleep now p w); [done|].
  destruct (list_find _ _) as [[i [p' msg]]|]; [|done].
  apply dropped_settle. split; [|done].
  intros [wt Hin]. simpl in Hin. apply elem_of_app in Hin as [Hin|Hin].
  - apply Hs. by exists wt.
  - by apply list_elem_of_singleton in Hin.
Qed.

Lemma dropped_exec e w :
  ¬ delivers m0 e → dropped m0 w → dropped m0 (exec USER_COOLDOWN_MS e w).
Proof.
  intros He Hd. destruct e as [now msg|now p o|b|b]; simpl.
  - apply dropped_drain, dropped_handleMessage; [|done].
    intros ->. apply He. by exists now.
  - by apply dropped_drain, dropped_return.
  - done.
  - done.
Qed.

(** Unless it is delivered again, a dropped message stays dropped. *)
Lemma dropped_run es w :
  Forall (λ e, ¬ delivers m0 e) es → dropped m0 w →
  dropped m0 (run USER_COOLDOWN_MS es w).
Proof.
  unfold run. intros Hes. revert w.
  induction Hes as [|e es He _ IH]; intros w Hd; simpl; [done|].
  by apply IH, dropped_exec.
Qed.

End Dropped.

(** ** The serializer on three messages of one user *)

Section SerializerClaims.
Import Index.

(** C1 — Ordering, on the code. With the default cooldown of 2000 ms: when B
    arrives while A runs, B is chained and the log reads A-start, A-end,
    B-start, B-end, as claimed. But the [finally] of A's [handleMessage] deletes
    the user's entry of [inflightRequests] although it now holds B's chain; a
    third message C that arrives while B runs finds no entry and is processed
    at once: B and C run with overlapping lifetimes, which the claim excludes. *)
Theorem serializer_third_message_overlaps :
  let two := run 2000 [Incoming 0 msgA; Incoming 10 msgB;
                       Return 5000 0 Replied; Return 7100 2 Replied] (init 2000) in
  let three := run 2000 [Incoming 0 msgA; Incoming 10 msgB;
                         Return 5000 0 Replied; Incoming 5010 msgC] (init 2000) in
  log two = [Started msgA None; Returned msgA Replied;
             Started msgB (Some 2000); Returned msgB Replied]
  ∧ exclusive [] (log two) = true
  ∧ log three = [Started msgA None; Returned msgA Replied;
                 Started msgB (Some 2000); Started msgC (Some 1990)]
  ∧ (running three).*2 = [msgB; msgC]
  ∧ ¬ serialized three
  ∧ exclusive [] (log three) = false.
Proof.
  intros two three. split_and!; try (vm_compute; reflexivity).
  intros Hnd. unfold serialized in Hnd.
  assert ((from ∘ snd) <$> running three = [alice; alice]) as Heq
    by (vm_compute; reflexivity).
  rewrite Heq in Hnd. apply NoDup_cons in Hnd as [Hnin _].
  apply Hnin. apply elem_of_cons. by left.
Qed.

(** C2 — Failure isolation, on the code. B is chained while A runs, by [then]
    with no rejection handler; A throws. The rejection passes down the chain:
    B's promise is rejected, B's handler is never called, no microtask and no
    reaction is left that would call it, and whatever happens afterwards (short
    of WhatsApp delivering B again) B is never processed. The user is not
    blocked for good: the entry of [inflightRequests] is gone, and a later
    message C is processed on arrival. *)
Theorem serializer_failure_drops_chained :
  let failed := run 2000 [Incoming 0 msgA; Incoming 10 msgB;
                          Return 5000 0 Threw] (init 2000) in
  log failed = [Started msgA None; Returned msgA Threw]
  ∧ running failed = []
  ∧ jobs failed = []
  ∧ promises failed = [Promise (Some Rejected) []; Promise (Some Rejected) []]
  ∧ inflightRequests failed = JsMap.empty
  ∧ (∀ es, Forall (λ e, ¬ delivers msgB e) es →
           ¬ started msgB (run 2000 es failed))
  ∧ log (run 2000 [Incoming 6000 msgC] failed)
    = [Started msgA None; Returned msgA Threw; Started msgC None].
Proof.
  intros failed.
  split_and!;
    [vm_compute; reflexivity..| |vm_compute; reflexivity].
  intros es Hes.
  assert (dropped msgB failed) as Hd.
  { split.
    - intros [wt Hin].
      assert (log failed = [Started msgA None; Returned msgA Threw]) as Hlog
        by (vm_compute; reflexivity).
      rewrite Hlog in Hin.
      repeat (apply elem_of_cons in Hin as [Hin|Hin]; [discriminate Hin|]).
      by apply elem_of_nil in Hin.
    - assert (jobs failed = []) as Hjobs by (vm_compute; reflexivity).
      assert (promises failed = [Promise (Some Rejected) []; Promise (Some Rejected) []])
        as Hps by (vm_compute; reflexivity).
      intros [(d & o & Hin)|(p & d & Hin & Hr)].
      + rewrite Hjobs in Hin. by apply elem_of_nil in Hin.
      + rewrite Hps in Hin.
        repeat (apply elem_of_cons in Hin as [->|Hin]; [by apply elem_of_nil in Hr|]).
        by apply elem_of_nil in Hin. }
  apply (dropped_run 2000 msgB es failed Hes Hd).
Qed.

End SerializerClaims.

(** ** The bounded work queue *)

Section WorkQueueFacts.
Import WorkQueue.
Implicit Types (q : WorkQueue.t) (task : nat).

Lemma filter_remove_NoDup (l : list nat) x :
  NoDup l → x ∈ l → l ≡ₚ x :: filter (λ y, y ≠ x) l.
Proof.
  induction 1 as [|a l Ha Hnd IH]; intros Hin; [by apply elem_of_nil in Hin|].
  destruct (decide (a = x)) as [->|Hne].
  - rewrite filter_cons_False by (by intros ?).
    rewrite filter_all; [done|]. apply Forall_forall. by intros y Hy ->.
  - rewrite filter_cons_True by done.
    apply elem_of_cons in Hin as [->|Hin]; [done|].
    rewrite (IH Hin) at 1. apply Permutation_swap.
Qed.

Lemma workqueue_new_invariant limit : invariant (new limit).
Proof. split; simpl; [done|done|done|lia|done]. Qed.

Lemma workqueue_NoDup_running q : invariant q → NoDup (running q).
Proof.
  intros [Hsub Hfifo Hstart _ _].
  assert (NoDup (startLog q)) as Hnd.
  { assert (NoDup (startLog q ++ fifo q)) as Hall
      by (rewrite Hfifo, Hsub; apply NoDup_seq).
    by apply NoDup_app in Hall as (? & _ & _). }
  rewrite Hstart in Hnd. by apply NoDup_app in Hnd as (_ & _ & ?).
Qed.

Lemma workqueue_submit_invariant q : invariant q → invariant (submit q).
Proof.
  intros [Hsub Hfifo Hstart Hbound Hfull]. unfold submit.
  destruct (Nat.ltb_spec (length (running q)) (concurrencyLimit q)) as [Hroom|Hbusy].
  - assert (fifo q = []) as Hempty.
    { destruct (fifo q); [done|]. specialize (Hfull ltac:(done)). lia. }
    split; simpl.
    + rewrite length_app. simpl. rewrite Nat.add_1_r, seq_S. simpl. by rewrite <- Hsub.
    + rewrite Hempty in *. rewrite !app_nil_r in *. by rewrite Hfifo.
    + rewrite Hstart. by rewrite (assoc_L (++)).
    + rewrite length_app. simpl. lia.
    + by rewrite Hempty.
  - split; simpl.
    + rewrite length_app. simpl. rewrite Nat.add_1_r, seq_S. simpl. by rewrite <- Hsub.
    + by rewrite (assoc_L (++)), Hfifo.
    + done.
    + done.
    + done.
Qed.

Lemma workqueue_settle_invariant task q : invariant q → invariant (settle task q).
Proof.
  intros Hinv. pose proof (workqueue_NoDup_running q Hinv) as Hnd.
  destruct Hinv as [Hsub Hfifo Hstart Hbound Hfull]. unfold settle.
  destruct (decide (task ∈ running q)) as [Hin|]; [|by split].
  pose proof (filter_remove_NoDup _ _ Hnd Hin) as Hperm.
  assert (length (running q) = S (length (filter (λ r, r ≠ task) (running q))))
    as Hlen by (by rewrite Hperm at 1).
  destruct (fifo q) as [|next waiting] eqn:Hq.
  - split; simpl.
    + done.
    + done.
    + rewrite <- (assoc_L (++)). simpl.
      etrans; [exact Hstart|]. by apply Permutation_app_head.
    + lia.
    + done.
  - specialize (Hfull ltac:(done)). split; simpl.
    + done.
    + by rewrite <- (assoc_L (++)).
    + trans ((settled q ++ task :: filter (λ r, r ≠ task) (running q)) ++ [next]).
      * apply Permutation_app; [|done].
        etrans; [exact Hstart|]. by apply Permutation_app_head.
      * rewrite <- !(assoc_L (++)). simpl. done.
    + rewrite length_app. simpl. lia.
    + intros _. rewrite length_app. simpl. lia.
Qed.

Lemma workqueue_run_invariant es q : invariant q → invariant (run es q).
Proof.
  unfold run. revert q. induction es as [|e es IH]; intros q Hinv; simpl; [done|].
  apply IH. destruct e; simpl;
    [by apply workqueue_submit_invariant|by apply workqueue_settle_invariant].
Qed.

(** Tasks start in the order of their submission. *)
Lemma workqueue_start_order q :
  invariant q → startLog q = seq 0 (length (startLog q)).
Proof.
  intros [Hsub Hfifo _ _ _].
  assert (startLog q = take (length (startLog q)) (submitted q)) as Htake.
  { rewrite <- Hfifo. by rewrite take_app_length. }
  rewrite Htake at 1. rewrite Hsub, take_seq. f_equal.
  rewrite <- Hfifo, length_app. lia.
Qed.

(** While a task is unsettled and there is at least one slot, a task runs. *)
Lemma workqueue_progress q :
  invariant q → (1 ≤ concurrencyLimit q)%nat →
  (length (settled q) < length (submitted q))%nat → running q ≠ [].
Proof.
  intros [Hsub Hfifo Hstart Hbound Hfull] Hlimit Hless Hidle.
  rewrite Hidle in *. simpl in *.
  assert (fifo q = []) as Hempty.
  { destruct (fifo q); [done|]. specialize (Hfull ltac:(done)). lia. }
  rewrite Hempty, !app_nil_r in *.
  assert (length (startLog q) = length (settled q)) as Hlen by (by rewrite Hstart).
  rewrite Hfifo in Hlen. lia.
Qed.

Lemma workqueue_settle_counts task q :
  task ∈ running q →
  submitted (settle task q) = submitted q
  ∧ concurrencyLimit (settle task q) = concurrencyLimit q
  ∧ length (settled (settle task q)) = S (length (settled q)).
Proof.
  intros Hin. unfold settle. rewrite decide_True by done.
  destruct (fifo q); simpl; rewrite length_app; simpl; split_and!; (done || lia).
Qed.

Lemma workqueue_schedule_counts sched q :
  feasible sched q →
  submitted (run (Settle <$> sched) q) = submitted q
  ∧ length (settled (run (Settle <$> sched) q))
    = (length (settled q) + length sched)%nat.
Proof.
  unfold run. revert q. induction sched as [|task sched IH]; intros q Hf.
  - simpl. split; [done|lia].
  - destruct Hf as [Hin Hf].
    destruct (workqueue_settle_counts task q Hin) as (Hs & _ & Hl).
    destruct (IH _ Hf) as [Hs' Hl'].
    change (fold_left (λ acc e, exec e acc) (Settle <$> task :: sched) q)
      with (fold_left (λ acc e, exec e acc) (Settle <$> sched) (settle task q)).
    rewrite Hs', Hl', Hs, Hl. simpl. split; [done|lia].
Qed.

Lemma workqueue_run_app es1 es2 q : run (es1 ++ es2) q = run es2 (run es1 q).
Proof. unfold run. apply fold_left_app. Qed.

Lemma workqueue_feasible_app sched1 sched2 q :
  feasible (sched1 ++ sched2) q
  ↔ feasible sched1 q ∧ feasible sched2 (run (Settle <$> sched1) q).
Proof.
  revert q. induction sched1 as [|task sched1 IH]; intros q; [simpl; tauto|].
  change (feasible ((task :: sched1) ++ sched2) q)
    with (task ∈ running q ∧ feasible (sched1 ++ sched2) (settle task q)).
  change (feasible (task :: sched1) q)
    with (task ∈ running q ∧ feasible sched1 (settle task q)).
  change (run (Settle <$> task :: sched1) q)
    with (run (Settle <$> sched1) (settle task q)).
  rewrite IH. tauto.
Qed.

Lemma workqueue_schedule_settled sched q :
  feasible sched q → settled (run (Settle <$> sched) q) = settled q ++ sched.
Proof.
  unfold run. revert q. induction sched as [|task sched IH]; intros q Hf.
  - simpl. by rewrite app_nil_r.
  - destruct Hf as [Hin Hf].
    change (fold_left (λ acc e, exec e acc) (Settle <$> task :: sched) q)
      with (fold_left (λ acc e, exec e acc) (Settle <$> sched) (settle task q)).
    rewrite (IH _ Hf). unfold settle.
    rewrite decide_True by done. destruct (fifo q); simpl; by rewrite <- (assoc_L (++)).
Qed.

Lemma workqueue_limit_run es q : concurrencyLimit (run es q) = concurrencyLimit q.
Proof.
  unfold run. revert q. induction es as [|e es IH]; intros q; simpl; [done|].
  rewrite IH. destruct e; simpl.
  - unfold submit. by destruct (_ <? _)%nat.
  - unfold settle. destruct (decide _); [|done]. by destruct (fifo q).
Qed.

Lemma workqueue_settled_le q :
  invariant q → (length (settled q) ≤ length (submitted q))%nat.
Proof.
  intros [_ Hfifo Hstart _ _]. rewrite <- Hfifo, Hstart, !length_app. lia.
Qed.

(** From every state with a limit of at least one, the tasks can be settled
    one after the other until none is left. *)
Lemma workqueue_completion (n : nat) q :
  invariant q → (1 ≤ concurrencyLimit q)%nat →
  (length (submitted q) - length (settled q) = n)%nat →
  ∃ sched, feasible sched q ∧ length sched = n.
Proof.
  revert q. induction n as [|n IH]; intros q Hinv Hlimit Hn.
  - by exists [].
  - assert (running q ≠ []) as Hrun by (apply workqueue_progress; [done|done|lia]).
    destruct (running q) as [|task rest] eqn:Hq; [done|].
    assert (task ∈ running q) as Hin by (rewrite Hq; apply elem_of_cons; by left).
    destruct (workqueue_settle_counts task q Hin) as (Hs & Hl & Hc).
    destruct (IH (settle task q)) as (sched & Hf & Hlen).
    + by apply workqueue_settle_invariant.
    + by rewrite Hl.
    + rewrite Hs, Hc. lia.
    + exists (task :: sched). simpl. by rewrite Hlen.
Qed.

(** C9 — The bounded work queue, in every state [q] that submissions and
    settlements can reach from a new queue.
    - The number of running tasks is at most the limit.
    - Tasks are named in order of submission; those started are the first
      submitted, in that order, and those waiting are the next ones, in that
      order.
    - A task waits only while every slot is taken: a slot that frees is given
      at once to the head of the FIFO.
    - Tasks complete in any order: whichever running task settles next, and
      next again, the settlements are recorded in that order, the bound keeps
      holding, and, the limit being at least one, the queue is never stuck:
      while a task is unsettled some task runs and can settle. After as many
      settlements as there were unsettled tasks, every submitted task is
      settled and the queue is idle; and such a run of settlements exists. *)
Theorem workqueue_bounded_fifo_complete (limit : nat) (es : list event) :
  let q := run es (new limit) in
  let unsettled := (length (submitted q) - length (settled q))%nat in
  (length (running q) ≤ limit)%nat
  ∧ submitted q = seq 0 (length (submitted q))
  ∧ startLog q = seq 0 (length (startLog q))
  ∧ fifo q = seq (length (startLog q)) (length (fifo q))
  ∧ (fifo q ≠ [] → length (running q) = limit)
  ∧ startLog q ≡ₚ settled q ++ running q
  ∧ (∀ sched, feasible sched q →
       let q' := run (Settle <$> sched) q in
       settled q' = settled q ++ sched
       ∧ (length (running q') ≤ limit)%nat
       ∧ (length sched ≤ unsettled)%nat
       ∧ ((1 ≤ limit)%nat → (length sched < unsettled)%nat →
          ∃ task, task ∈ running q' ∧ feasible (sched ++ [task]) q)
       ∧ (length sched = unsettled →
          running q' = [] ∧ fifo q' = [] ∧ settled q' ≡ₚ submitted q))
  ∧ ((1 ≤ limit)%nat → ∃ sched, feasible sched q ∧ length sched = unsettled).
Proof.
  intros q unsettled.
  assert (invariant q) as Hinv
    by apply workqueue_run_invariant, workqueue_new_invariant.
  assert (concurrencyLimit q = limit) as Hq by (subst q; by rewrite workqueue_limit_run).
  split_and!.
  - rewrite <- Hq. apply Hinv.
  - apply Hinv.
  - by apply workqueue_start_order.
  - destruct Hinv as [Hsub Hfifo _ _ _].
    assert (fifo q = drop (length (startLog q)) (submitted q)) as Hdrop
      by (by rewrite <- Hfifo, drop_app_length).
    rewrite Hdrop at 1. rewrite Hsub, drop_seq. f_equal.
    rewrite <- Hfifo, length_app. lia.
  - intros Hwait. destruct Hinv as [_ _ _ Hbound Hfull].
    specialize (Hfull Hwait). lia.
  - apply Hinv.
  - intros sched Hf q'.
    assert (invariant q') as Hinv' by by apply workqueue_run_invariant.
    assert (concurrencyLimit q' = limit) as Hq'
      by (subst q'; by rewrite workqueue_limit_run).
    destruct (workqueue_schedule_counts sched q Hf) as [Hsub' Hset'].
    fold q' in Hsub', Hset'.
    pose proof (workqueue_settled_le q Hinv) as Hle.
    pose proof (workqueue_settled_le q' Hinv') as Hle'.
    split_and!.
    + by apply workqueue_schedule_settled.
    + rewrite <- Hq'. apply Hinv'.
    + subst unsettled. rewrite Hsub' in Hle'. lia.
    + intros Hlimit Hless.
      assert (running q' ≠ []) as Hrun.
      { apply workqueue_progress; [done|lia|]. subst unsettled. rewrite Hsub'. lia. }
      destruct (running q') as [|task rest] eqn:Hr; [done|].
      exists task. split; [apply elem_of_cons; by left|].
      apply workqueue_feasible_app. split; [done|]. fold q'. simpl.
      split; [|done]. rewrite Hr. apply elem_of_cons. by left.
    + intros Hlen. subst unsettled.
      assert (length (running q') = 0 ∧ length (fifo q') = 0)%nat as [Hr Hw].
      { destruct Hinv' as [_ Hfifo Hstart _ _].
        assert (length (startLog q') + length (fifo q') = length (submitted q'))%nat
          as H1 by (by rewrite <- Hfifo, length_app).
        assert (length (startLog q') = length (settled q') + length (running q'))%nat
          as H2 by (by rewrite Hstart, length_app).
        rewrite Hsub' in H1. lia. }
      apply length_zero_iff_nil in Hr, Hw. split_and!; [done|done|].
      destruct Hinv' as [_ Hfifo Hstart _ _].
      rewrite Hr, app_nil_r in Hstart. rewrite Hw, app_nil_r in Hfifo.
      rewrite <- Hsub', <- Hfifo. by symmetry.
  - intros Hlimit. apply workqueue_completion; [done|lia|done].
Qed.

End WorkQueueFacts.

(** Limit 3 and ten tasks: three start at once, seven wait; settling them out
    of order never has more than three running and ends with all ten settled. *)
Lemma workqueue_bounded_fifo_complete_witness :
  let q := WorkQueue.run (replicate 10 WorkQueue.Submit) (WorkQueue.new 3) in
  let sched := [1; 0; 2; 5; 4; 3; 8; 7; 6; 9]%nat in
  let q' := WorkQueue.run (WorkQueue.Settle <$> sched) q in
  WorkQueue.stats q = (7, 3, 3)%nat
  ∧ WorkQueue.startLog q = [0; 1; 2]%nat
  ∧ WorkQueue.fifo q = [3; 4; 5; 6; 7; 8; 9]%nat
  ∧ WorkQueue.settled q' = sched
  ∧ WorkQueue.settled q' ≡ₚ WorkQueue.submitted q
  ∧ WorkQueue.running q' = []
  ∧ (∀ k, (length (WorkQueue.running
                     (WorkQueue.run (WorkQueue.Settle <$> take k sched) q)) ≤ 3)%nat).
Proof.
  intros q sched q'.
  assert (WorkQueue.feasible sched q) as Hf.
  { vm_compute. repeat split; apply list_elem_of_In; vm_compute; tauto. }
  destruct (workqueue_bounded_fifo_complete 3 (replicate 10 WorkQueue.Submit))
    as (_ & _ & Hstart & Hfifo & _ & _ & Hsched & _).
  fold q in Hstart, Hfifo, Hsched.
  destruct (Hsched sched Hf) as (Hsettled & _ & _ & _ & Hall).
  destruct (Hall ltac:(vm_compute; reflexivity)) as (Hidle & _ & Hperm).
  split_and!.
  - vm_compute. reflexivity.
  - rewrite Hstart. vm_compute. reflexivity.
  - rewrite Hfifo. vm_compute. reflexivity.
  - exact Hsettled.
  - exact Hperm.
  - exact Hidle.
  - intros k.
    assert (WorkQueue.feasible (take k sched) q) as Hfk.
    { rewrite <- (take_drop k sched) in Hf.
      by apply workqueue_feasible_app in Hf as [Hfk _]. }
    by destruct (Hsched (take k sched) Hfk) as (_ & Hbound & _).
Defined.

(** ** The expiring store under arbitrary call sequences *)

Section TTLMapSynced.
Import TTLMapCalls.
Context {V : Type}.
Implicit Types (s : TTLMap.t V) (key k : string) (e : TTLMap.entry V).

Lemma pending_handle_unique s h tm1 tm2 :
  NoDup (TTLMap.pending s).*1 →
  (h, tm1) ∈ TTLMap.pending s → (h, tm2) ∈ TTLMap.pending s → tm1 = tm2.
Proof.
  generalize (TTLMap.pending s) as l. intros l.
  induction l as [|[h' tm'] l IH]; intros Hnd H1 H2; [by apply elem_of_nil in H1|].
  simpl in Hnd. apply NoDup_cons in Hnd as [Hnin Hnd].
  assert (∀ tm, (h', tm) ∈ l → False) as Hfresh.
  { intros tm Hin. apply Hnin. apply list_elem_of_fmap. by exists (h', tm). }
  apply elem_of_cons in H1 as [H1|H1]; apply elem_of_cons in H2 as [H2|H2].
  - congruence.
  - injection H1 as -> _. by destruct (Hfresh tm2).
  - injection H2 as -> _. by destruct (Hfresh tm1).
  - by apply IH.
Qed.

Lemma synced_consistent s : synced s → TTLMap.consistent s.
Proof.
  intros Hs. split; [apply Hs|]. intros h tm Hin. by apply (synced_timer s Hs).
Qed.

Lemma synced_new ttl : synced (TTLMap.new ttl : TTLMap.t V).
Proof.
  split; simpl; try (intros; by match goal with H : _ ∈ [] |- _ =>
                                   apply elem_of_nil in H end); try done.
  - apply NoDup_nil_2.
  - apply NoDup_nil_2.
Qed.

Lemma clearTimer_sublist key s :
  TTLMap.clearTimer key s `sublist_of` TTLMap.pending s.
Proof.
  unfold TTLMap.clearTimer, TTLMap.clearTimeout.
  destruct (JsMap.get key (TTLMap.timers s)); [apply sublist_filter|done].
Qed.

(** A timer of another key survives [clearTimer]. *)
Lemma clearTimer_keeps key s h tm :
  synced s → (h, tm) ∈ TTLMap.pending s → TTLMap.target tm ≠ key →
  (h, tm) ∈ TTLMap.clearTimer key s.
Proof.
  intros Hs Hin Hne. unfold TTLMap.clearTimer, TTLMap.clearTimeout.
  destruct (JsMap.get key (TTLMap.timers s)) as [hk|] eqn:Hk; [|done].
  apply list_elem_of_filter. split; [|done]. simpl. intros ->.
  destruct (synced_registry s Hs key hk Hk) as [e He].
  destruct (synced_entry s Hs key e He) as (h' & Hh' & Hp).
  rewrite Hk in Hh'. injection Hh' as <-.
  pose proof (pending_handle_unique s hk _ _ (synced_handles s Hs) Hin Hp) as ->.
  by apply Hne.
Qed.

Lemma synced_delete key s : synced s → synced (TTLMap.delete key s).
Proof.
  intros Hs. pose proof (synced_consistent s Hs) as [_ Htidy]. split; simpl.
  - apply jsmap_wf_delete, Hs.
  - eapply sublist_NoDup; [apply Hs|]. apply fmap_sublist, clearTimer_sublist.
  - intros h tm Hin. apply (synced_fresh s Hs h tm). by eapply ttl_clearTimer_incl.
  - intros k e Hget. destruct (decide (key = k)) as [->|Hne].
    { by rewrite jsmap_get_delete_eq in Hget. }
    rewrite jsmap_get_delete_ne in Hget by done.
    destruct (synced_entry s Hs k e Hget) as (h & Hh & Hp).
    exists h. split; [by rewrite jsmap_get_delete_ne|].
    apply clearTimer_keeps; [done|done|]. simpl. congruence.
  - intros h tm Hin.
    pose proof (ttl_clearTimer_other key s h tm Htidy Hin) as Hne.
    apply ttl_clearTimer_incl in Hin.
    destruct (synced_timer s Hs h tm Hin) as (Hh & e & He & Hdue).
    rewrite !jsmap_get_delete_ne by congruence. eauto.
  - intros k h Hget. destruct (decide (key = k)) as [->|Hne].
    { by rewrite jsmap_get_delete_eq in Hget. }
    rewrite jsmap_get_delete_ne in Hget by done.
    rewrite jsmap_get_delete_ne by done.
    by eapply synced_registry.
Qed.

Lemma synced_set now key v ttl s :
  Timers.inRange ttl → synced s → synced (TTLMap.set now key v ttl s).
Proof.
  intros Httl Hs. pose proof (synced_consistent s Hs) as [_ Htidy].
  unfold TTLMap.set. rewrite (timers_delay_inRange ttl Httl). split; simpl.
  - apply jsmap_wf_set, Hs.
  - rewrite fmap_app. apply NoDup_app. split_and!.
    + eapply sublist_NoDup; [apply Hs|]. apply fmap_sublist, clearTimer_sublist.
    + intros h [[h' tm] [Heq Hin]]%list_elem_of_fmap Hnew%list_elem_of_singleton.
      simpl in Heq, Hnew. subst h h'.
      apply ttl_clearTimer_incl in Hin.
      pose proof (synced_fresh s Hs _ _ Hin). lia.
    + apply NoDup_singleton.
  - intros h tm [Hin|Hin]%elem_of_app.
    + apply ttl_clearTimer_incl in Hin. pose proof (synced_fresh s Hs _ _ Hin). lia.
    + apply list_elem_of_singleton in Hin as [= -> _]. lia.
  - intros k e Hget. destruct (decide (key = k)) as [->|Hne].
    + rewrite jsmap_get_set_eq in Hget. injection Hget as <-. simpl.
      exists (TTLMap.nextHandle s). split; [apply jsmap_get_set_eq|].
      apply elem_of_app. right. by apply list_elem_of_singleton.
    + rewrite jsmap_get_set_ne in Hget by done.
      destruct (synced_entry s Hs k e Hget) as (h & Hh & Hp).
      exists h. split; [by rewrite jsmap_get_set_ne|].
      apply elem_of_app. left. apply clearTimer_keeps; [done|done|]. simpl. congruence.
  - intros h tm [Hin|Hin]%elem_of_app.
    + pose proof (ttl_clearTimer_other key s h tm Htidy Hin) as Hne.
      apply ttl_clearTimer_incl in Hin.
      destruct (synced_timer s Hs h tm Hin) as (Hh & e & He & Hdue).
      rewrite !jsmap_get_set_ne by congruence. eauto.
    + apply list_elem_of_singleton in Hin as [= -> ->]. simpl.
      rewrite !jsmap_get_set_eq. eauto.
  - intros k h Hget. destruct (decide (key = k)) as [->|Hne].
    + by rewrite jsmap_get_set_eq.
    + rewrite jsmap_get_set_ne in Hget by done.
      rewrite jsmap_get_set_ne by done. by eapply synced_registry.
Qed.

Lemma synced_get now key s : synced s → synced (TTLMap.get now key s).2.
Proof.
  intros H. unfold TTLMap.get. destruct (JsMap.get key (TTLMap.map s)); [|done].
  destruct (now >? _); [by apply synced_delete|done].
Qed.

Lemma synced_has now key s : synced s → synced (TTLMap.has now key s).2.
Proof.
  intros H. unfold TTLMap.has. destruct (JsMap.get key (TTLMap.map s)); [|done].
  destruct (now >? _); [by apply synced_delete|done].
Qed.

Lemma synced_update now key f ttl s :
  Timers.inRange ttl → synced s → synced (TTLMap.update now key f ttl s).
Proof.
  intros Httl H. unfold TTLMap.update. pose proof (synced_get now key s H) as Hg.
  destruct (TTLMap.get now key s) as [cur s1]. by apply synced_set.
Qed.

(** On a synced store, the callback of an armed timer is [delete] of its key. *)
Lemma synced_fire now h s s' :
  synced s → TTLMap.fire now h s = Some s' →
  ∃ tm, (h, tm) ∈ TTLMap.pending s ∧ TTLMap.due tm ≤ now
        ∧ s' = TTLMap.delete (TTLMap.target tm) s.
Proof.
  intros Hs Hf. apply ttl_fire_inv in Hf as (tm & Hin & Hdue & ->).
  exists tm. split_and!; [done|done|].
  destruct (synced_timer s Hs h tm Hin) as (Hh & _).
  unfold TTLMap.delete, TTLMap.clearTimer. simpl. rewrite Hh. f_equal.
  unfold TTLMap.clearTimeout. rewrite list_filter_filter.
  apply list_filter_iff. intros [h' tm']. simpl. tauto.
Qed.

Lemma clear_pending_elem (l : JsMap.t nat) (p : list (nat * TTLMap.timeout)) x :
  x ∈ fold_left (λ p kh, TTLMap.clearTimeout kh.2 p) l p →
  x ∈ p ∧ x.1 ∉ l.*2.
Proof.
  revert p. induction l as [|[k h] l IH]; intros p Hin; simpl in *.
  - split; [done|apply not_elem_of_nil].
  - apply IH in Hin as [Hin Hnot].
    apply list_elem_of_filter in Hin as [Hne Hin].
    split; [done|]. apply not_elem_of_cons. by split.
Qed.

Lemma synced_clear_pending s : synced s → TTLMap.pending (TTLMap.clear s) = [].
Proof.
  intros Hs. simpl.
  destruct (fold_left _ _ _) as [|[h tm] l] eqn:Hfold; [done|].
  assert ((h, tm) ∈ fold_left (λ p kh, TTLMap.clearTimeout kh.2 p)
            (TTLMap.timers s) (TTLMap.pending s)) as Hin.
  { rewrite Hfold. apply elem_of_cons. by left. }
  apply clear_pending_elem in Hin as [Hin Hnot]. destruct Hnot.
  destruct (synced_timer s Hs h tm Hin) as (Hh & _).
  apply jsmap_get_Some_elem in Hh. apply list_elem_of_fmap.
  by exists (TTLMap.target tm, h).
Qed.

Lemma synced_clear s : synced s → synced (TTLMap.clear s).
Proof.
  intros Hs. pose proof (synced_clear_pending s Hs) as Hp.
  split; rewrite ?Hp; simpl; try done.
  - apply NoDup_nil_2.
  - apply NoDup_nil_2.
  - intros h tm Hin. by apply elem_of_nil in Hin.
  - intros h tm Hin. by apply elem_of_nil in Hin.
Qed.

Lemma synced_step b s : synced s → synced (TTLMap.step b s).
Proof.
  intros Hs. destruct b as [now h|now]; simpl.
  - destruct (TTLMap.fire now h s) as [s'|] eqn:Hf; [|done]. simpl.
    apply synced_fire in Hf as (tm & _ & _ & ->); [|done]. by apply synced_delete.
  - apply ttl_cleanup_ind; [|done]. intros k s'. apply synced_delete.
Qed.

Lemma synced_perform c s :
  timed (TTLMap.defaultTTL s) c → synced s → synced (perform c s).
Proof.
  intros Hc Hs. destruct c; simpl in *.
  - by apply synced_set.
  - by apply synced_get.
  - by apply synced_has.
  - by apply synced_delete.
  - by apply synced_update.
  - by apply synced_clear.
  - by apply synced_step.
Qed.

Lemma perform_defaultTTL c s : TTLMap.defaultTTL (perform c s) = TTLMap.defaultTTL s.
Proof.
  destruct c; simpl; try done.
  - apply ttl_defaultTTL_get.
  - unfold TTLMap.has. destruct (JsMap.get _ _); [|done]. by destruct (_ >? _).
  - unfold TTLMap.update. pose proof (ttl_defaultTTL_get now key s) as Hg.
    by destruct (TTLMap.get now key s).
  - apply ttl_defaultTTL_step.
Qed.

Lemma synced_performAll cs s :
  Forall (timed (TTLMap.defaultTTL s)) cs → synced s → synced (performAll cs s).
Proof.
  unfold performAll. intros Hcs. revert s Hcs.
  induction cs as [|c cs IH]; intros s Hcs Hs; simpl; [done|].
  apply Forall_cons in Hcs as [Hc Hcs].
  apply IH; [by rewrite perform_defaultTTL|by apply synced_perform].
Qed.

End TTLMapSynced.

Section TTLMapLaws.
Import TTLMapCalls.
Context {V : Type}.
Implicit Types (s : TTLMap.t V) (key k : string) (e : TTLMap.entry V).

(** As many armed timers as entries. *)
Lemma synced_count s : synced s → length (TTLMap.pending s) = TTLMap.size s.
Proof.
  intros Hs.
  assert ((λ x, TTLMap.target x.2) <$> TTLMap.pending s ≡ₚ JsMap.keys (TTLMap.map s))
    as Hperm.
  { apply NoDup_Permutation.
    - apply NoDup_fmap_2_strong; [|eapply NoDup_fmap_1, Hs].
      intros [h1 tm1] [h2 tm2] H1 H2 Heq. simpl in Heq.
      destruct (synced_timer s Hs _ _ H1) as [Hr1 _].
      destruct (synced_timer s Hs _ _ H2) as [Hr2 _].
      rewrite Heq, Hr2 in Hr1. injection Hr1 as ->.
      by rewrite (pending_handle_unique s h1 tm1 tm2 (synced_handles s Hs) H1 H2).
    - apply Hs.
    - intros k. split.
      + intros [[h tm] [-> Hin]]%list_elem_of_fmap. simpl.
        destruct (synced_timer s Hs _ _ Hin) as (_ & e & He & _).
        apply jsmap_get_Some_elem in He. apply list_elem_of_fmap.
        by exists (TTLMap.target tm, e).
      + intros Hk. destruct (JsMap.get k (TTLMap.map s)) as [e|] eqn:He.
        * destruct (synced_entry s Hs k e He) as (h & _ & Hp).
          apply list_elem_of_fmap.
          by exists (h, TTLMap.Timeout (TTLMap.expiresAt e) k).
        * by apply jsmap_get_None in He. }
  apply Permutation_length in Hperm. rewrite length_fmap in Hperm.
  rewrite Hperm. unfold TTLMap.size, JsMap.size, JsMap.keys. by rewrite length_fmap.
Qed.

(** X1 — Timers stay in step with entries. After any sequence of calls
    ([set], [get], [has], [delete], [update], [clear], timers firing, sweeps)
    on a new store, in which every TTL used is a delay the timer takes as it
    is (1 to 2^31 - 1 ms), there are exactly as many armed timers as entries:
    every entry has one timer, registered under its key and due at the entry's
    [expiresAt], and every armed timer belongs to such an entry. No [set]
    leaves an earlier timer behind, and no removal leaves a timer armed. *)
Theorem ttlmap_timers_match_entries (ttl : Z) (cs : list call) :
  Forall (timed ttl) cs →
  let s := performAll cs (TTLMap.new ttl : TTLMap.t V) in
  length (TTLMap.pending s) = TTLMap.size s
  ∧ (∀ key e, JsMap.get key (TTLMap.map s) = Some e →
       ∃ h, JsMap.get key (TTLMap.timers s) = Some h
            ∧ (h, TTLMap.Timeout (TTLMap.expiresAt e) key) ∈ TTLMap.pending s)
  ∧ (∀ h tm, (h, tm) ∈ TTLMap.pending s →
       ∃ e, JsMap.get (TTLMap.target tm) (TTLMap.map s) = Some e
            ∧ TTLMap.due tm = TTLMap.expiresAt e).
Proof.
  intros Hcs s.
  assert (synced s) as Hs by (by apply synced_performAll; [|apply synced_new]).
  split_and!.
  - by apply synced_count.
  - apply Hs.
  - intros h tm Hin. by destruct (synced_timer s Hs h tm Hin) as (_ & H).
Qed.

Lemma ttlmap_delete_frame t key k s :
  k ≠ key → read t k (TTLMap.delete key s) = read t k s.
Proof.
  intros Hne. unfold read, TTLMap.get. cbn [TTLMap.map TTLMap.delete].
  rewrite jsmap_get_delete_ne by congruence.
  destruct (JsMap.get k (TTLMap.map s)) as [e|]; [|done].
  by destruct (t >? TTLMap.expiresAt e).
Qed.

(** X2 — [set] then [get]. After [set(key, v, ttl)] at instant [now], a [get]
    of the key at instant [t] returns [v] as long as [t] has not passed
    [now + ttl], and not-found afterwards (at once when [ttl] is negative);
    reads of every other key return what they returned before; and the size
    grows by one exactly when the key was not stored. *)
Theorem ttlmap_set_then_get (now t ttl : Z) key k (v : V) s :
  read t key (TTLMap.set now key v ttl s) = (if t >? now + ttl then None else Some v)
  ∧ (k ≠ key → read t k (TTLMap.set now key v ttl s) = read t k s)
  ∧ TTLMap.size (TTLMap.set now key v ttl s)
    = (if JsMap.has key (TTLMap.map s) then TTLMap.size s else S (TTLMap.size s)).
Proof.
  split_and!.
  - unfold read, TTLMap.get. cbn [TTLMap.map TTLMap.set].
    rewrite jsmap_get_set_eq. simpl. by destruct (t >? now + ttl).
  - intros Hne. unfold read, TTLMap.get. cbn [TTLMap.map TTLMap.set].
    rewrite jsmap_get_set_ne by congruence.
    destruct (JsMap.get k (TTLMap.map s)) as [e|]; [|done].
    by destruct (t >? TTLMap.expiresAt e).
  - unfold TTLMap.size, JsMap.size, JsMap.has. cbn [TTLMap.map TTLMap.set].
    destruct (JsMap.get key (TTLMap.map s)) as [e|] eqn:He.
    + assert (JsMap.keys (JsMap.set key (TTLMap.Entry v (now + ttl)) (TTLMap.map s))
              = JsMap.keys (TTLMap.map s)) as Hk
        by (apply jsmap_keys_set_present; by rewrite He).
      apply (f_equal length) in Hk. unfold JsMap.keys in Hk.
      by rewrite !length_fmap in Hk.
    + rewrite jsmap_set_absent by done. rewrite length_app. simpl. lia.
Qed.

(** X3 — [delete]. After [delete(key)] the key reads as not-found at every
    instant and [has] answers [false]; reads of the other keys are unchanged;
    deleting again changes nothing, and on a store in step with its timers
    deleting a key that is not stored changes nothing at all. *)
Theorem ttlmap_delete_laws (t : Z) key k s :
  read t key (TTLMap.delete key s) = None
  ∧ (TTLMap.has t key (TTLMap.delete key s)).1 = false
  ∧ (k ≠ key → read t k (TTLMap.delete key s) = read t k s)
  ∧ TTLMap.delete key (TTLMap.delete key s) = TTLMap.delete key s
  ∧ (synced s → JsMap.get key (TTLMap.map s) = None → TTLMap.delete key s = s).
Proof.
  assert (∀ W (m : JsMap.t W), JsMap.delete key (JsMap.delete key m) = JsMap.delete key m)
    as Hidem.
  { intros W m. apply jsmap_delete_absent, jsmap_get_delete_eq. }
  split_and!.
  - unfold read, TTLMap.get. cbn [TTLMap.map TTLMap.delete].
    by rewrite jsmap_get_delete_eq.
  - unfold TTLMap.has. cbn [TTLMap.map TTLMap.delete].
    by rewrite jsmap_get_delete_eq.
  - intros Hne. by apply ttlmap_delete_frame.
  - unfold TTLMap.delete, TTLMap.clearTimer. simpl.
    rewrite !Hidem, jsmap_get_delete_eq. done.
  - intros Hs Habs.
    assert (JsMap.get key (TTLMap.timers s) = None) as Htm.
    { destruct (JsMap.get key (TTLMap.timers s)) as [h|] eqn:Hh; [|done].
      destruct (synced_registry s Hs key h Hh) as [e He]. congruence. }
    unfold TTLMap.delete, TTLMap.clearTimer. rewrite Htm.
    rewrite !jsmap_delete_absent by done. by destruct s.
Qed.

Lemma read_delete_stale t key k s :
  (∀ e, JsMap.get k (TTLMap.map s) = Some e → TTLMap.expiresAt e < t) →
  read t key (TTLMap.delete k s) = read t key s.
Proof.
  intros Hstale. destruct (decide (k = key)) as [->|Hne].
  - unfold read, TTLMap.get. cbn [TTLMap.map TTLMap.delete].
    rewrite jsmap_get_delete_eq.
    destruct (JsMap.get key (TTLMap.map s)) as [e|] eqn:He; [|done].
    specialize (Hstale e eq_refl).
    by destruct (Z.gtb_spec t (TTLMap.expiresAt e)); [|lia].
  - apply ttlmap_delete_frame. congruence.
Qed.

Lemma read_cleanup_fold t key now s (l : JsMap.t (TTLMap.entry V)) acc :
  now < t →
  (∀ k e, (k, e) ∈ l → JsMap.get k (TTLMap.map s) = Some e) →
  (∀ k, JsMap.get k (TTLMap.map acc) = None
        ∨ JsMap.get k (TTLMap.map acc) = JsMap.get k (TTLMap.map s)) →
  read t key
    (fold_left
       (λ a ke, if now >? TTLMap.expiresAt ke.2 then TTLMap.delete ke.1 a else a)
       l acc)
  = read t key acc.
Proof.
  intros Hnow. revert acc. induction l as [|[k e] l IH]; intros acc Hsnap Hsub.
  { done. }
  simpl. destruct (Z.gtb_spec now (TTLMap.expiresAt e)) as [Hst|Hfr].
  - rewrite IH.
    + apply read_delete_stale. intros e' He'.
      destruct (Hsub k) as [Hn|Hsame]; [congruence|].
      rewrite Hsame, (Hsnap k e) in He'; [|apply elem_of_cons; by left].
      injection He' as <-. lia.
    + intros k' e' Hin. apply Hsnap. apply elem_of_cons. by right.
    + intros k'. destruct (ttl_get_delete k' k acc) as [Hn|Hsame]; [by left|].
      rewrite Hsame. apply Hsub.
  - apply IH; [|done]. intros k' e' Hin. apply Hsnap. apply elem_of_cons. by right.
Qed.

Lemma read_step t key b s :
  synced s → TTLMap.instant b < t → read t key (TTLMap.step b s) = read t key s.
Proof.
  intros Hs Hb. destruct b as [now h|now]; simpl in *.
  - destruct (TTLMap.fire now h s) as [s'|] eqn:Hf; [|done]. simpl.
    apply synced_fire in Hf as (tm & Hin & Hdue & ->); [|done].
    apply read_delete_stale. intros e He.
    destruct (synced_timer s Hs h tm Hin) as (_ & e' & He' & Heq).
    rewrite He in He'. injection He' as <-. lia.
  - unfold TTLMap.cleanup. apply (read_cleanup_fold t key now s); [done| |].
    + intros k e. apply jsmap_elem_get, Hs.
    + intros k. by right.
Qed.

(** X4 — Timers and sweeps are invisible to later reads. On a store in step
    with its timers, whatever timers fire and sweeps run strictly before
    instant [t], a [get] at [t] returns exactly what it would have returned
    without them: expiry as seen by readers does not depend on when the
    background work happens. *)
Theorem ttlmap_background_unobservable (t : Z) key (bs : list TTLMap.background) s :
  synced s →
  Forall (λ b, TTLMap.instant b < t) bs →
  read t key (TTLMap.steps bs s) = read t key s.
Proof.
  unfold TTLMap.steps. intros Hs Hbs. revert s Hs.
  induction Hbs as [|b bs Hb _ IH]; intros s Hs; simpl; [done|].
  rewrite IH by by apply synced_step. by apply read_step.
Qed.

(** X5 — [update] is a read-modify-write. The updater receives what [get]
    returns at that instant ([None] for a key that is absent or expired); the
    result is stored with the deadline [now + ttl], so a [get] of the key
    returns it until then, whatever the earlier deadline was, and the other
    keys read as before. *)
Theorem ttlmap_update_laws (now t ttl : Z) key k (f : option V → V) s :
  read t key (TTLMap.update now key f ttl s)
  = (if t >? now + ttl then None else Some (f (read now key s)))
  ∧ (k ≠ key → read t k (TTLMap.update now key f ttl s) = read t k s).
Proof.
  assert (k ≠ key → read t k (TTLMap.get now key s).2 = read t k s) as Hframe.
  { intros Hne. unfold TTLMap.get at 1.
    destruct (JsMap.get key (TTLMap.map s)) as [e|]; [|done].
    destruct (now >? TTLMap.expiresAt e); [|done].
    by destruct (ttlmap_delete_frame t key k s Hne). }
  unfold TTLMap.update. change (read now key s) with (TTLMap.get now key s).1.
  destruct (TTLMap.get now key s) as [cur s1]. simpl in *.
  split.
  - unfold read, TTLMap.get. cbn [TTLMap.map TTLMap.set].
    rewrite jsmap_get_set_eq. simpl. by destruct (t >? now + ttl).
  - intros Hne. rewrite <- Hframe by done.
    unfold read, TTLMap.get. cbn [TTLMap.map TTLMap.set].
    rewrite jsmap_get_set_ne by congruence.
    destruct (JsMap.get k (TTLMap.map s1)) as [e|]; [|done].
    by destruct (t >? TTLMap.expiresAt e).
Qed.

(** X6 — [destroy] leaves nothing behind. On a store in step with its timers,
    after [destroy] (or [clear]) the store holds no entry and no registered
    timer, no timer is armed any more, so no callback of the store can run,
    every read returns not-found, and timers and sweeps change nothing. *)
Theorem ttlmap_destroy_leaves_nothing (t now : Z) key (h : nat)
    (bs : list TTLMap.background) s :
  synced s →
  let s' := TTLMap.destroy s in
  TTLMap.size s' = 0%nat
  ∧ TTLMap.timers s' = JsMap.empty
  ∧ TTLMap.pending s' = []
  ∧ TTLMap.fire now h s' = None
  ∧ read t key s' = None
  ∧ TTLMap.steps bs s' = s'.
Proof.
  intros Hs s'. pose proof (synced_clear_pending s Hs) as Hp.
  assert (∀ b s0, TTLMap.map s0 = [] → TTLMap.pending s0 = [] →
                  TTLMap.step b s0 = s0) as Hstep.
  { intros b s0 Hm Hp0. destruct b as [now' h'|now']; simpl.
    - unfold TTLMap.fire. by rewrite Hp0.
    - unfold TTLMap.cleanup. by rewrite Hm. }
  split_and!; try done.
  - unfold TTLMap.fire. subst s'. unfold TTLMap.destroy. by rewrite Hp.
  - unfold TTLMap.steps. induction bs as [|b bs IH]; simpl; [done|].
    rewrite Hstep; done.
Qed.

Lemma cleanup_fold_map now (rem pre : list (string * TTLMap.entry V)) acc :
  TTLMap.map acc = pre ++ rem →
  NoDup (JsMap.keys (pre ++ rem)) →
  TTLMap.map
    (fold_left
       (λ a ke, if now >? TTLMap.expiresAt ke.2 then TTLMap.delete ke.1 a else a)
       rem acc)
  = pre ++ filter (λ ke, now ≤ TTLMap.expiresAt ke.2) rem.
Proof.
  revert pre acc. induction rem as [|[k e] rem IH]; intros pre acc Hmap Hnd.
  - simpl. by rewrite Hmap.
  - cbn [fold_left fst snd].
    destruct (Z.gtb_spec now (TTLMap.expiresAt e)) as [Hst|Hfr].
    + rewrite filter_cons_False by (simpl; lia).
      assert ((k ∉ JsMap.keys pre) ∧ (k ∉ JsMap.keys rem)) as [Hpre Hrem].
      { unfold JsMap.keys in *. rewrite fmap_app in Hnd. simpl in Hnd.
        apply NoDup_app in Hnd as (_ & Hdis & Hnd').
        apply NoDup_cons in Hnd' as [Hk _]. split; [|done].
        intros Hin. apply (Hdis k Hin). apply elem_of_cons. by left. }
      apply IH.
      * cbn [TTLMap.map TTLMap.delete]. rewrite Hmap.
        assert (∀ m1 m2 : JsMap.t (TTLMap.entry V),
                  JsMap.delete k (m1 ++ m2) = JsMap.delete k m1 ++ JsMap.delete k m2)
          as Happ.
        { intros m1 m2. induction m1 as [|[k' e'] m1 IHm]; simpl; [done|].
          destruct (decide (k' = k)); [done|]. simpl. by rewrite IHm. }
        rewrite Happ. simpl. rewrite decide_True by done.
        rewrite !jsmap_delete_absent; [done|by apply jsmap_get_None..].
      * unfold JsMap.keys in *. rewrite fmap_app in *. simpl in Hnd.
        apply NoDup_app in Hnd as (H1 & H2 & H3). apply NoDup_app. split_and!; [done| |].
        -- intros x Hx Hx'. apply (H2 x Hx). apply elem_of_cons. by right.
        -- by apply NoDup_cons in H3 as [_ ?].
    + rewrite filter_cons_True by (simpl; lia).
      rewrite (IH (pre ++ [(k, e)]) acc).
      * by rewrite <- (assoc_L (++)).
      * by rewrite <- (assoc_L (++)).
      * by rewrite <- (assoc_L (++)).
Qed.

(** X7 — The sweep removes exactly the expired entries. On a store in step
    with its timers, [cleanup] at instant [now] keeps precisely the entries
    with [expiresAt ≥ now], in their insertion order, and the store is again
    in step with its timers: the removed entries' timers are disarmed. *)
Theorem ttlmap_cleanup_removes_expired (now : Z) s :
  synced s →
  TTLMap.map (TTLMap.cleanup now s)
  = filter (λ ke, now ≤ TTLMap.expiresAt ke.2) (TTLMap.map s)
  ∧ synced (TTLMap.cleanup now s)
  ∧ length (TTLMap.pending (TTLMap.cleanup now s))
    = length (filter (λ ke, now ≤ TTLMap.expiresAt ke.2) (TTLMap.map s)).
Proof.
  intros Hs.
  assert (TTLMap.map (TTLMap.cleanup now s)
          = filter (λ ke, now ≤ TTLMap.expiresAt ke.2) (TTLMap.map s)) as Hmap.
  { unfold TTLMap.cleanup. apply (cleanup_fold_map now (TTLMap.map s) [] s); [done|].
    apply Hs. }
  assert (synced (TTLMap.cleanup now s)) as Hs'.
  { apply ttl_cleanup_ind; [|done]. intros k s'. apply synced_delete. }
  split_and!; [done|done|]. rewrite <- Hmap. by apply synced_count.
Qed.

End TTLMapLaws.

(** ** The deduplicator under arbitrary call sequences *)

Section DedupeLaws.
Import MessageDeduplicator DedupeCalls.
Implicit Types (d : MessageDeduplicator.t) (c : MessageDeduplicator.call).

Lemma order_delete key (s : TTLMap.t bool) k :
  k ∈ JsMap.keys (TTLMap.map (TTLMap.delete key s)) → k ∈ JsMap.keys (TTLMap.map s).
Proof.
  simpl. rewrite jsmap_keys_delete. by intros [_ ?]%list_elem_of_filter.
Qed.

Lemma order_has now key (s : TTLMap.t bool) k :
  k ∈ JsMap.keys (TTLMap.map (TTLMap.has now key s).2) → k ∈ JsMap.keys (TTLMap.map s).
Proof.
  unfold TTLMap.has. destruct (JsMap.get key (TTLMap.map s)); [|done].
  destruct (now >? _); [apply order_delete|done].
Qed.

Lemma order_step b (s : TTLMap.t bool) k :
  k ∈ JsMap.keys (TTLMap.map (TTLMap.step b s)) → k ∈ JsMap.keys (TTLMap.map s).
Proof.
  destruct b as [now h|now]; simpl.
  - destruct (TTLMap.fire now h s) as [s'|] eqn:Hf; [|done]. simpl.
    apply ttl_fire_inv in Hf as (tm & _ & _ & ->). apply (order_delete _ (TTLMap.Store _ _ _ _ _)).
  - apply (ttl_cleanup_ind
             (λ s' : TTLMap.t bool,
                k ∈ JsMap.keys (TTLMap.map s') → k ∈ JsMap.keys (TTLMap.map s)));
      [|done].
    intros key s' IH Hin. by apply IH, (order_delete key).
Qed.

Lemma order_evictLoop ks toDelete deleted (s : TTLMap.t bool) k :
  k ∈ JsMap.keys (TTLMap.map (evictLoop ks toDelete deleted s)) →
  k ∈ JsMap.keys (TTLMap.map s).
Proof.
  revert deleted s. induction ks as [|key ks IH]; intros deleted s; simpl; [done|].
  destruct (deleted >=? toDelete); [done|].
  intros Hin. by apply (order_delete key), (IH (deleted + 1)).
Qed.

Lemma order_markSeen now messageId d k :
  k ∈ order (markSeen now messageId d) → k ∈ order d ∨ k = messageId.
Proof.
  unfold markSeen. destruct (decide (messageId = "")); [by left|].
  unfold order at 1. cbn [seen with_seen]. rewrite dedupe_set_order.
  assert (k ∈ JsMap.keys (TTLMap.map
            (seen (if Z.of_nat (size d) >=? maxEntries d then evictOldest d else d)))
          → k ∈ order d) as Hsub.
  { destruct (_ >=? _); [|done]. apply order_evictLoop. }
  destruct (decide (messageId ∈ _)).
  - intros Hin. left. by apply Hsub.
  - intros [Hin|Hin]%elem_of_app; [left; by apply Hsub|].
    right. by apply list_elem_of_singleton in Hin.
Qed.

Lemma order_isDuplicate now messageId d k :
  k ∈ order (isDuplicate now messageId d).2 → k ∈ order d.
Proof.
  unfold isDuplicate. destruct (decide (messageId = "")); [done|].
  pose proof (order_has now messageId (seen d) k) as H.
  by destruct (TTLMap.has now messageId (seen d)).
Qed.

Lemma order_perform c d k :
  k ∈ order (perform c d) → k ∈ order d ∨ marks k c.
Proof.
  destruct c as [now id|now id|now id|b]; simpl.
  - intros [?| ->]%order_markSeen; [by left|]. right. exists now. by left.
  - intros ?%order_isDuplicate. by left.
  - unfold checkAndMark. pose proof (order_isDuplicate now id d k) as Hdup.
    destruct (isDuplicate now id d) as [[] d1]; simpl in *; [by left; auto|].
    intros [?| ->]%order_markSeen; [left; auto|]. right. exists now. by right.
  - intros ?%order_step. by left.
Qed.

Lemma order_performAll cs d k :
  k ∈ order (performAll cs d) → k ∈ order d ∨ Exists (marks k) cs.
Proof.
  unfold performAll. revert d. induction cs as [|c cs IH]; intros d; simpl; [by left|].
  intros [Hin|Hex]%IH; [|right; by apply Exists_cons_tl].
  apply order_perform in Hin as [?|?]; [by left|]. right. by apply Exists_cons_hd.
Qed.

(** X8 — No false positives. Whatever calls were made on a new deduplicator
    (also evictions, expiries, timers and sweeps), [isDuplicate] answers
    [true] for an id only if one of those calls was [markSeen] or
    [checkAndMark] with that very id: a message that was never seen is never
    reported as a duplicate. *)
Theorem dedupe_no_false_positive (ttl maxEntries now : Z) (messageId : string)
    (cs : list call) :
  (isDuplicate now messageId (performAll cs (new ttl maxEntries))).1 = true →
  Exists (marks messageId) cs.
Proof.
  intros Hdup. unfold isDuplicate in Hdup.
  destruct (decide (messageId = "")); [done|].
  destruct (TTLMap.has now messageId _) as [found s] eqn:Hhas. simpl in Hdup. subst found.
  assert ((TTLMap.has now messageId
             (seen (performAll cs (new ttl maxEntries)))).1 = true) as Htrue
    by by rewrite Hhas.
  apply ttl_has_true in Htrue as (e & He & _).
  assert (messageId ∈ order (performAll cs (new ttl maxEntries))) as Hin.
  { apply jsmap_get_Some_elem in He. apply list_elem_of_fmap. by exists (messageId, e). }
  apply order_performAll in Hin as [Hin|?]; [|done].
  by apply elem_of_nil in Hin.
Qed.

(** X9 — Below capacity nothing is lost. When the store is not full,
    [markSeen] of one id leaves the marker of every other id as it was, so
    [isDuplicate] of any other id answers as before. *)
Theorem dedupe_markSeen_keeps_others (now t : Z) (messageId k : string) d :
  Z.of_nat (size d) < maxEntries d →
  k ≠ messageId →
  JsMap.get k (TTLMap.map (seen (markSeen now messageId d)))
  = JsMap.get k (TTLMap.map (seen d))
  ∧ (isDuplicate t k (markSeen now messageId d)).1 = (isDuplicate t k d).1.
Proof.
  intros Hroom Hne.
  assert (JsMap.get k (TTLMap.map (seen (markSeen now messageId d)))
          = JsMap.get k (TTLMap.map (seen d))) as Hget.
  { unfold markSeen. destruct (decide (messageId = "")); [done|].
    destruct (Z.geb_spec (Z.of_nat (size d)) (maxEntries d)); [lia|].
    cbn [seen with_seen TTLMap.map TTLMap.set]. by rewrite jsmap_get_set_ne. }
  split; [done|]. unfold isDuplicate. destruct (decide (k = "")); [done|].
  unfold TTLMap.has. rewrite Hget.
  destruct (JsMap.get k (TTLMap.map (seen d))) as [e|]; [|done].
  by destruct (t >? TTLMap.expiresAt e).
Qed.

End DedupeLaws.

Section Redelivery.
Import Index.
Variable USER_COOLDOWN_MS : Z.
Implicit Types (w : Index.world).

Lemma dedupe_subscribe p r w : deduplicator (subscribe p r w) = deduplicator w.
Proof. unfold subscribe. by destruct (promises w !! p) as [[[o|] rs]|]. Qed.

Lemma dedupe_settle p o w : deduplicator (settle p o w) = deduplicator w.
Proof. unfold settle. by destruct (promises w !! p) as [[[o'|] rs]|]. Qed.

Lemma dedupe_processMessage now msg w :
  deduplicator (processMessage USER_COOLDOWN_MS now msg w).2 = deduplicator w.
Proof. unfold processMessage. by destruct (applyCooldown _ _ _ _). Qed.

Lemma dedupe_runJob now j w :
  deduplicator (runJob USER_COOLDOWN_MS now j w) = deduplicator w.
Proof.
  destruct j as [[userId|msg derived|derived] o]; simpl; [done| |].
  - destruct o; [|apply dedupe_settle].
    pose proof (dedupe_processMessage now msg w) as H.
    destruct (processMessage _ _ _ _) as [p w1]. simpl in *.
    by rewrite dedupe_subscribe.
  - apply dedupe_settle.
Qed.

Lemma dedupe_drain fuel now w :
  deduplicator (drain USER_COOLDOWN_MS fuel now w) = deduplicator w.
Proof.
  revert w. induction fuel as [|fuel IH]; intros w; simpl; [done|].
  destruct (jobs w) as [|j js]; [done|]. by rewrite IH, dedupe_runJob.
Qed.

Lemma dedupe_quiet e w :
  DedupeCalls.quiet e → deduplicator (exec USER_COOLDOWN_MS e w) = deduplicator w.
Proof.
  destruct e as [now msg|now p o|b|b]; simpl; [done| |done|done].
  intros _. unfold checkpoint. rewrite dedupe_drain. unfold processMessage_return.
  destruct (asleep now p w); [done|].
  destruct (list_find _ _) as [[i [p' msg]]|]; [|done]. by rewrite dedupe_settle.
Qed.

Lemma jobs_exec_quiet e w :
  jobs w = [] → DedupeCalls.quiet e → jobs (exec USER_COOLDOWN_MS e w) = [].
Proof.
  destruct e as [now msg|now p o|b|b]; simpl; [done| |done|done].
  intros _ _. apply serializer_checkpoint_complete.
Qed.

Lemma checkpoint_idle now w : jobs w = [] → checkpoint USER_COOLDOWN_MS now w = w.
Proof.
  intros Hj. unfold checkpoint. destruct (backlog w); simpl; [done|]. by rewrite Hj.
Qed.

Lemma dedupe_checkAndMark_marked now id (d : MessageDeduplicator.t) :
  id ≠ "" →
  (MessageDeduplicator.checkAndMark now id d).1 = false →
  JsMap.get id (TTLMap.map (MessageDeduplicator.seen
                              (MessageDeduplicator.checkAndMark now id d).2))
  = Some (TTLMap.Entry true (now + MessageDeduplicator.ttl d)).
Proof.
  intros Hne. unfold MessageDeduplicator.checkAndMark, MessageDeduplicator.isDuplicate.
  rewrite decide_False by done.
  destruct (TTLMap.has now id (MessageDeduplicator.seen d)) as [[] s]; [done|].
  intros _. cbn [fst snd]. unfold MessageDeduplicator.markSeen.
  rewrite decide_False by done. cbv zeta.
  assert (MessageDeduplicator.ttl
            (if Z.of_nat (MessageDeduplicator.size (MessageDeduplicator.with_seen d s))
                >=? MessageDeduplicator.maxEntries (MessageDeduplicator.with_seen d s)
             then MessageDeduplicator.evictOldest (MessageDeduplicator.with_seen d s)
             else MessageDeduplicator.with_seen d s)
          = MessageDeduplicator.ttl d) as -> by (by destruct (_ >=? _)).
  cbn [MessageDeduplicator.seen MessageDeduplicator.with_seen TTLMap.map TTLMap.set].
  apply jsmap_get_set_eq.
Qed.

(** What [handleMessage] does to the deduplicator when it does not ignore the
    message. *)
Lemma dedupe_handleMessage now msg w :
  includes "@g.us" (from msg) = false →
  from msg ≠ "status@broadcast" →
  fromMe msg = false →
  deduplicator (handleMessage USER_COOLDOWN_MS now msg w)
  = (MessageDeduplicator.checkAndMark now (default "" (id_serialized msg))
       (deduplicator w)).2.
Proof.
  intros Hgroup Hstatus Hme. unfold handleMessage.
  rewrite Hgroup, Hme. rewrite decide_False by done.
  destruct (MessageDeduplicator.checkAndMark _ _ _) as [[] d]; [done|].
  cbn [snd]. destruct (JsMap.get _ _).
  - simpl. by rewrite dedupe_subscribe.
  - pose proof (dedupe_processMessage now msg (with_deduplicator w d)) as H.
    destruct (processMessage _ _ _ _) as [p w3]. simpl in *.
    by rewrite dedupe_subscribe.
Qed.

(** X10 — A redelivered message is ignored. When [handleMessage] accepts a
    message with a non-empty id as new, a second delivery of that message, up
    to the instant where the marker expires ([now + ttl] of the deduplicator)
    and whatever [processMessage] calls have ended in between, leaves the whole
    state as it is: nothing is started, chained or recorded a second time. *)
Theorem pipeline_redelivery_ignored (now now' : Z) (msg : message) (id : string)
    (es : list event) w :
  id_serialized msg = Some id →
  id ≠ "" →
  (MessageDeduplicator.checkAndMark now id (deduplicator w)).1 = false →
  Forall DedupeCalls.quiet es →
  now' ≤ now + MessageDeduplicator.ttl (deduplicator w) →
  let w2 := run USER_COOLDOWN_MS es (exec USER_COOLDOWN_MS (Incoming now msg) w) in
  exec USER_COOLDOWN_MS (Incoming now' msg) w2 = w2.
Proof.
  intros Hid Hne Hnew Hes Hnow' w2.
  set (w1 := exec USER_COOLDOWN_MS (Incoming now msg) w) in *.
  assert (jobs w1 = []) as Hj1 by apply serializer_checkpoint_complete.
  assert (jobs w2 = [] ∧ deduplicator w2 = deduplicator w1) as [Hj2 Hd2].
  { subst w2. unfold run. revert Hj1. generalize w1 as w0.
    induction Hes as [|e es He _ IH]; intros w0 Hj0; simpl; [done|].
    destruct (IH (exec USER_COOLDOWN_MS e w0)) as [-> ->];
      [by apply jobs_exec_quiet|]. split; [done|]. by apply dedupe_quiet. }
  assert (handleMessage USER_COOLDOWN_MS now' msg w2 = w2) as Hsame.
  { unfold handleMessage.
    destruct (includes "@g.us" (from msg)) eqn:Hgroup; [done|].
    destruct (decide (from msg = "status@broadcast")) as [|Hstatus]; [done|].
    destruct (fromMe msg) eqn:Hme; [done|].
    rewrite Hid. change (default "" (Some id)) with id.
    assert ((TTLMap.has now' id
               (MessageDeduplicator.seen (deduplicator w2))).1 = true) as Hfresh.
    { apply ttl_has_true. rewrite Hd2. subst w1. cbn [exec]. unfold checkpoint.
      rewrite dedupe_drain, dedupe_handleMessage by done. rewrite Hid. change (default "" (Some id)) with id.
      rewrite dedupe_checkAndMark_marked by done.
      eexists. split; [done|]. simpl. lia. }
    pose proof (ttl_has_true_unchanged now' id _ Hfresh) as Hkeep.
    assert (TTLMap.has now' id (MessageDeduplicator.seen (deduplicator w2))
            = (true, MessageDeduplicator.seen (deduplicator w2))) as Hhas.
    { destruct (TTLMap.has now' id _) as [found s]. simpl in Hfresh, Hkeep.
      by subst found s. }
    unfold MessageDeduplicator.checkAndMark, MessageDeduplicator.isDuplicate.
    rewrite decide_False by done. rewrite Hhas. clearbody w2. clear.
    destruct w2 as [d ? ? ? ? ? ?]. simpl. by destruct d. }
  cbn [exec]. rewrite Hsame. by apply checkpoint_idle.
Qed.

End Redelivery.

(** ** JavaScript strings *)

Section JsStringFacts.
Implicit Types (s p : JsString.t).

Lemma jsstring_substring_0 (b : Z) s :
  0 ≤ b → JsString.substring 0 b s = take (Z.to_nat b) s.
Proof.
  intros Hb. unfold JsString.substring, JsString.len.
  replace (Z.to_nat (Z.min (Z.max 0 (Z.min 0 (Z.of_nat (length s))))
                       (Z.max 0 (Z.min b (Z.of_nat (length s))))))
    with 0%nat by lia.
  replace (Z.to_nat
             (Z.max (Z.max 0 (Z.min 0 (Z.of_nat (length s))))
                (Z.max 0 (Z.min b (Z.of_nat (length s))))
              - Z.min (Z.max 0 (Z.min 0 (Z.of_nat (length s))))
                  (Z.max 0 (Z.min b (Z.of_nat (length s))))))
    with (Nat.min (Z.to_nat b) (length s)) by lia.
  rewrite drop_0.
  destruct (Nat.le_ge_cases (Z.to_nat b) (length s)) as [Hle|Hge].
  - by rewrite Nat.min_l.
  - rewrite Nat.min_r by done. by rewrite !take_ge.
Qed.

Lemma jsstring_substring_0_len (b : Z) s :
  0 ≤ b → JsString.len (JsString.substring 0 b s) = Z.min b (JsString.len s).
Proof.
  intros Hb. rewrite jsstring_substring_0 by done.
  unfold JsString.len. rewrite length_take. lia.
Qed.

Lemma jsstring_search_range s (i : Z) :
  JsString.searchSentenceEndFrom s i = -1
  ∨ (i ≤ JsString.searchSentenceEndFrom s i
     ∧ JsString.searchSentenceEndFrom s i + 1 < i + JsString.len s).
Proof.
  unfold JsString.len. revert i. induction s as [|c s IH]; intros i; [by left|].
  destruct s as [|d s']; [by left|].
  change (JsString.searchSentenceEndFrom (c :: d :: s') i)
    with (if ((c =? 46) || (c =? 33) || (c =? 63))%N && JsString.isSpace d then i
          else JsString.searchSentenceEndFrom (d :: s') (i + 1)).
  destruct (_ && _).
  - right. simpl. lia.
  - destruct (IH (i + 1)) as [->|[H1 H2]]; [by left|]. right.
    simpl length in *. lia.
Qed.

Lemma jsstring_lastIndex_range p s (i : Z) :
  JsString.lastIndexFrom p s i = -1
  ∨ (∃ n : nat, JsString.lastIndexFrom p s i = i + Z.of_nat n
                ∧ JsString.startsWith p (drop n s) = true
                ∧ (n < length s)%nat).
Proof.
  revert i. induction s as [|c s IH]; intros i; [by left|].
  cbn [JsString.lastIndexFrom].
  destruct (IH (i + 1)) as [->|(n & -> & Hst & Hn)].
  - simpl. destruct (JsString.startsWith p (c :: s)) eqn:Hp; [|by left].
    right. exists 0%nat. split_and!; [lia|done|simpl; lia].
  - destruct (Z.geb_spec (i + 1 + Z.of_nat n) 0).
    + right. exists (S n). split_and!; [lia|done|simpl; lia].
    + destruct (JsString.startsWith p (c :: s)) eqn:Hp; [|by left].
      right. exists 0%nat. split_and!; [lia|done|simpl; lia].
Qed.

Lemma jsstring_startsWith_length p s :
  JsString.startsWith p s = true → (length p ≤ length s)%nat.
Proof.
  revert s. induction p as [|c p IH]; intros [|d s]; simpl; try done; [lia|].
  intros [_ H]%andb_true_iff. apply IH in H. lia.
Qed.

Lemma jsstring_startsWith_head c p s :
  JsString.startsWith (c :: p) s = true → s !! 0%nat = Some c.
Proof.
  destruct s as [|d s]; simpl; [done|].
  intros [H _]%andb_true_iff. apply N.eqb_eq in H. by subst.
Qed.

End JsStringFacts.

(** ** Conversation history *)

Section ConversationFacts.
Import Conversation.
Implicit Types (ctx : userContext) (l : list historyEntry).

Lemma sliceLast_length {A} (n : Z) (l : list A) :
  0 ≤ n → Z.of_nat (length (sliceLast n l)) = Z.min n (Z.of_nat (length l)).
Proof. intros Hn. unfold sliceLast. rewrite length_drop. lia. Qed.

Lemma sliceLast_short {A} (n : Z) (l : list A) :
  Z.of_nat (length l) ≤ n → sliceLast n l = l.
Proof.
  intros Hn. unfold sliceLast.
  by replace (Z.to_nat (Z.max (Z.of_nat (length l) - n) 0)) with 0%nat by lia.
Qed.

Lemma sliceLast_app {A} (n : Z) (l k : list A) :
  0 ≤ n → sliceLast n (sliceLast n l ++ k) = sliceLast n (l ++ k).
Proof.
  intros Hn. unfold sliceLast at 2.
  set (a := Z.to_nat (Z.max (Z.of_nat (length l) - n) 0)).
  assert (a ≤ length l)%nat as Ha by lia.
  rewrite <- (drop_app_le l k a) by done.
  unfold sliceLast. rewrite drop_drop. f_equal.
  rewrite length_drop, !length_app. lia.
Qed.

(** One call keeps the last ten of the history with the message appended. *)
Lemma addToHistory_window now r txt ctx :
  conversationHistory (addToHistory now r txt ctx)
  = Some (sliceLast MAX_CONVERSATION_HISTORY
            (default [] (conversationHistory ctx) ++ [HistoryEntry r txt now])).
Proof.
  unfold addToHistory. cbn [conversationHistory]. f_equal.
  destruct (Z.gtb_spec
              (Z.of_nat (length (default [] (conversationHistory ctx)
                                 ++ [HistoryEntry r txt now])))
              MAX_CONVERSATION_HISTORY); [done|].
  by rewrite sliceLast_short.
Qed.

Lemma addAll_window adds ctx l :
  conversationHistory ctx = Some (sliceLast MAX_CONVERSATION_HISTORY l) →
  conversationHistory (addAll adds ctx)
  = Some (sliceLast MAX_CONVERSATION_HISTORY (l ++ (entryOf <$> adds))).
Proof.
  unfold addAll. revert ctx l. induction adds as [|[[r txt] now] adds IH];
    intros ctx l Hctx; simpl.
  - by rewrite app_nil_r.
  - rewrite (IH _ (l ++ [HistoryEntry r txt now])).
    + by rewrite <- (assoc_L (++)).
    + rewrite addToHistory_window, Hctx. simpl.
      by rewrite sliceLast_app.
Qed.

Lemma addAll_savedPlaces adds ctx : savedPlaces (addAll adds ctx) = savedPlaces ctx.
Proof.
  unfold addAll. revert ctx. induction adds as [|a adds IH]; intros ctx; simpl; [done|].
  by rewrite IH.
Qed.

(** X11 — The history is a sliding window. After any sequence of at least one
    [addToHistory] call, the stored history is exactly the last ten entries
    of the earlier history followed by the added messages, in order (all of
    them while there are at most ten): it never exceeds
    [MAX_CONVERSATION_HISTORY], even if it did before, and the bookmarks are
    not touched. *)
Theorem history_sliding_window (adds : list addition) ctx :
  adds ≠ [] →
  let all := default [] (conversationHistory ctx) ++ (entryOf <$> adds) in
  conversationHistory (addAll adds ctx)
  = Some (drop (length all - 10) all)
  ∧ (∀ h, conversationHistory (addAll adds ctx) = Some h → (length h ≤ 10)%nat)
  ∧ savedPlaces (addAll adds ctx) = savedPlaces ctx.
Proof.
  intros Hne all.
  assert (conversationHistory (addAll adds ctx)
          = Some (sliceLast MAX_CONVERSATION_HISTORY all)) as Hw.
  { destruct adds as [|[[r txt] now] adds]; [done|]. subst all.
    change (addAll ((r, txt, now) :: adds) ctx)
      with (addAll adds (addToHistory now r txt ctx)).
    rewrite (addAll_window adds _ (default [] (conversationHistory ctx)
                                   ++ [HistoryEntry r txt now])).
    - simpl. by rewrite <- (assoc_L (++)).
    - apply addToHistory_window. }
  split_and!.
  - rewrite Hw. unfold sliceLast, MAX_CONVERSATION_HISTORY. do 2 f_equal. lia.
  - intros h Hh. rewrite Hw in Hh. injection Hh as <-.
    pose proof (sliceLast_length MAX_CONVERSATION_HISTORY all).
    unfold MAX_CONVERSATION_HISTORY in *. lia.
  - apply addAll_savedPlaces.
Qed.

Lemma lastAssistant_skip (us rest : list historyEntry) :
  Forall (λ e, role e ≠ "assistant") us →
  lastAssistant (us ++ rest) = lastAssistant rest.
Proof.
  induction 1 as [|u us Hu _ IH]; simpl; [done|]. by rewrite decide_False.
Qed.

(** X12 — The last reply stays retrievable for nine further messages. After a
    reply of the assistant is added, [getLastBotResponse] returns it while at
    most nine messages of other roles have been added since; after ten or
    more such messages the history holds no reply of the assistant and the
    result is [null]. *)
Theorem last_reply_retrievable (now : Z) (reply : JsString.t)
    (later : list addition) ctx :
  Forall (λ a, a.1.1 ≠ "assistant") later →
  ((length later ≤ 9)%nat →
   getLastBotResponse (addAll later (addToHistory now "assistant" reply ctx))
   = Some reply)
  ∧ ((10 ≤ length later)%nat →
     getLastBotResponse (addAll later (addToHistory now "assistant" reply ctx))
     = None).
Proof.
  intros Hlater.
  set (h0 := default [] (conversationHistory ctx)).
  set (E := HistoryEntry "assistant" reply now).
  assert (Forall (λ e, role e ≠ "assistant") (entryOf <$> later)) as Hus.
  { apply Forall_fmap. eapply Forall_impl; [exact Hlater|]. by intros [[r txt] t]. }
  assert (conversationHistory (addAll later (addToHistory now "assistant" reply ctx))
          = Some (sliceLast MAX_CONVERSATION_HISTORY
                    ((h0 ++ [E]) ++ (entryOf <$> later)))) as Hw.
  { apply addAll_window, addToHistory_window. }
  unfold getLastBotResponse. rewrite Hw. unfold sliceLast, MAX_CONVERSATION_HISTORY.
  rewrite !length_app, length_fmap. simpl length.
  split; intros Hlen.
  - set (a := Z.to_nat (Z.max (Z.of_nat (length h0 + 1 + length later) - 10) 0)).
    assert (a ≤ length h0)%nat as Ha by lia.
    rewrite <- (assoc_L (++)), drop_app_le by done.
    rewrite !reverse_app. rewrite <- (assoc_L (++)).
    rewrite lastAssistant_skip by by apply Forall_reverse.
    reflexivity.
  - set (a := Z.to_nat (Z.max (Z.of_nat (length h0 + 1 + length later) - 10) 0)).
    assert (length (h0 ++ [E]) ≤ a)%nat as Ha by (rewrite length_app; simpl; lia).
    rewrite drop_app_ge by done.
    rewrite <- (app_nil_r (reverse _)).
    rewrite lastAssistant_skip; [done|].
    apply Forall_reverse, Forall_drop, Hus.
Qed.

(** X13 — Bookmarks are short and never repeated. When [saveLastSuggestion]
    saves a summary, the summary is non-empty, at most 150 code units long,
    was not among the saved places, and is appended to them; when it saves
    nothing the saved places are as before. So saved places without
    repetition stay without repetition, and the history is never changed. *)
Theorem save_summary_bounded_unique ctx :
  let r := saveLastSuggestion ctx in
  let before := default [] (savedPlaces ctx) in
  let after := default [] (savedPlaces r.2) in
  (∀ summary, r.1 = Some summary →
     0 < JsString.len summary ≤ 150
     ∧ (summary ∉ before)
     ∧ after = before ++ [summary])
  ∧ (r.1 = None → after = before)
  ∧ (NoDup before → NoDup after)
  ∧ conversationHistory r.2 = conversationHistory ctx.
Proof.
  intros r before after. subst r before after.
  assert (∀ x : option JsString.t * userContext,
            x = (None, ctx) →
            (∀ summary, x.1 = Some summary →
               0 < JsString.len summary ≤ 150
               ∧ (summary ∉ default [] (savedPlaces ctx))
               ∧ default [] (savedPlaces x.2)
                 = default [] (savedPlaces ctx) ++ [summary])
            ∧ (x.1 = None → default [] (savedPlaces x.2) = default [] (savedPlaces ctx))
            ∧ (NoDup (default [] (savedPlaces ctx)) → NoDup (default [] (savedPlaces x.2)))
            ∧ conversationHistory x.2 = conversationHistory ctx) as Hnothing.
  { intros x ->. by split_and!. }
  unfold saveLastSuggestion.
  destruct (conversationHistory ctx) as [[|e0 h]|] eqn:Hh; [by apply Hnothing| |by apply Hnothing].
  destruct (getLastBotResponse ctx) as [[|c lastBot]|] eqn:Hlast;
    [by apply Hnothing| |by apply Hnothing].
  cbv zeta. clear Hnothing.
  set (bot := c :: lastBot).
  set (summary :=
         if (JsString.searchSentenceEnd bot >? 20) && (JsString.searchSentenceEnd bot <? 150)
         then JsString.substring 0 (JsString.searchSentenceEnd bot + 1) bot
         else if JsString.len bot >? 100
              then JsString.substring 0 100 bot ++ JsString.lit "..."
              else bot).
  assert (0 < JsString.len bot) as Hbot by (unfold JsString.len, bot; simpl; lia).
  assert ((JsString.len bot >? 100) = true →
          JsString.len (JsString.substring 0 100 bot ++ JsString.lit "...") = 103) as Hcut.
  { intros Hlong. apply Z.gtb_gt in Hlong. unfold JsString.len in *. rewrite length_app.
    rewrite jsstring_substring_0 by lia. rewrite length_take.
    change (length (JsString.lit "...")) with 3%nat. lia. }
  assert (0 < JsString.len summary ≤ 150) as Hbound.
  { subst summary. unfold JsString.searchSentenceEnd.
    destruct (jsstring_search_range bot 0) as [Hnone|[Hlo Hhi]].
    - rewrite Hnone. cbn [Z.gtb Z.compare andb].
      destruct (JsString.len bot >? 100) eqn:Hlong; [rewrite Hcut by done; lia|].
      rewrite Z.gtb_ltb in Hlong. apply Z.ltb_ge in Hlong. lia.
    - destruct (Z.gtb_spec (JsString.searchSentenceEndFrom bot 0) 20) as [H20|H20];
        destruct (Z.ltb_spec (JsString.searchSentenceEndFrom bot 0) 150) as [H150|H150];
        cbn [andb].
      1: { rewrite jsstring_substring_0_len by lia. lia. }
      all: destruct (JsString.len bot >? 100) eqn:Hlong; [rewrite Hcut by done; lia|];
        rewrite Z.gtb_ltb in Hlong; apply Z.ltb_ge in Hlong; lia. }
  clearbody summary.
  destruct (decide (summary ∈ default [] (savedPlaces ctx))) as [Hin|Hnin];
    cbn [fst snd savedPlaces conversationHistory default from_option].
  - by split_and!.
  - split_and!.
    + intros s [= <-]. done.
    + done.
    + intros Hnd. apply NoDup_app. split_and!; [done| |apply NoDup_singleton].
      intros x Hx ->%list_elem_of_singleton. done.
    + done.
Qed.

End ConversationFacts.

(** ** Reconnection backoff *)

Section ReconnectFacts.
Import Reconnect.
Implicit Types (st : Reconnect.state).

Lemma reconnect_delay_range (a : Z) :
  1 ≤ a → 2000 ≤ Z.min 30000 (1000 * 2 ^ a) ≤ 30000.
Proof.
  intros Ha. assert (2 ^ 1 ≤ 2 ^ a) by (apply Z.pow_le_mono_r; lia).
  change (2 ^ 1) with 2 in *. lia.
Qed.

Lemma reconnect_schedule_ok st :
  0 ≤ reconnectAttempts st →
  (∀ d, reconnectTimeout st = Some d → 2000 ≤ d ≤ 30000) →
  0 ≤ reconnectAttempts (scheduleReconnect st)
  ∧ ∀ d, reconnectTimeout (scheduleReconnect st) = Some d → 2000 ≤ d ≤ 30000.
Proof.
  intros Ha Hd. unfold scheduleReconnect.
  destruct (reconnectTimeout st) as [d0|] eqn:Ht; [by rewrite Ht|].
  simpl. split; [lia|]. intros d [= <-]. apply reconnect_delay_range. lia.
Qed.

(** X14 — Reconnection delays are bounded and never stack. In every state
    that disconnections, timer firings and outcomes of [client.initialize()]
    can reach, the attempt counter is not negative, the delay of the armed
    reconnect timer lies between 2000 and 30000 ms, and while a timer is armed
    a further [disconnected] event changes nothing (no second timer, no bump
    of the counter). *)
Theorem reconnect_delay_bounded (es : list event) :
  let st := run es init in
  0 ≤ reconnectAttempts st
  ∧ (∀ d, reconnectTimeout st = Some d → 2000 ≤ d ≤ 30000)
  ∧ (is_Some (reconnectTimeout st) → exec Disconnected st = st).
Proof.
  intros st.
  assert (0 ≤ reconnectAttempts st
          ∧ ∀ d, reconnectTimeout st = Some d → 2000 ≤ d ≤ 30000) as [Ha Hd].
  { subst st. unfold run.
    assert (0 ≤ reconnectAttempts init
            ∧ ∀ d, reconnectTimeout init = Some d → 2000 ≤ d ≤ 30000) as Hinit
      by (split; [simpl; lia|done]).
    revert Hinit. generalize init as st.
    induction es as [|e es IH]; intros st [Ha Hd]; simpl; [done|].
    apply IH. destruct e; simpl.
    - by apply reconnect_schedule_ok.
    - destruct (reconnectTimeout st) eqn:Ht; simpl; [by split|by rewrite Ht].
    - destruct (initializing st); simpl; [by split|]. split; [lia|done].
    - destruct (initializing st); [by split|]. by apply reconnect_schedule_ok. }
  split_and!; [done|done|].
  intros [d Ht]. simpl. unfold scheduleReconnect. by rewrite Ht.
Qed.

(** X15 — Exponential backoff with a cap, reset by success. After a
    disconnection followed by [k] reconnection attempts that all fail, the
    counter is [k + 1] and the next attempt is armed after
    [min(30000, 1000 * 2^(k+1))] ms: 2 s, 4 s, 8 s, 16 s, then 30 s for good.
    When the next attempt succeeds the counter returns to 0, and a later
    disconnection waits 2 s again. *)
Theorem reconnect_backoff_schedule (k : nat) :
  let failed := run (Disconnected :: failures k) init in
  let recovered := run [TimerFired; InitializeResolved] failed in
  reconnectAttempts failed = Z.of_nat k + 1
  ∧ reconnectTimeout failed = Some (Z.min 30000 (1000 * 2 ^ (Z.of_nat k + 1)))
  ∧ ((4 ≤ k)%nat → reconnectTimeout failed = Some 30000)
  ∧ reconnectAttempts recovered = 0
  ∧ reconnectTimeout recovered = None
  ∧ reconnectTimeout (exec Disconnected recovered) = Some 2000.
Proof.
  intros failed recovered.
  assert (reconnectAttempts failed = Z.of_nat k + 1
          ∧ reconnectTimeout failed = Some (Z.min 30000 (1000 * 2 ^ (Z.of_nat k + 1)))
          ∧ initializing failed = 0%nat) as (Ha & Ht & Hi).
  { subst failed recovered. induction k as [|k IH]; [done|].
    change (Disconnected :: failures (S k))
      with ((Disconnected :: failures k) ++ [TimerFired; InitializeRejected]).
    unfold run in *. rewrite fold_left_app.
    destruct IH as (Ha & Ht & Hi).
    destruct (fold_left _ (Disconnected :: failures k) init) as [a t i].
    simpl in *. subst. simpl. unfold scheduleReconnect. simpl.
    replace (Z.of_nat k + 1 + 1) with (Z.of_nat (S k) + 1) by lia. done. }
  split_and!; [done|done| | | |].
  - intros Hk. rewrite Ht. f_equal.
    assert (2 ^ 5 ≤ 2 ^ (Z.of_nat k + 1)) by (apply Z.pow_le_mono_r; lia).
    change (2 ^ 5) with 32 in *. lia.
  - subst recovered. destruct failed as [a t i]. simpl in *. by subst.
  - subst recovered. destruct failed as [a t i]. simpl in *. by subst.
  - subst recovered. destruct failed as [a t i]. simpl in *. by subst.
Qed.

End ReconnectFacts.

(** ** Reply truncation *)

Section ReplyFacts.
Import Reply.

(** X16 — Replies are cut to a bounded length. [truncateReply] returns a text
    of at most 1203 code units: a reply of at most 1200 is returned as it is;
    a longer one is cut either right after the last full stop followed by a
    space within its first 1200 units, when that full stop lies beyond index
    840 (the result is then a prefix of 842 to 1199 units ending in the full
    stop), or else at 1200 units with three dots appended. *)
Theorem truncateReply_bounded (reply : JsString.t) :
  let out := truncateReply reply in
  JsString.len out ≤ 1203
  ∧ (JsString.len reply ≤ 1200 → out = reply)
  ∧ (1200 < JsString.len reply →
     out = take 1200 reply ++ JsString.lit "..."
     ∨ ∃ n : nat, (841 ≤ n ≤ 1198)%nat
                  ∧ out = take (S n) reply
                  ∧ out !! n = Some 46%N).
Proof.
  intros out. subst out. unfold truncateReply, MAX_RESPONSE_LENGTH.
  destruct (Z.gtb_spec (JsString.len reply) 1200) as [Hlong|Hshort].
  2: { split_and!; [lia|done|lia]. }
  rewrite jsstring_substring_0 by lia.
  change (Z.to_nat 1200) with 1200%nat.
  assert (length (take 1200 reply) = 1200%nat) as Hlen.
  { rewrite length_take. unfold JsString.len in Hlong. lia. }
  unfold JsString.lastIndexOf. unfold JsString.len in Hlong.
  destruct (jsstring_lastIndex_range (JsString.lit ". ") (take 1200 reply) 0)
    as [->|(n & -> & Hst & Hn)].
  - change (-1 >? 840) with false. cbv iota. unfold JsString.len. rewrite length_app, Hlen.
    change (length (JsString.lit "...")) with 3%nat.
    split_and!; [lia|intros; lia|by left].
  - destruct (Z.gtb_spec (0 + Z.of_nat n) 840) as [Hfar|Hnear].
    + pose proof (jsstring_startsWith_length _ _ Hst) as Hroom.
      rewrite length_drop, Hlen in Hroom. change (length (JsString.lit ". ")) with 2%nat in Hroom.
      rewrite jsstring_substring_0 by lia.
      replace (Z.to_nat (0 + Z.of_nat n + 1)) with (S n) by lia.
      rewrite take_take. replace (S n `min` 1200)%nat with (S n) by lia.
      split_and!.
      * unfold JsString.len. rewrite length_take. lia.
      * unfold JsString.len. lia.
      * intros _. right. exists n. split_and!; [lia|lia|done|].
        apply jsstring_startsWith_head in Hst. unfold JsString.t in *.
        rewrite lookup_take_lt by lia.
        rewrite lookup_drop, Nat.add_0_r in Hst.
        by rewrite lookup_take_lt in Hst by lia.
    + unfold JsString.len. rewrite length_app, Hlen.
      change (length (JsString.lit "...")) with 3%nat.
    split_and!; [lia|intros; lia|by left].
Qed.

End ReplyFacts.

(** ** Weather *)

Section WeatherFacts.
Import Weather.

Lemma weather_round_bounds (x : Q) :
  (inject_Z (Math_round x) <= x + (1 # 2) ∧ x + (1 # 2) < inject_Z (Math_round x) + 1)%Q.
Proof.
  unfold Math_round. split; [apply Qfloor_le|].
  pose proof (Qlt_floor (x + (1 # 2))) as H.
  rewrite inject_Z_plus in H. exact H.
Qed.

Lemma weather_gt_true (a b : Q) : gt a b = true → (b < a)%Q.
Proof.
  unfold gt. intros H%negb_true_iff. apply Qnot_le_lt. intros Hle.
  apply Qle_bool_iff in Hle. congruence.
Qed.

Lemma weather_gt_false (a b : Q) : gt a b = false → (a <= b)%Q.
Proof. unfold gt. intros H%negb_false_iff. by apply Qle_bool_iff. Qed.

Lemma weather_lt_true (a b : Q) : lt a b = true → (a < b)%Q.
Proof. apply weather_gt_true. Qed.

Lemma weather_lt_false (a b : Q) : lt a b = false → (b <= a)%Q.
Proof. apply weather_gt_false. Qed.

Lemma weather_round_le (x : Q) (n : Z) : (x <= inject_Z n)%Q → Math_round x ≤ n.
Proof.
  intros Hx. destruct (weather_round_bounds x) as [Hlo _].
  assert (inject_Z (Math_round x) < inject_Z (n + 1))%Q as H.
  { rewrite inject_Z_plus. change (inject_Z 1) with 1%Q. lra. }
  rewrite <- Zlt_Qlt in H. lia.
Qed.

Lemma weather_round_ge (x : Q) (n : Z) : (inject_Z n <= x)%Q → n ≤ Math_round x.
Proof.
  intros Hx. destruct (weather_round_bounds x) as [_ Hhi].
  assert (inject_Z n < inject_Z (Math_round x + 1))%Q as H.
  { rewrite inject_Z_plus. change (inject_Z 1) with 1%Q. lra. }
  rewrite <- Zlt_Qlt in H. lia.
Qed.

Lemma weather_round_gt (x : Q) (n : Z) : (inject_Z n < x)%Q → n ≤ Math_round x.
Proof. intros Hx. apply weather_round_ge. lra. Qed.

Lemma weather_round_lt (x : Q) (n : Z) : (x < inject_Z n)%Q → Math_round x ≤ n.
Proof. intros Hx. apply weather_round_le. lra. Qed.

Lemma weather_dry_condition (code : Z) :
  includes code badCodes = false → getWeatherCondition code ∈ dryConditions.
Proof.
  intros Hbad. unfold getWeatherCondition, conditions, property.
  repeat match goal with
         | |- context [code =? ?k] =>
             destruct (Z.eqb_spec code k) as [->|_];
             [first [by vm_compute in Hbad
                    | apply list_elem_of_In; simpl; auto 10]|]
         end.
  apply list_elem_of_In. simpl. auto 10.
Qed.

(** X17 — The advice of a weather report depends on the rounded temperature
    and on the weather code alone. For the object [parseWeatherResponse]
    builds, [getWeatherSuggestion] warns of heat above 38 and 32 degrees and of
    cold below 10 (rounded), and between 10 and 32 advises against outdoor
    activities exactly on the rain, snow and storm codes of [badCodes]: the
    test of the unrounded temperature against 5 and 40 in
    [isGoodOutdoorWeather] never decides the advice. *)
Theorem weather_advice_by_rounded_temperature (c : current) :
  let t := Math_round (temperature_2m c) in
  getWeatherSuggestion (Some (parseWeatherResponse c)) =
    Some (Suggestion (getWeatherIcon (weather_code c)) t
            (getWeatherCondition (weather_code c))
            (if t >? 38 then VERY_HOT
             else if t >? 32 then WARM
             else if t <? 10 then COLD
             else if includes (weather_code c) badCodes then NOT_IDEAL
             else NICE)).
Proof.
  intros t. unfold getWeatherSuggestion, parseWeatherResponse.
  cbn [temperature weatherIcon condition isGoodForOutdoor]. fold t.
  do 2 f_equal.
  destruct (Z.gtb_spec t 38) as [|H38]; [done|].
  destruct (Z.gtb_spec t 32) as [|H32]; [done|].
  destruct (Z.ltb_spec t 10) as [|H10]; [done|].
  unfold isGoodOutdoorWeather.
  destruct (includes (weather_code c) badCodes); [done|].
  destruct (gt (temperature_2m c) 40) eqn:Hhot.
  { apply weather_gt_true, (weather_round_gt _ 40) in Hhot. fold t in Hhot. lia. }
  destruct (lt (temperature_2m c) 5) eqn:Hcold; [|done].
  apply weather_lt_true, (weather_round_lt _ 5) in Hcold. fold t in Hcold. lia.
Qed.

(** X18 — Weather reported as good for outdoor activities is dry and mild.
    When [parseWeatherResponse] sets [isGoodForOutdoor], the condition it
    reports names no drizzle, rain, snow, shower or thunderstorm (it is one of
    clear, cloudy, foggy or unknown), and the temperature it reports lies
    between 5 and 40 degrees. *)
Theorem weather_good_outdoor_is_dry (c : current) :
  isGoodForOutdoor (parseWeatherResponse c) = true →
  condition (parseWeatherResponse c) ∈ dryConditions
  ∧ 5 ≤ temperature (parseWeatherResponse c) ≤ 40.
Proof.
  unfold parseWeatherResponse. cbn [isGoodForOutdoor condition temperature].
  unfold isGoodOutdoorWeather.
  destruct (includes (weather_code c) badCodes) eqn:Hbad; [done|].
  destruct (gt (temperature_2m c) 40) eqn:Hhot; [done|].
  destruct (lt (temperature_2m c) 5) eqn:Hcold; [done|]. intros _.
  split; [by apply weather_dry_condition|].
  apply weather_gt_false in Hhot. apply weather_lt_false in Hcold.
  split; [by apply (weather_round_ge _ 5)|by apply (weather_round_le _ 40)].
Qed.

End WeatherFacts.

(** ** Reverse geocoding *)

Section GeocodingFacts.
Import Geocoding.

Lemma geocoding_or_nonempty a b : b ≠ Some "" → or a b ≠ Some "".
Proof.
  intros Hb. unfold or. destruct a as [s|]; [|done].
  destruct (decide (s = "")); [done|]. congruence.
Qed.

Lemma geocoding_truthy_text a :
  a ≠ Some "" → (a = None ∧ truthy a = false)
                ∨ (∃ s, a = Some s ∧ s ≠ "" ∧ truthy a = true).
Proof.
  intros Ha. destruct a as [s|]; [|by left]. right. exists s.
  unfold truthy. destruct (decide (s = "")); [congruence|done].
Qed.

Lemma geocoding_truthy_false a : truthy a = false → ∀ b, or a b = b.
Proof.
  unfold truthy, or. destruct a as [s|]; [|done].
  by destruct (decide (s = "")).
Qed.

Lemma geocoding_truthy_true s : s ≠ "" → truthy (Some s) = true.
Proof. intros Hs. unfold truthy. by destruct (decide (s = "")). Qed.

Lemma geocoding_or_true s b : s ≠ "" → or (Some s) b = Some s.
Proof. intros Hs. unfold or. by destruct (decide (s = "")). Qed.

Lemma geocoding_app_nonempty (s r : string) : s ≠ "" → s +:+ r ≠ "".
Proof. by destruct s. Qed.

Lemma geocoding_sep_nonempty (s r : string) : s +:+ ", " +:+ r ≠ "".
Proof. by destruct s. Qed.

Lemma geocoding_app_assoc (s r u : string) : (s +:+ r) +:+ u = s +:+ r +:+ u.
Proof.
  induction s as [|c s IH]; [done|].
  change (String c ((s +:+ r) +:+ u) = String c (s +:+ r +:+ u)). by rewrite IH.
Qed.

Lemma geocoding_app_nil_r (s : string) : s +:+ "" = s.
Proof.
  induction s as [|c s IH]; [done|].
  change (String c (s +:+ "") = String c s). by rewrite IH.
Qed.

Local Ltac geocoding_nonempty :=
  first [ done
        | apply geocoding_sep_nonempty
        | by apply geocoding_app_nonempty
        | apply geocoding_app_nonempty, geocoding_sep_nonempty ].

(** X19 — A parsed location always has a display name, and it agrees with
    the full address. For the object [parseNominatimResponse] builds, no text
    field is an empty string, and [getLocationDisplay] returns a non-empty
    text: a prefix of the full address when there is one (the area and city,
    the city, or the whole address), and the coordinates with four decimals
    when the answer names nothing. *)
Theorem geocoding_display_of_parsed (data : response) (lat lng : Q) :
  let l := parseNominatimResponse data lat lng in
  Forall (λ field, field ≠ Some "")
    [areaName l; city l; state l; country l; fullAddress l]
  ∧ ∃ d, getLocationDisplay (Some l) = Some d
         ∧ d ≠ ""
         ∧ match fullAddress l with
           | Some f => ∃ rest, f = d +:+ rest
           | None => d = toFixed4 lat +:+ ", " +:+ toFixed4 lng
           end.
Proof.
  unfold parseNominatimResponse, getLocationDisplay. cbv zeta.
  cbn [areaName city state country fullAddress coords Geocoding.lat Geocoding.lng].
  set (adr := default Address.none (address data)).
  set (a := or (Address.neighbourhood adr) _).
  set (c := or (Address.city adr) _).
  set (st := or (Address.state adr) None).
  set (co := or (Address.country adr) None).
  set (dn := or (display_name data) None).
  assert (a ≠ Some "") as Ha by (subst a; by do 7 apply geocoding_or_nonempty).
  assert (c ≠ Some "") as Hc by (subst c; by do 4 apply geocoding_or_nonempty).
  assert (st ≠ Some "") as Hst by (subst st; by apply geocoding_or_nonempty).
  assert (co ≠ Some "") as Hco by (subst co; by apply geocoding_or_nonempty).
  assert (dn ≠ Some "") as Hdn by (subst dn; by apply geocoding_or_nonempty).
  clearbody a c st co dn. clear adr.
  split.
  { repeat (apply Forall_cons; split; [done|]).
    apply Forall_cons; split; [|done]. by apply geocoding_or_nonempty. }
  destruct (geocoding_truthy_text a Ha) as [[-> Hta]|(sa & -> & Hsa & Hta)];
    destruct (geocoding_truthy_text c Hc) as [[-> Htc]|(sc & -> & Hsc & Htc)];
    destruct (geocoding_truthy_text co Hco) as [[-> Htco]|(sco & -> & Hsco & Htco)];
    rewrite ?Hta, ?Htc, ?Htco; unfold text; cbn [andb default from_option];
    unfold id; change (truthy (Some "")) with false; cbn [andb];
    rewrite ?Hta, ?Htc, ?Htco;
    rewrite ?(geocoding_truthy_false (Some "")) by done;
    repeat first
      [ rewrite geocoding_truthy_true by geocoding_nonempty
      | rewrite geocoding_or_true by geocoding_nonempty ];
    cbn [andb].
  - (* nothing named, no country *)
    destruct (geocoding_truthy_text dn Hdn) as [[-> Htd]|(sd & -> & Hsd & Htd)];
      rewrite Htd.
    + eexists. split_and!; [done|apply geocoding_sep_nonempty|done].
    + exists sd. split_and!; [done|done|]. exists "". by rewrite geocoding_app_nil_r.
  - (* nothing named but the country *)
    destruct (geocoding_truthy_text dn Hdn) as [[-> Htd]|(sd & -> & Hsd & Htd)];
      rewrite Htd.
    + eexists. split_and!; [done|apply geocoding_sep_nonempty|done].
    + exists sd. split_and!; [done|done|]. exists "". by rewrite geocoding_app_nil_r.
  - (* the city *)
    exists sc. split_and!; [done|done|]. exists "". by rewrite geocoding_app_nil_r.
  - exists sc. split_and!; [done|done|]. by eexists.
  - (* the area *)
    exists sa. split_and!; [done|done|]. exists "". by rewrite geocoding_app_nil_r.
  - eexists. split_and!; [done|geocoding_nonempty|]. exists "".
    by rewrite geocoding_app_nil_r.
  - (* area and city *)
    eexists. split_and!; [done|geocoding_nonempty|]. exists "".
    by rewrite geocoding_app_nil_r.
  - eexists. split_and!; [done|geocoding_nonempty|].
    exists (", " +:+ sco). by rewrite !geocoding_app_assoc.
Qed.

(** X20 — A place known only as a town is named twice. When the address has
    a town but no neighbourhood, suburb, quarter, village or city,
    [parseNominatimResponse] takes the town both as area and as city, and the
    display name reads [town, town]. *)
Theorem geocoding_town_named_twice (data : response) (lat lng : Q)
    (adr : Address.t) (t : string) :
  address data = Some adr →
  truthy (Address.neighbourhood adr) = false →
  truthy (Address.suburb adr) = false →
  truthy (Address.quarter adr) = false →
  truthy (Address.village adr) = false →
  truthy (Address.city adr) = false →
  Address.town adr = Some t →
  t ≠ "" →
  getLocationDisplay (Some (parseNominatimResponse data lat lng))
  = Some (t +:+ ", " +:+ t).
Proof.
  intros Hadr Hn Hs Hq Hv Hc Ht Hne.
  unfold parseNominatimResponse, getLocationDisplay. cbv zeta.
  cbn [areaName city fullAddress coords]. rewrite Hadr.
  change (default Address.none (Some adr)) with adr.
  rewrite !(geocoding_truthy_false _ Hn), !(geocoding_truthy_false _ Hs),
    !(geocoding_truthy_false _ Hq), !(geocoding_truthy_false _ Hv),
    !(geocoding_truthy_false _ Hc), !Ht.
  rewrite !geocoding_or_true by done.
  rewrite !geocoding_truthy_true by done. done.
Qed.

End GeocodingFacts.

(** ** What reaches [processMessage] *)

Section IntakeFacts.
Import Index Intake.
Variable USER_COOLDOWN_MS : Z.
Implicit Types (w : Index.world) (msg : Index.message).

Lemma intake_rejected now msg w :
  accepted msg = false → handleMessage USER_COOLDOWN_MS now msg w = w.
Proof.
  unfold accepted, handleMessage. intros H.
  destruct (includes "@g.us" (from msg)); [done|].
  destruct (decide (from msg = "status@broadcast")) as [Heq|Hne]; [done|].
  rewrite bool_decide_eq_false_2 in H by done.
  by destruct (fromMe msg).
Qed.

Lemma intake_rejected_exec msg e w :
  accepted msg = false → dropped msg w → dropped msg (exec USER_COOLDOWN_MS e w).
Proof.
  intros Hrej Hd. destruct e as [now msg'|now p o|b|b]; simpl; [|
    by apply dropped_drain, dropped_return|done|done].
  apply dropped_drain. destruct (decide (msg' = msg)) as [->|Hne].
  - by rewrite intake_rejected.
  - by apply dropped_handleMessage.
Qed.

Lemma intake_rejected_run msg es w :
  accepted msg = false → dropped msg w → dropped msg (run USER_COOLDOWN_MS es w).
Proof.
  intros Hrej. unfold run. revert w.
  induction es as [|e es IH]; intros w Hd; simpl; [done|].
  by apply IH, intake_rejected_exec.
Qed.

Lemma intake_dropped_init msg : dropped msg (init USER_COOLDOWN_MS).
Proof.
  split.
  - intros [wait Hin]. by apply elem_of_nil in Hin.
  - intros [(d & o & Hin)|(p & d & Hin & _)]; by apply elem_of_nil in Hin.
Qed.

Lemma intake_delivers_dec msg e : {¬ delivers msg e} + {delivers msg e}.
Proof.
  destruct e as [now msg'|now p o|b|b];
    [|left; by intros [? [=]]|left; by intros [? [=]]|left; by intros [? [=]]].
  destruct (decide (msg' = msg)) as [->|Hne].
  - right. by exists now.
  - left. intros [? [= _ ?]]. done.
Qed.

(** X21 — Only delivered messages that pass the tests are processed. In
    every run of the pipeline from its initial state, a message for which
    [processMessage] was called had been delivered by a [message] event, came
    from no group chat ([@g.us]), was no status update ([status@broadcast])
    and was not sent by the bot itself. *)
Theorem pipeline_processes_only_accepted (es : list event) (msg : message) :
  started msg (run USER_COOLDOWN_MS es (init USER_COOLDOWN_MS)) →
  accepted msg = true ∧ Exists (delivers msg) es.
Proof.
  intros Hstarted. split.
  - destruct (accepted msg) eqn:Hacc; [done|]. exfalso.
    by destruct (intake_rejected_run msg es _ Hacc (intake_dropped_init msg)).
  - destruct (Forall_Exists_dec (λ e, ¬ delivers msg e) (delivers msg)
                (intake_delivers_dec msg) es) as [Hnone|Hsome]; [|done].
    exfalso.
    by destruct (dropped_run USER_COOLDOWN_MS msg es _ Hnone (intake_dropped_init msg)).
Qed.

End IntakeFacts.

(** ** Intent and pattern detection *)

Section PatternFacts.
Import Patterns.
Implicit Types (s t : JsString.t) (st e : position) (a : list atom).

Lemma patterns_sameLetter_sym (x y : N) : sameLetter x y → sameLetter y x.
Proof. unfold sameLetter. congruence. Qed.

Lemma patterns_sameLetters_refl s : sameLetters s s.
Proof. by apply Forall_Forall2_diag, Forall_forall. Qed.

Lemma patterns_sameLetters_sym s t : sameLetters s t → sameLetters t s.
Proof.
  induction 1; constructor; [by apply patterns_sameLetter_sym|done].
Qed.

Lemma patterns_isWord_alike (x y : N) : sameLetter x y → isWord x = isWord y.
Proof.
  unfold sameLetter, canonicalize, isWord. intros H.
  destruct (N.leb_spec 97 x), (N.leb_spec x 122), (N.leb_spec 97 y),
    (N.leb_spec y 122); simpl in H;
    repeat match goal with
           | |- context [(?u <=? ?v)%N] => destruct (N.leb_spec u v)
           | |- context [(?u =? ?v)%N] => destruct (N.eqb_spec u v)
           end; simpl; first [reflexivity | lia].
Qed.

Lemma patterns_same_alike (c x y : N) : sameLetter x y → same c x = same c y.
Proof. unfold same, sameLetter. by intros ->. Qed.

Lemma patterns_boundary_alike st1 st2 : alike st1 st2 → boundary st1 = boundary st2.
Proof.
  destruct st1 as [p s], st2 as [q t]. intros [Hp Hs]. simpl in *.
  unfold boundary. simpl. f_equal.
  - destruct Hp; simpl; [by apply patterns_isWord_alike|done].
  - destruct Hs; simpl; [done|by apply patterns_isWord_alike].
Qed.

Lemma patterns_one_alike (c : N) st1 st2 :
  alike st1 st2 → Forall2 alike (one c st1) (one c st2).
Proof.
  destruct st1 as [p s], st2 as [q t]. intros [_ Hs]. simpl in Hs.
  unfold one. simpl. destruct Hs as [|x y s' t' Hxy Hs]; [constructor|].
  rewrite (patterns_same_alike c x y Hxy). destruct (same c y); [|constructor].
  constructor; [|constructor]. split; simpl; [by constructor|done].
Qed.

Lemma patterns_many_alike (c : N) s t :
  sameLetters s t → Forall2 alike (many c s) (many c t).
Proof.
  induction 1 as [|x y s t Hxy Hs IH]; simpl; [constructor|].
  rewrite (patterns_same_alike c x y Hxy). destruct (same c y); [|constructor].
  apply Forall2_app; [done|]. constructor; [|constructor].
  split; simpl; [by constructor|done].
Qed.

Lemma patterns_matchAtoms_alike a st1 st2 :
  alike st1 st2 → Forall2 alike (matchAtoms a st1) (matchAtoms a st2).
Proof.
  revert st1 st2. induction a as [|[c|c|c] a IH]; intros st1 st2 Hst; simpl.
  - by constructor.
  - apply Forall2_bind. eapply Forall2_impl; [by apply patterns_one_alike|].
    intros; by apply IH.
  - apply Forall2_app; [|by apply IH].
    apply Forall2_bind. eapply Forall2_impl; [by apply patterns_one_alike|].
    intros; by apply IH.
  - apply Forall2_bind. eapply Forall2_impl; [apply patterns_many_alike, Hst|].
    intros; by apply IH.
Qed.

Lemma patterns_existsb_alike {A B} (R : A → B → Prop) (f : A → bool) (g : B → bool)
    (l : list A) (k : list B) :
  Forall2 R l k → (∀ x y, R x y → f x = g y) → existsb f l = existsb g k.
Proof.
  intros Hlk Hfg. induction Hlk as [|x y l k Hxy _ IH]; simpl; [done|].
  by rewrite (Hfg x y Hxy), IH.
Qed.

Lemma patterns_wordAt_alike (alts : list (list atom)) st1 st2 :
  alike st1 st2 → option_Forall2 alike (wordAt alts st1) (wordAt alts st2).
Proof.
  intros Hst. unfold wordAt. rewrite (patterns_boundary_alike _ _ Hst).
  destruct (boundary st2); [|constructor].
  apply Forall2_lookup, Forall2_bind, Forall_Forall2_diag, Forall_forall.
  intros a _. apply Forall2_filter; [|by apply patterns_matchAtoms_alike].
  intros e1 e2 He. by rewrite (patterns_boundary_alike _ _ He).
Qed.

Lemma patterns_anywhere_alike (f g : position → bool) :
  (∀ st1 st2, alike st1 st2 → f st1 = g st2) →
  ∀ s t p q, option_Forall2 sameLetter p q → sameLetters s t →
             anywhere f p s = anywhere g q t.
Proof.
  intros Hfg s t p q Hpq Hst. revert p q Hpq.
  induction Hst as [|x y s t Hxy Hst IH]; intros p q Hpq; simpl.
  - f_equal. apply Hfg. split; [done|constructor].
  - f_equal.
    + apply Hfg. split; [done|by constructor].
    + apply IH. by constructor.
Qed.

Lemma patterns_test_alike (p : pattern) s t :
  sameLetters s t → test p s = test p t.
Proof.
  intros Hst. destruct p as [source|source]; simpl.
  - apply (patterns_existsb_alike eq); [by apply Forall_Forall2_diag, Forall_forall|].
    intros a ? <-.
    apply (patterns_existsb_alike alike).
    + apply patterns_matchAtoms_alike. split; [constructor|done].
    + intros [p1 r1] [p2 r2] [_ He]. simpl in *. apply bool_decide_ext.
      split; intros ->.
      * by apply Forall2_nil_inv_l in He.
      * by apply Forall2_nil_inv_r in He.
  - apply patterns_anywhere_alike; [|constructor|done].
    intros st1 st2 H12. apply bool_decide_ext.
    destruct (patterns_wordAt_alike (alternatives source) _ _ H12);
      split; intros [? [=]]; eauto.
Qed.

Lemma patterns_firstMatch_alike (table : list (string * pattern)) s t :
  sameLetters s t → firstMatch table s = firstMatch table t.
Proof.
  intros Hst. induction table as [|[name p] table IH]; simpl; [done|].
  by rewrite (patterns_test_alike p s t Hst), IH.
Qed.

Lemma patterns_group_alike (alts : list (list atom)) s t p q :
  option_Forall2 sameLetter p q → sameLetters s t →
  option_Forall2 sameLetters (group alts p s) (group alts q t).
Proof.
  intros Hpq Hst. revert p q Hpq.
  induction Hst as [|x y s t Hxy Hst IH]; intros p q Hpq; simpl.
  - match goal with
    | |- option_Forall2 _ match ?u with _ => _ end match ?v with _ => _ end =>
        assert (option_Forall2 alike u v) as Hw
          by (apply patterns_wordAt_alike; split; [done|constructor]);
        revert Hw; destruct u, v; intros Hw; inversion Hw; constructor
    end.
    constructor.
  - match goal with
    | |- option_Forall2 _ match ?u with _ => _ end match ?v with _ => _ end =>
        assert (option_Forall2 alike u v) as Hw
          by (apply patterns_wordAt_alike; split; [done|by constructor]);
        revert Hw; destruct u as [e1|], v as [e2|]; intros Hw;
        inversion Hw as [? ? [_ He]|]; subst
    end.
    + constructor.
      rewrite (Forall2_length _ _ _ He), (Forall2_length _ _ _ Hst).
      apply Forall2_take. by constructor.
    + apply IH. by constructor.
Qed.

Lemma patterns_firstGroup_alike (patterns : list string) s t :
  sameLetters s t →
  option_Forall2 sameLetters (firstGroup patterns s) (firstGroup patterns t).
Proof.
  intros Hst. induction patterns as [|source patterns IH]; simpl; [constructor|].
  pose proof (patterns_group_alike (alternatives source) s t None None
                ltac:(constructor) Hst) as Hg. revert Hg.
  destruct (group _ None s), (group _ None t); intros Hg; inversion Hg; subst;
    [by constructor|done].
Qed.

(** X22 — Detection ignores the case of letters. Two texts that differ only
    in the case of ASCII letters get the same intent, quick action,
    preferences and travel style; the city found is the same up to case, since
    [detectCity] returns it as the text writes it. *)
Theorem detection_ignores_case s t :
  sameLetters s t →
  detectIntent s = detectIntent t
  ∧ detectQuickAction s = detectQuickAction t
  ∧ detectPreferences s = detectPreferences t
  ∧ detectTravelStyle s = detectTravelStyle t
  ∧ option_Forall2 sameLetters (detectCity s) (detectCity t).
Proof.
  intros Hst. split_and!.
  - by apply patterns_firstMatch_alike.
  - by apply patterns_firstMatch_alike.
  - unfold detectPreferences. by rewrite !(patterns_test_alike _ s t Hst).
  - unfold detectTravelStyle. by rewrite !(patterns_test_alike _ s t Hst).
  - by apply patterns_firstGroup_alike.
Qed.

(** *** Commands written as whole phrases *)

Lemma patterns_literal_end (w : list N) st e :
  e ∈ matchAtoms (Lit <$> w) st → ∃ m, st.2 = m ++ e.2 ∧ sameLetters w m.
Proof.
  revert st. induction w as [|c w IH]; intros st; simpl.
  - intros ->%list_elem_of_singleton. exists []. split; [done|constructor].
  - intros (y & He & Hy)%list_elem_of_bind. unfold one in Hy.
    destruct (st.2) as [|d s'] eqn:Hs; [by apply elem_of_nil in Hy|].
    destruct (same c d) eqn:Hcd; [|by apply elem_of_nil in Hy].
    apply list_elem_of_singleton in Hy as ->.
    destruct (IH _ He) as (m & Hm & Hwm). simpl in Hm.
    exists (d :: m). split; [by rewrite Hm|].
    constructor; [|done]. by apply N.eqb_eq in Hcd.
Qed.

Lemma patterns_anchored_literals (ws : list string) (source : string) s :
  alternatives source = (λ w, Lit <$> JsString.lit w) <$> ws →
  test (Anchored source) s = true →
  ∃ w, w ∈ ws ∧ sameLetters s (JsString.lit w).
Proof.
  intros Halts. simpl. rewrite Halts.
  intros (a & Ha & (e & He & Hend)%existsb_exists)%existsb_exists.
  apply list_elem_of_In, list_elem_of_fmap in Ha as (w & -> & Hw).
  apply list_elem_of_In, patterns_literal_end in He as (m & Hm & Hwm).
  apply bool_decide_eq_true in Hend. destruct e as [pe re]. simpl in *.
  subst re. rewrite app_nil_r in Hm. subst m.
  exists w. split; [done|]. by apply patterns_sameLetters_sym.
Qed.

Lemma patterns_intent_save s :
  detectIntent s = Some "save" →
  test (Anchored "save|save this|bookmark|remember this|note this") s = true.
Proof.
  unfold detectIntent, INTENTS. cbn [firstMatch]. intros H.
  repeat match type of H with
         | (if test ?p s then _ else _) = _ =>
             destruct (test p s) eqn:?; [first [discriminate H | reflexivity | assumption]|]
         end.
  discriminate H.
Qed.

Lemma patterns_intent_mySaves s :
  detectIntent s = Some "mySaves" →
  test (Anchored "my saves|saved|bookmarks|my bookmarks|my places|saved places") s
  = true.
Proof.
  unfold detectIntent, INTENTS. cbn [firstMatch]. intros H.
  repeat match type of H with
         | (if test ?p s then _ else _) = _ =>
             destruct (test p s) eqn:?; [first [discriminate H | reflexivity | assumption]|]
         end.
  discriminate H.
Qed.

(** X23 — The bookmark commands. [detectIntent] answers [save] exactly on the
    five phrases of its pattern, in any case of letters. It answers [mySaves]
    on four of the six phrases of that pattern only: [my places] and
    [saved places] contain the word [places] and are taken as a question about
    attractions, an intent that is tested earlier. *)
Theorem bookmark_commands s :
  (detectIntent s = Some "save"
   ↔ ∃ w, w ∈ ["save"; "save this"; "bookmark"; "remember this"; "note this"]
          ∧ sameLetters s (JsString.lit w))
  ∧ (detectIntent s = Some "mySaves"
     ↔ ∃ w, w ∈ ["my saves"; "saved"; "bookmarks"; "my bookmarks"]
            ∧ sameLetters s (JsString.lit w))
  ∧ (sameLetters s (JsString.lit "my places")
     ∨ sameLetters s (JsString.lit "saved places")
     → detectIntent s = Some "attractions").
Proof.
  assert (∀ w, sameLetters s (JsString.lit w) →
               detectIntent s = detectIntent (JsString.lit w)) as Hcase
    by (intros w Hw; by apply patterns_firstMatch_alike).
  split_and!.
  - split.
    + intros H%patterns_intent_save. revert H.
      by apply patterns_anchored_literals.
    + intros (w & Hw & Hs). rewrite (Hcase w Hs).
      repeat (apply elem_of_cons in Hw as [->|Hw]; [vm_compute; reflexivity|]).
      by apply elem_of_nil in Hw.
  - split.
    + intros H. pose proof (patterns_intent_mySaves s H) as Htest.
      apply (patterns_anchored_literals
               ["my saves"; "saved"; "bookmarks"; "my bookmarks"; "my places";
                "saved places"]) in Htest as (w & Hw & Hs); [|reflexivity].
      rewrite (Hcase w Hs) in H. exists w. split; [|done].
      repeat (apply elem_of_cons in Hw as [->|Hw];
              [first [by vm_compute in H | apply list_elem_of_In; simpl; auto 10]|]).
      by apply elem_of_nil in Hw.
    + intros (w & Hw & Hs). rewrite (Hcase w Hs).
      repeat (apply elem_of_cons in Hw as [->|Hw]; [vm_compute; reflexivity|]).
      by apply elem_of_nil in Hw.
  - intros [Hs|Hs]; rewrite (Hcase _ Hs); vm_compute; reflexivity.
Qed.

(** *** A dietary preference that is misread *)

Lemma patterns_before_cons (prev : option N) (c : N) (pre : JsString.t) :
  before prev (c :: pre) = before (Some c) pre.
Proof. unfold before. rewrite last_cons. by destruct (last pre). Qed.

Lemma patterns_literal_match (w m : list N) (prev : option N) (post : JsString.t) :
  sameLetters w m →
  matchAtoms (Lit <$> w) (prev, m ++ post) = [(before prev m, post)].
Proof.
  intros Hwm. revert prev. induction Hwm as [|c d w m Hcd _ IH]; intros prev.
  - done.
  - cbn [fmap list_fmap matchAtoms]. unfold one. cbn [snd app].
    unfold same. apply N.eqb_eq in Hcd. rewrite Hcd.
    rewrite patterns_before_cons, <- IH. simpl. by rewrite app_nil_r.
Qed.

Lemma patterns_anywhere_later (f : position → bool) (pre rest : JsString.t)
    (prev : option N) :
  f (before prev pre, rest) = true → anywhere f prev (pre ++ rest) = true.
Proof.
  revert prev. induction pre as [|c pre IH]; intros prev H.
  - simpl. destruct rest; simpl; unfold before in H; simpl in H; by rewrite H.
  - simpl. rewrite patterns_before_cons in H. rewrite (IH _ H).
    apply orb_true_r.
Qed.

Lemma patterns_wordAt_intro (alts : list (list atom)) a st e :
  a ∈ alts → e ∈ matchAtoms a st → boundary st = true → boundary e = true →
  is_Some (wordAt alts st).
Proof.
  intros Ha He Hst Hend. unfold wordAt. rewrite Hst.
  apply lookup_lt_is_Some.
  assert (e ∈ alts ≫= λ a, filter (λ e, boundary e = true) (matchAtoms a st)) as Hin.
  { apply list_elem_of_bind. exists a. split; [|done]. by apply list_elem_of_filter. }
  destruct (alts ≫= _); [by apply elem_of_nil in Hin|simpl; lia].
Qed.

(** X24 — [non-veg] with a hyphen is read as vegetarian. In a text where
    [non-veg] is written with the hyphen (in any case of letters) and is not
    run on by a letter, digit or underscore, the word [veg] after the hyphen
    matches the vegetarian pattern, which [detectPreferences] tests first: the
    dietary restriction it records is [vegetarian]. *)
Theorem hyphenated_nonveg_is_vegetarian (pre mid post : JsString.t) :
  sameLetters (JsString.lit "non-veg") mid →
  from_option isWord false (head post) = false →
  ∃ b, detectPreferences (pre ++ mid ++ post) = Some (Prefs (Some "vegetarian") b).
Proof.
  intros Hmid Hpost.
  assert (test PREFERENCES.vegetarian (pre ++ mid ++ post) = true) as Hveg.
  { change (JsString.lit "non-veg") with ([110; 111; 110] ++ [45] ++ JsString.lit "veg")%N
      in Hmid.
    apply Forall2_app_inv_l in Hmid as (k1 & k2 & Hk1 & Hk2 & ->).
    apply Forall2_app_inv_l in Hk2 as (k3 & k4 & Hk3 & Hk4 & ->).
    apply Forall2_cons_inv_l in Hk3 as (d & k3' & Hd & ->%Forall2_nil_inv_l & ->).
    replace (pre ++ (k1 ++ [d] ++ k4) ++ post)
      with ((pre ++ k1 ++ [d]) ++ (k4 ++ post)) by by rewrite <- !app_assoc.
    unfold test, PREFERENCES.vegetarian. apply patterns_anywhere_later.
    assert (before None (pre ++ k1 ++ [d]) = Some d) as ->.
    { unfold before. by rewrite !app_assoc, last_snoc. }
    assert (isWord d = false) as Hdw
      by (by rewrite <- (patterns_isWord_alike _ _ Hd)).
    assert (from_option isWord false (head (k4 ++ post)) = true) as Hhead.
    { pose proof Hk4 as Hv. change (JsString.lit "veg") with [118; 101; 103]%N in Hv.
      apply Forall2_cons_inv_l in Hv as (v & k' & Hv & _ & ->). simpl.
      by rewrite <- (patterns_isWord_alike _ _ Hv). }
    assert (from_option isWord false (before (Some d) k4) = true) as Hlast.
    { pose proof (Forall2_last _ _ _ Hk4) as Hl.
      change (last (JsString.lit "veg")) with (Some 103%N) in Hl.
      inversion Hl as [x g Hg Hx Hlast|]. unfold before. rewrite <- Hlast. simpl.
      by rewrite <- (patterns_isWord_alike _ _ Hg). }
    apply bool_decide_eq_true_2.
    apply (patterns_wordAt_intro _ (Lit <$> JsString.lit "veg") _
             (before (Some d) k4, post)).
    - apply list_elem_of_In. vm_compute. left. reflexivity.
    - rewrite (patterns_literal_match _ _ _ _ Hk4). by apply list_elem_of_singleton.
    - unfold boundary. cbn [fst snd from_option]. by rewrite Hdw, Hhead.
    - unfold boundary. cbn [fst snd]. by rewrite Hlast, Hpost. }
  unfold detectPreferences. rewrite Hveg.
  destruct (test PREFERENCES.budgetFriendly _); [by eexists|].
  destruct (test PREFERENCES.premium _); by eexists.
Qed.

End PatternFacts.

(** [HELLO] is a greeting as [hello] is. *)
Lemma detection_ignores_case_witness :
  Patterns.detectIntent (JsString.lit "HELLO") = Some "greeting".
Proof.
  destruct (detection_ignores_case (JsString.lit "HELLO") (JsString.lit "hello"))
    as [Hintent _].
  - repeat constructor.
  - rewrite Hintent. vm_compute. reflexivity.
Defined.

(** [I eat Non-Veg only]. *)
Lemma hyphenated_nonveg_is_vegetarian_witness :
  ∃ b, Patterns.detectPreferences (JsString.lit "I eat Non-Veg only")
       = Some (Patterns.Prefs (Some "vegetarian") b).
Proof.
  apply (hyphenated_nonveg_is_vegetarian (JsString.lit "I eat ")
           (JsString.lit "Non-Veg") (JsString.lit " only")).
  - repeat constructor.
  - reflexivity.
Defined.

(** ** Instances of the laws above *)

(** Two keys set with the default TTL of 1000 and with a TTL of 50, the second
    read after its deadline: one entry and one armed timer are left. *)
Lemma ttlmap_timers_match_entries_witness :
  let s := TTLMapCalls.performAll
             [TTLMapCalls.DoSet 0 "a" 1 None; TTLMapCalls.DoSet 5 "b" 2 (Some 50);
              TTLMapCalls.DoGet 70 "b"] (TTLMap.new 1000) in
  length (TTLMap.pending s) = TTLMap.size s ∧ TTLMap.size s = 1%nat.
Proof.
  intros s.
  destruct (ttlmap_timers_match_entries 1000
              [TTLMapCalls.DoSet 0 "a" 1 None; TTLMapCalls.DoSet 5 "b" 2 (Some 50);
               TTLMapCalls.DoGet 70 "b"]) as (Hcount & _).
  - repeat constructor; by vm_compute.
  - split; [exact Hcount|vm_compute; reflexivity].
Defined.

(** A store holding ["k"] until 1000, swept at 300 and 600: a read at 700
    returns the value. *)
Lemma ttlmap_background_unobservable_witness :
  let s := TTLMap.set 0 "k" 7 1000 (TTLMap.new 1000) in
  let bs := [TTLMap.Cleanup 300; TTLMap.Cleanup 600] in
  TTLMapCalls.read 700 "k" (TTLMap.steps bs s) = Some 7.
Proof.
  intros s bs.
  etrans; [apply (ttlmap_background_unobservable 700 "k" bs s)|reflexivity].
  - refine (synced_performAll [TTLMapCalls.DoSet 0 "k" 7 None] (TTLMap.new 1000)
              _ (synced_new 1000)).
    repeat constructor; by vm_compute.
  - subst bs. repeat constructor; simpl; lia.
Defined.

(** The same store destroyed: nothing is stored, the timer of ["k"] is gone. *)
Lemma ttlmap_destroy_leaves_nothing_witness :
  let s' := TTLMap.destroy (TTLMap.set 0 "k" 7 1000 (TTLMap.new 1000)) in
  TTLMap.size s' = 0%nat
  ∧ TTLMap.fire 1000 0 s' = None
  ∧ TTLMapCalls.read 500 "k" s' = None.
Proof.
  intros s'.
  destruct (ttlmap_destroy_leaves_nothing 500 1000 "k" 0 []
              (TTLMap.set 0 "k" 7 1000 (TTLMap.new 1000)))
    as (Hsize & _ & _ & Hfire & Hread & _).
  { refine (synced_performAll [TTLMapCalls.DoSet 0 "k" 7 None] (TTLMap.new 1000)
              _ (synced_new 1000)).
    repeat constructor; by vm_compute. }
  by split_and!.
Defined.

(** ["a"] expires at 100 and ["b"] at 1000: the sweep at 500 keeps ["b"]. *)
Lemma ttlmap_cleanup_removes_expired_witness :
  let s := TTLMap.set 0 "b" 2 1000 (TTLMap.set 0 "a" 1 100 (TTLMap.new 1000)) in
  JsMap.keys (TTLMap.map (TTLMap.cleanup 500 s)) = ["b"]
  ∧ length (TTLMap.pending (TTLMap.cleanup 500 s)) = 1%nat.
Proof.
  intros s.
  destruct (ttlmap_cleanup_removes_expired 500 s) as (Hmap & _ & Hlen).
  { refine (synced_performAll [TTLMapCalls.DoSet 0 "a" 1 (Some 100);
                               TTLMapCalls.DoSet 0 "b" 2 None] (TTLMap.new 1000)
              _ (synced_new 1000)).
    repeat constructor; by vm_compute. }
  rewrite Hmap, Hlen. split; vm_compute; reflexivity.
Defined.

(** ["a"] is reported as a duplicate at 500: it was marked. *)
Lemma dedupe_no_false_positive_witness :
  Exists (DedupeCalls.marks "a") [MessageDeduplicator.CheckAndMark 0 "a"].
Proof.
  apply (dedupe_no_false_positive 1000 100 500 "a"
           [MessageDeduplicator.CheckAndMark 0 "a"]).
  vm_compute. reflexivity.
Defined.

(** Marking ["b"] in a store of capacity 100 that holds ["a"] keeps ["a"]. *)
Lemma dedupe_markSeen_keeps_others_witness :
  let d := MessageDeduplicator.markSeen 0 "a" (MessageDeduplicator.new 1000 100) in
  (MessageDeduplicator.isDuplicate 20 "a" (MessageDeduplicator.markSeen 10 "b" d)).1
  = true.
Proof.
  intros d.
  destruct (dedupe_markSeen_keeps_others 10 20 "b" "a" d) as [_ Hdup].
  - vm_compute. reflexivity.
  - discriminate.
  - rewrite Hdup. vm_compute. reflexivity.
Defined.

(** A's message is delivered at 0, answered at 1000 and delivered again at
    5000: the second delivery changes nothing. *)
Lemma pipeline_redelivery_ignored_witness :
  let w2 := Index.run 2000 [Index.Return 1000 0 Index.Replied]
              (Index.exec 2000 (Index.Incoming 0 Index.msgA) (Index.init 2000)) in
  Index.exec 2000 (Index.Incoming 5000 Index.msgA) w2 = w2.
Proof.
  apply (pipeline_redelivery_ignored 2000 0 5000 Index.msgA
           "false_919812345678@c.us_3EB0A1" [Index.Return 1000 0 Index.Replied]
           (Index.init 2000)).
  - reflexivity.
  - discriminate.
  - vm_compute. reflexivity.
  - repeat constructor.
  - vm_compute. discriminate.
Defined.

(** Twelve messages added to an empty context: the last ten are kept. *)
Lemma history_sliding_window_witness :
  let adds := (λ n, ("user", JsString.lit "hi", Z.of_nat n)) <$> seq 0 12 in
  Conversation.conversationHistory
    (Conversation.addAll adds (Conversation.UserContext None None))
  = Some (Conversation.entryOf <$> drop 2 adds).
Proof.
  intros adds.
  destruct (history_sliding_window adds (Conversation.UserContext None None))
    as [Hwindow _]; [discriminate|].
  rewrite Hwindow. vm_compute. reflexivity.
Defined.

(** A reply followed by one message of the user is still the last reply. *)
Lemma last_reply_retrievable_witness :
  Conversation.getLastBotResponse
    (Conversation.addAll [("user", JsString.lit "more", 1)]
       (Conversation.addToHistory 0 "assistant" (JsString.lit "Try the cafe.")
          (Conversation.UserContext None None)))
  = Some (JsString.lit "Try the cafe.").
Proof.
  apply last_reply_retrievable.
  - repeat constructor. discriminate.
  - simpl. lia.
Defined.

(** 22 degrees under a partly cloudy sky. *)
Lemma weather_good_outdoor_is_dry_witness :
  let c := Weather.Current (22 # 1) (40 # 1) 2 (5 # 1) in
  Weather.condition (Weather.parseWeatherResponse c) ∈ Weather.dryConditions
  ∧ 5 ≤ Weather.temperature (Weather.parseWeatherResponse c) ≤ 40.
Proof.
  intros c. apply weather_good_outdoor_is_dry. vm_compute. reflexivity.
Defined.

(** An address that names the town of Manali and its country. *)
Lemma geocoding_town_named_twice_witness :
  let adr := Geocoding.Address.Make None None None None (Some "Manali") None None
               None None None (Some "Himachal Pradesh") (Some "India") in
  Geocoding.getLocationDisplay
    (Some (Geocoding.parseNominatimResponse
             (Geocoding.Response (Some adr) None) (3224 # 100) (7719 # 100)))
  = Some "Manali, Manali".
Proof.
  intros adr.
  apply (geocoding_town_named_twice _ _ _ adr "Manali");
    first [reflexivity | discriminate].
Defined.

(** A's message, delivered once, is processed. *)
Lemma pipeline_processes_only_accepted_witness :
  Intake.accepted Index.msgA = true
  ∧ Exists (Index.delivers Index.msgA) [Index.Incoming 0 Index.msgA].
Proof.
  apply (pipeline_processes_only_accepted 2000 [Index.Incoming 0 Index.msgA]).
  exists None. apply list_elem_of_In. vm_compute. left. reflexivity.
Defined.

(** A first bookmark: the first sentence of the last reply is saved. *)
Lemma save_summary_bounded_unique_witness :
  let reply := JsString.lit "Try Cafe Mondegar for breakfast. It is near the Gateway." in
  let ctx := Conversation.addToHistory 0 "assistant" reply
               (Conversation.UserContext None None) in
  (Conversation.saveLastSuggestion ctx).1
  = Some (JsString.lit "Try Cafe Mondegar for breakfast.")
  ∧ Conversation.savedPlaces (Conversation.saveLastSuggestion ctx).2
    = Some [JsString.lit "Try Cafe Mondegar for breakfast."].
Proof.
  intros reply ctx.
  destruct (save_summary_bounded_unique ctx) as (Hsaved & _).
  destruct (Hsaved (JsString.lit "Try Cafe Mondegar for breakfast."))
    as (_ & _ & Hafter); [vm_compute; reflexivity|].
  split; [vm_compute; reflexivity|].
  destruct (Conversation.savedPlaces (Conversation.saveLastSuggestion ctx).2);
    [|done].
  simpl in Hafter. by rewrite Hafter.
Defined.
